(** * Motionapp: field parser, document splitter, web search, session/event bus
      and generation orchestrator

    A shallow embedding of the Python backends [main.py], [main_backup.py],
    [main_o3.py], [main_enhanced.py] and [ai_utils.py].

    Conventions.
    - A Python [str] is a [list ascii] (written [text]): the characters are
      the code points below 256.
    - A Python [dict] that is iterated in insertion order is an association
      list; the process-wide [active_sessions] dictionary is a [gmap].
    - Code that may raise returns [exc A]; the argument of [Raise] is the
      text of [str(e)].
    - What the outside world answers (the model API, the search API, the
      moment at which a coroutine is resumed) is an explicit argument. *)

From Stdlib Require Import Ascii String Bool Arith Lia ZArith DecimalString.
From stdpp Require Import base option list sorting gmap strings.

Set Default Proof Using "Type".
Local Open Scope nat_scope.
Local Open Scope list_scope.

Abbreviation text := (list ascii).

(** ** Python values shared by all components *)
Module Py.

(** A string literal of the source. *)
Definition lit (s : string) : text := list_ascii_of_string s.

(** [exc A]: a computation that returns or raises. *)
Inductive exc (A : Type) : Type :=
| Ok (a : A)
| Raise (msg : text).
Arguments Ok {A} a.
Arguments Raise {A} msg.

#[export] Instance exc_bind : MBind exc := fun A B k m =>
  match m with
  | Ok a => k a
  | Raise e => Raise e
  end.
#[export] Instance exc_ret : MRet exc := @Ok.

Definition code (c : ascii) : nat := nat_of_ascii c.

(** [str.isspace] on one character, and the class [\s] of [re] on [str]
    patterns: TAB, LF, VT, FF, CR, the separators 0x1c-0x1f, the blank, NEL
    and the no-break space. *)
Definition is_space (c : ascii) : bool :=
  let n := code c in
  ((9 <=? n) && (n <=? 13)) || ((28 <=? n) && (n <=? 32))
  || (n =? 133) || (n =? 160).

Definition is_upper (c : ascii) : bool := (65 <=? code c) && (code c <=? 90).
Definition is_lower (c : ascii) : bool := (97 <=? code c) && (code c <=? 122).

Definition lower (c : ascii) : ascii :=
  if is_upper c then ascii_of_nat (code c + 32) else c.
Definition upper (c : ascii) : ascii :=
  if is_lower c then ascii_of_nat (code c - 32) else c.

(** [str.lstrip()], [str.rstrip()] and [str.strip()] without argument. *)
Fixpoint lstrip (s : text) : text :=
  match s with
  | c :: s' => if is_space c then lstrip s' else s
  | [] => []
  end.

Definition rstrip (s : text) : text := rev (lstrip (rev s)).

Definition strip (s : text) : text := rstrip (lstrip s).

(** [needle in haystack] and [str.find]: the least index at which [w]
    occurs. *)
Fixpoint starts_with (w s : text) : bool :=
  match w, s with
  | [], _ => true
  | c :: w', x :: s' => Ascii.eqb c x && starts_with w' s'
  | _ :: _, [] => false
  end.

Fixpoint find (w s : text) : option nat :=
  if starts_with w s then Some 0
  else match s with
       | [] => None
       | _ :: s' => S <$> find w s'
       end.

Definition contains (w s : text) : bool := bool_decide (is_Some (find w s)).

End Py.
Export Py.

(** ** The fragment of Python's [re] that the pattern tables use

    Ordered backtracking is modelled by the list of all ways a pattern can
    match at the head of the input, in the order in which the backtracking
    engine tries them; [re.search] takes the first of them at the leftmost
    position that has one. *)
Module Re.

Record flags := { ignorecase : bool; dotall : bool }.

(** The members of a bracketed set. *)
Inductive set_item :=
| SChar (c : ascii)
| SRange (lo hi : ascii)
| SSpace.

Inductive re :=
| Eps
| Chr (c : ascii)
| Any
| Space
| Set_ (neg : bool) (items : list set_item)
| Seq (r1 r2 : re)
| Alt (r1 r2 : re)
| Rep (greedy : bool) (lo : nat) (hi : option nat) (r : re)
| Group (n : nat) (r : re).

(** A run of literal characters. *)
Fixpoint Lit' (s : text) : re :=
  match s with
  | [] => Eps
  | [c] => Chr c
  | c :: s' => Seq (Chr c) (Lit' s')
  end.
Definition Lit (s : string) : re := Lit' (lit s).

Definition Star (r : re) : re := Rep true 0 None r.
Definition Plus (r : re) : re := Rep true 1 None r.
Definition Opt (r : re) : re := Rep true 0 (Some 1) r.
Definition Count (lo hi : nat) (r : re) : re := Rep true lo (Some hi) r.
Definition LazyStar (r : re) : re := Rep false 0 None r.
Definition Range (lo hi : ascii) : re := Set_ false [SRange lo hi].

Fixpoint Seqs (rs : list re) : re :=
  match rs with
  | [] => Eps
  | [r] => r
  | r :: rs' => Seq r (Seqs rs')
  end.

Definition chr_eq (fl : flags) (c x : ascii) : bool :=
  if ignorecase fl then Ascii.eqb (lower c) (lower x) else Ascii.eqb c x.

Definition in_range (lo hi x : ascii) : bool :=
  (code lo <=? code x) && (code x <=? code hi).

Definition item_match (fl : flags) (it : set_item) (x : ascii) : bool :=
  match it with
  | SChar c => chr_eq fl c x
  | SRange lo hi =>
      in_range lo hi x
      || (ignorecase fl && (in_range lo hi (lower x) || in_range lo hi (upper x)))
  | SSpace => is_space x
  end.

Definition set_match (fl : flags) (neg : bool) (items : list set_item) (x : ascii) : bool :=
  xorb neg (existsb (fun it => item_match fl it x) items).

(** One way of matching: the characters consumed, the rest of the input and
    the groups captured so far. *)
Record way := { consumed : text; rest : text; groups : gmap nat text }.

Definition one_char (ok : ascii -> bool) (s : text) (g : gmap nat text) : list way :=
  match s with
  | x :: s' => if ok x then [ {| consumed := [x]; rest := s'; groups := g |} ] else []
  | [] => []
  end.

(** After [w1], continue with each way of [k]. *)
Definition then_ (k : text -> gmap nat text -> list way) (w1 : way) : list way :=
  map (fun w2 => {| consumed := consumed w1 ++ consumed w2;
                    rest := rest w2; groups := groups w2 |})
      (k (rest w1) (groups w1)).

(** Repetition [r{lo,hi}]: at most [fuel] further iterations.  An iteration
    past the minimum that consumes nothing is not repeated. *)
Fixpoint rep (m : text -> gmap nat text -> list way) (greedy : bool)
    (lo : nat) (hi : option nat) (fuel : nat) (s : text) (g : gmap nat text)
    : list way :=
  let stop :=
    match lo with
    | 0 => [ {| consumed := []; rest := s; groups := g |} ]
    | S _ => []
    end in
  match fuel with
  | 0 => stop
  | S fuel' =>
      let more :=
        match hi with
        | Some 0 => []
        | _ =>
            flat_map
              (fun w1 =>
                 match lo, consumed w1 with
                 | 0, [] => []
                 | _, _ => then_ (rep m greedy (pred lo) (pred <$> hi) fuel') w1
                 end)
              (m s g)
        end in
      if greedy then more ++ stop else stop ++ more
  end.

Fixpoint ways (fl : flags) (r : re) (s : text) (g : gmap nat text) : list way :=
  match r with
  | Eps => [ {| consumed := []; rest := s; groups := g |} ]
  | Chr c => one_char (chr_eq fl c) s g
  | Any => one_char (fun x => dotall fl || negb (Ascii.eqb x "010"%char)) s g
  | Space => one_char is_space s g
  | Set_ neg items => one_char (set_match fl neg items) s g
  | Seq r1 r2 => flat_map (then_ (ways fl r2)) (ways fl r1 s g)
  | Alt r1 r2 => ways fl r1 s g ++ ways fl r2 s g
  | Rep greedy lo hi r1 => rep (ways fl r1) greedy lo hi (lo + length s) s g
  | Group n r1 =>
      map (fun w => {| consumed := consumed w; rest := rest w;
                       groups := <[n := consumed w]> (groups w) |})
          (ways fl r1 s g)
  end.

(** A match object: [m.start()], [m.group(0)] and the groups. *)
Record match_obj := { m_start : nat; m_text : text; m_groups : gmap nat text }.

Definition group (n : nat) (m : match_obj) : option text := m_groups m !! n.

(** [re.match] at one position, then [re.search] from left to right. *)
Definition match_here (fl : flags) (r : re) (pos : nat) (s : text) : option match_obj :=
  match ways fl r s ∅ with
  | w :: _ => Some {| m_start := pos; m_text := consumed w; m_groups := groups w |}
  | [] => None
  end.

Fixpoint search_from (fl : flags) (r : re) (pos : nat) (s : text) : option match_obj :=
  match match_here fl r pos s with
  | Some m => Some m
  | None =>
      match s with
      | [] => None
      | _ :: s' => search_from fl r (S pos) s'
      end
  end.

Definition search (fl : flags) (r : re) (s : text) : option match_obj :=
  search_from fl r 0 s.

Definition IGNORECASE : flags := {| ignorecase := true; dotall := false |}.
Definition DOTALL : flags := {| ignorecase := false; dotall := true |}.

(** *** Reading a pattern string

    The pattern tables of the source are kept as the strings they are; this is
    the part of [re.compile] they need: literals, [.], escapes, bracketed
    sets with ranges, groups [( )] and [(?: )], alternation and the
    quantifiers [* + ? {m} {m,n}] with their lazy forms.  Anything else is
    refused with [Raise]. *)
Local Open Scope char_scope.
Local Open Scope nat_scope.

Definition is_digit (c : ascii) : bool := (48 <=? code c) && (code c <=? 57).
Definition is_alnum (c : ascii) : bool := is_digit c || is_upper c || is_lower c.

Fixpoint p_nat (s : text) (acc : nat) : nat * text :=
  match s with
  | c :: s' => if is_digit c then p_nat s' (10 * acc + (code c - 48)) else (acc, s)
  | [] => (acc, s)
  end.

(** An escape [\e], inside or outside a set. *)
Definition p_escape (e : ascii) : exc (ascii + unit) :=
  if Ascii.eqb e "s" then Ok (inr tt)
  else if Ascii.eqb e "n" then Ok (inl "010")
  else if Ascii.eqb e "t" then Ok (inl "009")
  else if Ascii.eqb e "r" then Ok (inl "013")
  else if is_alnum e then Raise (lit "bad escape")
  else Ok (inl e).

(** The members of a set, up to the closing bracket. *)
Fixpoint p_set (s : text) (acc : list set_item) : exc (list set_item * text) :=
  match s with
  | [] => Raise (lit "unterminated character set")
  | "]" :: s' =>
      match acc with
      | [] => p_set s' [SChar "]"]
      | _ => Ok (rev acc, s')
      end
  | "\" :: e :: s' =>
      it ← p_escape e;
      p_set s' (match it with inl c => SChar c | inr _ => SSpace end :: acc)
  | "\" :: [] => Raise (lit "bad escape (end of pattern)")
  | c :: "-" :: "]" :: s' => Ok (rev (SChar "-" :: SChar c :: acc), s')
  | _ :: "-" :: "\" :: _ => Raise (lit "unsupported range")
  | c :: "-" :: hi :: s' =>
      if code hi <? code c then Raise (lit "bad character range")
      else p_set s' (SRange c hi :: acc)
  | c :: s' => p_set s' (SChar c :: acc)
  end.

(** The quantifier, if any, that follows an atom. *)
Definition p_lazy (s : text) : bool * text :=
  match s with
  | "?" :: s' => (false, s')
  | _ => (true, s)
  end.

Definition p_quant (a : re) (s : text) : exc (re * text) :=
  match s with
  | "*" :: s1 => let '(g, s2) := p_lazy s1 in Ok (Rep g 0 None a, s2)
  | "+" :: s1 => let '(g, s2) := p_lazy s1 in Ok (Rep g 1 None a, s2)
  | "?" :: s1 => let '(g, s2) := p_lazy s1 in Ok (Rep g 0 (Some 1) a, s2)
  | "{" :: s1 =>
      let '(lo, s2) := p_nat s1 0 in
      match s2 with
      | "}" :: s3 => let '(g, s4) := p_lazy s3 in Ok (Rep g lo (Some lo) a, s4)
      | "," :: "}" :: s3 => let '(g, s4) := p_lazy s3 in Ok (Rep g lo None a, s4)
      | "," :: s3 =>
          let '(hi, s4) := p_nat s3 0 in
          match s4 with
          | "}" :: s5 =>
              if hi <? lo then Raise (lit "min repeat greater than max repeat")
              else let '(g, s6) := p_lazy s5 in Ok (Rep g lo (Some hi) a, s6)
          | _ => Raise (lit "unsupported brace")
          end
      | _ => Raise (lit "unsupported brace")
      end
  | _ => Ok (a, s)
  end.

Definition mk_seq (r1 r2 : re) : re :=
  match r2 with
  | Eps => r1
  | _ => Seq r1 r2
  end.

(** Alternation, sequence and atom; [n] counts the capturing groups opened
    so far, so a group is numbered by its opening parenthesis. *)
Fixpoint p_alt (fuel : nat) (s : text) (n : nat) {struct fuel} : exc (re * text * nat) :=
  match fuel with
  | 0 => Raise (lit "pattern too deep")
  | S f =>
      '(r1, s1, n1) ← p_seq f s n;
      match s1 with
      | "|" :: s2 =>
          '(r2, s3, n2) ← p_alt f s2 n1;
          Ok (Alt r1 r2, s3, n2)
      | _ => Ok (r1, s1, n1)
      end
  end
with p_seq (fuel : nat) (s : text) (n : nat) {struct fuel} : exc (re * text * nat) :=
  match fuel with
  | 0 => Raise (lit "pattern too deep")
  | S f =>
      match s with
      | [] => Ok (Eps, s, n)
      | ")" :: _ => Ok (Eps, s, n)
      | "|" :: _ => Ok (Eps, s, n)
      | _ =>
          '(a, s1, n1) ← p_atom f s n;
          '(q, s2) ← p_quant a s1;
          '(r, s3, n2) ← p_seq f s2 n1;
          Ok (mk_seq q r, s3, n2)
      end
  end
with p_atom (fuel : nat) (s : text) (n : nat) {struct fuel} : exc (re * text * nat) :=
  match fuel with
  | 0 => Raise (lit "pattern too deep")
  | S f =>
      match s with
      | "(" :: "?" :: ":" :: s1 =>
          '(r, s2, n1) ← p_alt f s1 n;
          match s2 with
          | ")" :: s3 => Ok (r, s3, n1)
          | _ => Raise (lit "missing ), unterminated subpattern")
          end
      | "(" :: "?" :: _ => Raise (lit "unsupported extension")
      | "(" :: s1 =>
          '(r, s2, n1) ← p_alt f s1 (S n);
          match s2 with
          | ")" :: s3 => Ok (Group (S n) r, s3, n1)
          | _ => Raise (lit "missing ), unterminated subpattern")
          end
      | "[" :: "^" :: s1 =>
          '(items, s2) ← p_set s1 []; Ok (Set_ true items, s2, n)
      | "[" :: s1 =>
          '(items, s2) ← p_set s1 []; Ok (Set_ false items, s2, n)
      | "\" :: e :: s1 =>
          it ← p_escape e;
          Ok (match it with inl c => Chr c | inr _ => Space end, s1, n)
      | "." :: s1 => Ok (Any, s1, n)
      | "*" :: _ => Raise (lit "nothing to repeat")
      | "+" :: _ => Raise (lit "nothing to repeat")
      | "?" :: _ => Raise (lit "nothing to repeat")
      | "^" :: _ => Raise (lit "unsupported anchor")
      | "$" :: _ => Raise (lit "unsupported anchor")
      | c :: s1 => Ok (Chr c, s1, n)
      | [] => Raise (lit "unexpected end of pattern")
      end
  end.

(** [re.compile(pattern)]. *)
Definition compile (pattern : string) : exc re :=
  let s := lit pattern in
  '(r, s1, _) ← p_alt (3 * length s + 3) s 0;
  match s1 with
  | [] => Ok r
  | _ => Raise (lit "unbalanced parenthesis")
  end.

(** [re.search(pattern, s, flags)]: [Raise] is [re.error]. *)
Definition re_search (pattern : string) (s : text) (fl : flags) : exc (option match_obj) :=
  r ← compile pattern; Ok (search fl r s).

End Re.

(** ** Field parser: [DefendantInfo] and [parse_defendant_info] *)
Module Parser.
Import Re.

(** [class DefendantInfo]: eight attributes, each initialised to the
    sentinel. *)
Record DefendantInfo := {
  name : text;
  case_number : text;
  district : text;
  sentence_months : text;
  months_served : text;
  credits_lost : text;
  original_release_date : text;
  new_release_date : text
}.

Definition UNKNOWN : text := lit "UNKNOWN".

Definition DefendantInfo_init : DefendantInfo :=
  {| name := UNKNOWN; case_number := UNKNOWN; district := UNKNOWN;
     sentence_months := UNKNOWN; months_served := UNKNOWN;
     credits_lost := UNKNOWN; original_release_date := UNKNOWN;
     new_release_date := UNKNOWN |}.

(** [setattr(info, field, value)] and [getattr(info, field)] on the eight
    declared attributes.  (Python would create a new attribute for any other
    name and leave these eight alone; no table has such a key.) *)
Definition setattr (info : DefendantInfo) (field : string) (v : text) : DefendantInfo :=
  if String.eqb field "name" then
    {| name := v; case_number := case_number info; district := district info;
       sentence_months := sentence_months info; months_served := months_served info;
       credits_lost := credits_lost info;
       original_release_date := original_release_date info;
       new_release_date := new_release_date info |}
  else if String.eqb field "case_number" then
    {| name := name info; case_number := v; district := district info;
       sentence_months := sentence_months info; months_served := months_served info;
       credits_lost := credits_lost info;
       original_release_date := original_release_date info;
       new_release_date := new_release_date info |}
  else if String.eqb field "district" then
    {| name := name info; case_number := case_number info; district := v;
       sentence_months := sentence_months info; months_served := months_served info;
       credits_lost := credits_lost info;
       original_release_date := original_release_date info;
       new_release_date := new_release_date info |}
  else if String.eqb field "sentence_months" then
    {| name := name info; case_number := case_number info; district := district info;
       sentence_months := v; months_served := months_served info;
       credits_lost := credits_lost info;
       original_release_date := original_release_date info;
       new_release_date := new_release_date info |}
  else if String.eqb field "months_served" then
    {| name := name info; case_number := case_number info; district := district info;
       sentence_months := sentence_months info; months_served := v;
       credits_lost := credits_lost info;
       original_release_date := original_release_date info;
       new_release_date := new_release_date info |}
  else if String.eqb field "credits_lost" then
    {| name := name info; case_number := case_number info; district := district info;
       sentence_months := sentence_months info; months_served := months_served info;
       credits_lost := v;
       original_release_date := original_release_date info;
       new_release_date := new_release_date info |}
  else if String.eqb field "original_release_date" then
    {| name := name info; case_number := case_number info; district := district info;
       sentence_months := sentence_months info; months_served := months_served info;
       credits_lost := credits_lost info;
       original_release_date := v;
       new_release_date := new_release_date info |}
  else if String.eqb field "new_release_date" then
    {| name := name info; case_number := case_number info; district := district info;
       sentence_months := sentence_months info; months_served := months_served info;
       credits_lost := credits_lost info;
       original_release_date := original_release_date info;
       new_release_date := v |}
  else info.

Definition getattr (info : DefendantInfo) (field : string) : option text :=
  if String.eqb field "name" then Some (name info)
  else if String.eqb field "case_number" then Some (case_number info)
  else if String.eqb field "district" then Some (district info)
  else if String.eqb field "sentence_months" then Some (sentence_months info)
  else if String.eqb field "months_served" then Some (months_served info)
  else if String.eqb field "credits_lost" then Some (credits_lost info)
  else if String.eqb field "original_release_date" then Some (original_release_date info)
  else if String.eqb field "new_release_date" then Some (new_release_date info)
  else None.

Definition field_names : list string :=
  ["name"; "case_number"; "district"; "sentence_months"; "months_served";
   "credits_lost"; "original_release_date"; "new_release_date"]%string.

(** The [patterns] dictionary of [main.py] and [main_o3.py]. *)
Definition patterns_main : list (string * list string) :=
  [ ("name",
      [ "(?:defendant|respondent)[\s:]*([A-Z][a-z]+(?:\s+[A-Z][a-z]+)*)";
        "(?:United States v\.)\s*([A-Z][a-z]+(?:\s+[A-Z][a-z]+)*)";
        "(?:USA v\.)\s*([A-Z][a-z]+(?:\s+[A-Z][a-z]+)*)" ]);
    ("case_number",
      [ "(?:case\s+(?:no|number)[\.\:]?\s*)([0-9]{1,2}:[0-9]{2}[-cr]+[0-9]+)";
        "([0-9]{1,2}:[0-9]{2}[-cr]+[0-9]+)" ]);
    ("district",
      [ "(?:(?:United States )?District Court for the\s+)([^,\n]+)";
        "(?:District of\s+)([A-Z][a-z]+(?:\s+[A-Z][a-z]+)*)" ])
  ]%string.

(** The [patterns] dictionary of [main_backup.py]. *)
Definition patterns_backup : list (string * list string) :=
  [ ("name",
      [ "(?:defendant|respondent)[\s:]*([A-Z][a-z]+(?:\s+[A-Z][a-z]+)*)";
        "(?:United States v\.)\s*([A-Z][a-z]+(?:\s+[A-Z][a-z]+)*)";
        "(?:USA v\.)\s*([A-Z][a-z]+(?:\s+[A-Z][a-z]+)*)" ]);
    ("case_number",
      [ "(?:case\s+(?:no|number)[\.\:]?\s*)([0-9]{1,2}:[0-9]{2}[-cr]+[0-9]+)";
        "([0-9]{1,2}:[0-9]{2}[-cr]+[0-9]+)" ]);
    ("district",
      [ "(?:(?:United States )?District Court for the\s+)([^,\n]+)";
        "(?:District of\s+)([A-Z][a-z]+(?:\s+[A-Z][a-z]+)*)" ]);
    ("sentence_months",
      [ "(?:sentenced to\s+)([0-9]+)\s*months";
        "([0-9]+)\s*months?\s+(?:imprisonment|custody)" ]);
    ("months_served",
      [ "(?:served\s+)([0-9]+)\s*months";
        "([0-9]+)\s*months?\s+served" ]);
    ("credits_lost",
      [ "(?:lost\s+)([0-9]+)\s*(?:days?|months?)\s+(?:of\s+)?(?:good\s+time|credit)";
        "([0-9]+)\s*(?:days?|months?)\s+(?:good\s+time\s+)?lost" ]);
    ("original_release_date",
      [ "(?:original\s+release\s+date[\:\s]*)([0-9]{1,2}\/[0-9]{1,2}\/[0-9]{4})";
        "(?:release\s+date[\:\s]*)([0-9]{1,2}\/[0-9]{1,2}\/[0-9]{4})" ]);
    ("new_release_date",
      [ "(?:new\s+release\s+date[\:\s]*)([0-9]{1,2}\/[0-9]{1,2}\/[0-9]{4})";
        "(?:projected\s+release[\:\s]*)([0-9]{1,2}\/[0-9]{1,2}\/[0-9]{4})" ])
  ]%string.

(** The [patterns] dictionary of [main_enhanced.py]. *)
Definition patterns_enhanced : list (string * list string) :=
  [ ("name",
      [ "(?:defendant|respondent)[\s:]*([A-Z][a-z]+(?:\s+[A-Z][a-z]+)*)";
        "(?:United States v\.)\s*([A-Z][a-z]+(?:\s+[A-Z][a-z]+)*)";
        "(?:USA v\.)\s*([A-Z][a-z]+(?:\s+[A-Z][a-z]+)*)" ]);
    ("case_number",
      [ "(?:case\s+(?:no|number)[\.\:]?\s*)([0-9]{1,2}:[0-9]{2}[-cr]+[0-9]+)";
        "(?:criminal\s+no[\.\:]?\s*)([0-9]{1,2}:[0-9]{2}[-cr]+[0-9]+)";
        "([0-9]{1,2}:[0-9]{2}[-cr]+[0-9]+)" ]);
    ("district",
      [ "(?:(?:United States )?District Court for the\s+)([^,\n]+)";
        "(?:USDC\s+)([A-Z][a-z]+(?:\s+[A-Z][a-z]+)*)";
        "(?:District of\s+)([A-Z][a-z]+(?:\s+[A-Z][a-z]+)*)" ]);
    ("sentence_months",
      [ "(?:sentenced to\s+)([0-9]+)\s*months";
        "(?:term of\s+)([0-9]+)\s*months";
        "([0-9]+)\s*months?\s+(?:imprisonment|custody)" ]);
    ("months_served",
      [ "(?:served\s+)([0-9]+)\s*months";
        "(?:time served[\:\s]*)([0-9]+)\s*months";
        "([0-9]+)\s*months?\s+served" ]);
    ("credits_lost",
      [ "(?:lost\s+)([0-9]+)\s*(?:days?|months?)\s+(?:of\s+)?(?:good\s+time|credit)";
        "(?:credits?\s+lost[\:\s]*)([0-9]+)";
        "([0-9]+)\s*(?:days?|months?)\s+(?:good\s+time\s+)?lost" ]);
    ("original_release_date",
      [ "(?:original\s+release\s+date[\:\s]*)([0-9]{1,2}\/[0-9]{1,2}\/[0-9]{4})";
        "(?:scheduled\s+release[\:\s]*)([0-9]{1,2}\/[0-9]{1,2}\/[0-9]{4})";
        "(?:release\s+date[\:\s]*)([0-9]{1,2}\/[0-9]{1,2}\/[0-9]{4})" ]);
    ("new_release_date",
      [ "(?:new\s+release\s+date[\:\s]*)([0-9]{1,2}\/[0-9]{1,2}\/[0-9]{4})";
        "(?:revised\s+release[\:\s]*)([0-9]{1,2}\/[0-9]{1,2}\/[0-9]{4})";
        "(?:projected\s+release[\:\s]*)([0-9]{1,2}\/[0-9]{1,2}\/[0-9]{4})" ])
  ]%string.

(** The inner loop: the first pattern of the list that [re.search] finds
    decides; [Some v] is the value to store, [None] means no pattern matched.
    [match.group(1)] is [None] for a group that took no part in the match,
    and [None.strip()] raises. *)
Fixpoint first_match (field_patterns : list string) (t : text) : exc (option text) :=
  match field_patterns with
  | [] => Ok None
  | pattern :: field_patterns' =>
      m ← re_search pattern t IGNORECASE;
      match m with
      | Some mo =>
          match group 1 mo with
          | Some g => Ok (Some (strip g))
          | None => Raise (lit "'NoneType' object has no attribute 'strip'")
          end
      | None => first_match field_patterns' t
      end
  end.

(** The outer loop over [patterns.items()]. *)
Fixpoint parse_fields (patterns : list (string * list string)) (t : text)
    (info : DefendantInfo) : exc DefendantInfo :=
  match patterns with
  | [] => Ok info
  | (field, field_patterns) :: patterns' =>
      v ← first_match field_patterns t;
      parse_fields patterns' t
        (match v with
         | Some x => setattr info field x
         | None => info
         end)
  end.

Definition parse_defendant_info_with (patterns : list (string * list string)) (t : text)
    : exc DefendantInfo :=
  parse_fields patterns t DefendantInfo_init.

(** [parse_defendant_info] of [main.py] (and [main_o3.py]), of
    [main_backup.py] and of [main_enhanced.py]. *)
Definition parse_defendant_info (t : text) : exc DefendantInfo :=
  parse_defendant_info_with patterns_main t.
Definition parse_defendant_info_backup (t : text) : exc DefendantInfo :=
  parse_defendant_info_with patterns_backup t.
Definition parse_defendant_info_enhanced (t : text) : exc DefendantInfo :=
  parse_defendant_info_with patterns_enhanced t.

End Parser.

(** ** JSON-like Python values: what [response.json()] returns and what an
    event carries *)
Module Json.

#[warnings="-register-all"]
Inductive json :=
| JNull
| JBool (b : bool)
| JNum (n : Z)
| JStr (s : text)
| JList (l : list json)
| JDict (kv : list (text * json)).

Definition text_eqb (a b : text) : bool := bool_decide (a = b).

(** [d.get(key)] on the items of a dictionary. *)
Fixpoint assoc (key : text) (kv : list (text * json)) : option json :=
  match kv with
  | [] => None
  | (k, v) :: kv' => if text_eqb k key then Some v else assoc key kv'
  end.

(** [type(v).__name__]. *)
Definition type_name (v : json) : text :=
  match v with
  | JNull => lit "NoneType"
  | JBool _ => lit "bool"
  | JNum _ => lit "int"
  | JStr _ => lit "str"
  | JList _ => lit "list"
  | JDict _ => lit "dict"
  end.

Definition no_attribute (v : json) (attr : string) : text :=
  lit "'" ++ type_name v ++ lit "' object has no attribute '" ++ lit attr ++ lit "'".

Definition not_iterable (v : json) : text :=
  lit "'" ++ type_name v ++ lit "' object is not iterable".

(** [v.get(key, default)]: only a dictionary has [get]. *)
Definition py_get (v : json) (key : string) (dflt : json) : exc json :=
  match v with
  | JDict kv => Ok (default dflt (assoc (lit key) kv))
  | _ => Raise (no_attribute v "get")
  end.

(** [for item in v]: the items a [for] loop visits. *)
Definition py_iter (v : json) : exc (list json) :=
  match v with
  | JList l => Ok l
  | JDict kv => Ok (map (fun p => JStr (fst p)) kv)
  | JStr s => Ok (map (fun c => JStr [c]) s)
  | _ => Raise (not_iterable v)
  end.

(** Truthiness: [if v]. *)
Definition truthy (v : json) : bool :=
  match v with
  | JNull => false
  | JBool b => b
  | JNum n => negb (Z.eqb n 0)
  | JStr s => match s with [] => false | _ => true end
  | JList l => match l with [] => false | _ => true end
  | JDict kv => match kv with [] => false | _ => true end
  end.

End Json.

(** ** Document splitter: the three [re.search] calls on [final_content] *)
Module Splitter.
Import Re.

Record documents := { motion : text; memo : text; declaration : text }.

(** [m.group(1).strip() if m else placeholder]. *)
Definition extract (pattern placeholder : string) (final_content : text) : exc text :=
  m ← re_search pattern final_content DOTALL;
  match m with
  | Some mo =>
      match group 1 mo with
      | Some g => Ok (strip g)
      | None => Raise (lit "'NoneType' object has no attribute 'strip'")
      end
  | None => Ok (lit placeholder)
  end.

Definition MOTION_PATTERN : string := "===MOTION START===(.*?)===MOTION END===".
Definition MEMO_PATTERN : string := "===MEMO START===(.*?)===MEMO END===".
Definition DECL_PATTERN : string := "===DECL START===(.*?)===DECL END===".

(** [main.py] and [main_o3.py]. *)
Definition split_documents (final_content : text) : exc documents :=
  mo ← extract MOTION_PATTERN "Motion could not be generated with O3 reasoning" final_content;
  me ← extract MEMO_PATTERN "Memo could not be generated with O3 reasoning" final_content;
  de ← extract DECL_PATTERN "Declaration could not be generated with O3 reasoning" final_content;
  Ok {| motion := mo; memo := me; declaration := de |}.

(** [main_backup.py]. *)
Definition split_documents_backup (final_content : text) : exc documents :=
  mo ← extract MOTION_PATTERN "Motion could not be generated" final_content;
  me ← extract MEMO_PATTERN "Memo could not be generated" final_content;
  de ← extract DECL_PATTERN "Declaration could not be generated" final_content;
  Ok {| motion := mo; memo := me; declaration := de |}.

End Splitter.

(** ** [web_search] *)
Module WebSearch.
Import Json.

(** What one [client.get] does: it raises, or it returns a response whose
    [raise_for_status()] raises or not and whose [json()] raises or returns
    the decoded body. *)
Record request := { url : text; params : list (text * json) }.

Inductive http_outcome :=
| GetRaises (e : text)
| Response (status_error : option text) (body : exc json).

Section WithKeys.
Variables GOOGLE_API_KEY GOOGLE_CX : text.

Definition search_url : text := lit "https://www.googleapis.com/customsearch/v1".

(** One iteration of [for item in data.get("items", [])]: the record built
    from [item]; [url_key] is ["url"] in [ai_utils.py] and ["link"] in
    [main_o3.py]. *)
Definition result_of_item (url_key : string) (item : json) : exc json :=
  t ← py_get item "title" (JStr []);
  l ← py_get item "link" (JStr []);
  s ← py_get item "snippet" (JStr []);
  Ok (JDict [(lit "title", t); (lit url_key, l); (lit "snippet", s)]).

Fixpoint collect (url_key : string) (items : list json) (results : list json)
    : exc (list json) :=
  match items with
  | [] => Ok results
  | item :: items' =>
      r ← result_of_item url_key item;
      collect url_key items' (results ++ [r])
  end.

(** The body of the [try]. *)
Definition try_search (url_key : string) (out : http_outcome) : exc (list json) :=
  match out with
  | GetRaises e => Raise e
  | Response (Some e) _ => Raise e
  | Response None body =>
      data ← body;
      items ← py_get data "items" (JList []);
      l ← py_iter items;
      collect url_key l []
  end.

Definition search_error (url_key : string) (e : text) : json :=
  JDict [(lit "title", JStr (lit "Search Error: " ++ e));
         (lit url_key, JStr []); (lit "snippet", JStr [])].

(** [ai_utils.web_search(query, k)]. *)
Definition web_search (http : request -> http_outcome) (query : text) (k : Z) : list json :=
  let params :=
    [(lit "key", JStr GOOGLE_API_KEY); (lit "cx", JStr GOOGLE_CX);
     (lit "q", JStr query); (lit "num", JNum (Z.min k 10))] in
  match try_search "url" (http {| url := search_url; params := params |}) with
  | Ok results => results
  | Raise e => [search_error "url" e]
  end.

(** [web_search(query, k)] of [main_o3.py]; both arguments come out of the
    decoded tool-call arguments. *)
Definition web_search_o3 (http : request -> http_outcome) (query k : json) : list json :=
  let params :=
    [(lit "key", JStr GOOGLE_API_KEY); (lit "cx", JStr GOOGLE_CX);
     (lit "q", query); (lit "num", k)] in
  match try_search "link" (http {| url := search_url; params := params |}) with
  | Ok results => results
  | Raise e => [search_error "link" e]
  end.

End WithKeys.
End WebSearch.

(** ** Session/event bus *)
Module Bus.
Import Json.

(** An event dictionary: its ["type"] and its ["data"] (in [main.py]) or
    ["payload"] (in [main_o3.py] and [main_backup.py]). *)
Record event := { ev_type : text; ev_data : json }.

(** ["active"] / ["completed"]. *)
Inductive status := Active | Completed.

Record session := { events : list event; sess_status : status }.

(** The writes the orchestrator makes to [active_sessions]:
    - [OpCreate]: [if session_id not in active_sessions:
      active_sessions[session_id] = {"events": [], "status": "active"}];
    - [OpAppend]: [session["events"].append(e)];
    - [OpComplete]: [session["status"] = "completed"]. *)
Inductive store_op :=
| OpCreate (sid : string)
| OpAppend (sid : string) (e : event)
| OpComplete (sid : string).

Definition new_session : session := {| events := []; sess_status := Active |}.

Definition apply_op (store : gmap string session) (o : store_op) : gmap string session :=
  match o with
  | OpCreate sid =>
      match store !! sid with
      | Some _ => store
      | None => <[sid := new_session]> store
      end
  | OpAppend sid e =>
      match store !! sid with
      | Some s => <[sid := {| events := events s ++ [e]; sess_status := sess_status s |}]> store
      | None => store
      end
  | OpComplete sid =>
      match store !! sid with
      | Some s => <[sid := {| events := events s; sess_status := Completed |}]> store
      | None => store
      end
  end.

Definition log_of (store : gmap string session) (sid : string) : list event :=
  match store !! sid with
  | Some s => events s
  | None => []
  end.

Definition completed (store : gmap string session) (sid : string) : bool :=
  match store !! sid with
  | Some {| sess_status := Completed |} => true
  | _ => false
  end.

(** A frame on the wire: its [event:] name and what [json.dumps] is given;
    [str(x)] is kept as [Str x]. *)
Inductive body :=
| Content (x : json)          (* {'content': str(x)} *)
| Data (x : json)             (* {'data': x} *)
| Message (x : json)          (* {'message': str(x)} *)
| Payload (x : json).         (* x *)

Record frame := { fr_event : text; fr_body : body }.

(** What the relay of [main.py] does with one event: nothing, a frame, or a
    frame followed by [break]. *)
Inductive verdict :=
| Skip
| Yield (f : frame)
| YieldBreak (f : frame).

Definition data_empty (d : json) : bool :=
  match d with
  | JNull => true
  | JStr [] => true
  | _ => false
  end.

Definition relay_event (e : event) : verdict :=
  if data_empty (ev_data e) then Skip
  else if text_eqb (ev_type e) (lit "thinking") then
    Yield {| fr_event := lit "thinking"; fr_body := Content (ev_data e) |}
  else if text_eqb (ev_type e) (lit "search") then
    Yield {| fr_event := lit "search"; fr_body := Data (ev_data e) |}
  else if text_eqb (ev_type e) (lit "done") then
    YieldBreak {| fr_event := lit "done"; fr_body := Data (ev_data e) |}
  else if text_eqb (ev_type e) (lit "error") then
    YieldBreak {| fr_event := lit "error"; fr_body := Message (ev_data e) |}
  else Skip.

(** The frame of [main_backup.py] (and [main_o3.py]) for one event. *)
Definition relay_event_backup (e : event) : frame :=
  {| fr_event := ev_type e; fr_body := Payload (ev_data e) |}.

(** Where the generator of [main.py] stands: at the top of [while True],
    inside the [for] loop about to look at index [i] of
    [range(last_event_index, stop)], or finished. *)
Inductive pc :=
| AtPoll
| InFor (i stop : nat)
| Exited.

(** [sent] lists the frames yielded so far with the log position each came
    from. *)
Record relay := { last_event_index : nat; at_ : pc; sent : list (nat * frame) }.

Definition relay_init : relay := {| last_event_index := 0; at_ := AtPoll; sent := [] |}.

(** The end of one pass of [while True] in [main.py], after the [for] loop:
    [last_event_index = len(events)], then the status check. *)
Definition end_of_poll (store : gmap string session) (sid : string) (r : relay) : relay :=
  {| last_event_index := length (log_of store sid);
     at_ := if completed store sid then Exited else AtPoll;
     sent := sent r |}.

(** One resumption of the generator of [main.py], up to its next [yield] or
    [await]. *)
Definition relay_step (store : gmap string session) (sid : string)
    (disconnected : bool) (r : relay) : relay :=
  match at_ r with
  | Exited => r
  | AtPoll =>
      if disconnected then
        {| last_event_index := last_event_index r; at_ := Exited; sent := sent r |}
      else
        match store !! sid with
        | Some s =>
            {| last_event_index := last_event_index r;
               at_ := InFor (last_event_index r) (length (events s));
               sent := sent r |}
        | None => r
        end
  | InFor i stop =>
      if stop <=? i then end_of_poll store sid r
      else
        match log_of store sid !! i with
        | None => (* IndexError *)
            {| last_event_index := last_event_index r; at_ := Exited; sent := sent r |}
        | Some e =>
            match relay_event e with
            | Skip =>
                {| last_event_index := last_event_index r; at_ := InFor (S i) stop;
                   sent := sent r |}
            | Yield f =>
                {| last_event_index := last_event_index r; at_ := InFor (S i) stop;
                   sent := sent r ++ [(i, f)] |}
            | YieldBreak f =>
                {| last_event_index := last_event_index r; at_ := InFor stop stop;
                   sent := sent r ++ [(i, f)] |}
            end
        end
  end.

(** One resumption of the generator of [main_backup.py]: the inner [while]
    yields the event at [last_event_index] and moves on; when there is none
    the status check decides between [break] and [sleep]. *)
Definition relay_step_backup (store : gmap string session) (sid : string) (r : relay) : relay :=
  match at_ r with
  | AtPoll =>
      match store !! sid with
      | Some s =>
          match events s !! last_event_index r with
          | Some e =>
              {| last_event_index := S (last_event_index r); at_ := AtPoll;
                 sent := sent r ++ [(last_event_index r, relay_event_backup e)] |}
          | None =>
              {| last_event_index := last_event_index r;
                 at_ := if completed store sid then Exited else AtPoll;
                 sent := sent r |}
          end
      | None => r
      end
  | _ => r
  end.

(** An interleaving: the orchestrator writes, or the relay is resumed. *)
Inductive action :=
| Op (o : store_op)
| Tick (disconnected : bool).

Record world := { store : gmap string session; gen : relay }.

Definition world_init : world := {| store := ∅; gen := relay_init |}.

Definition step (sid : string) (w : world) (a : action) : world :=
  match a with
  | Op o => {| store := apply_op (store w) o; gen := gen w |}
  | Tick d => {| store := store w; gen := relay_step (store w) sid d (gen w) |}
  end.

Definition step_backup (sid : string) (w : world) (a : action) : world :=
  match a with
  | Op o => {| store := apply_op (store w) o; gen := gen w |}
  | Tick _ => {| store := store w; gen := relay_step_backup (store w) sid (gen w) |}
  end.

Definition run (sid : string) (sch : list action) (w : world) : world :=
  foldl (step sid) w sch.

Definition run_backup (sid : string) (sch : list action) (w : world) : world :=
  foldl (step_backup sid) w sch.

(** Draining: the relay is resumed [n] times while nothing else happens. *)
Definition drain (sid : string) (n : nat) (w : world) : world :=
  run sid (replicate n (Tick false)) w.

Definition drain_backup (sid : string) (n : nat) (w : world) : world :=
  run_backup sid (replicate n (Tick false)) w.

Definition frames (w : world) : list frame := map snd (sent (gen w)).

End Bus.

(** ** Generation orchestrator

    A run of the orchestrator is a computation that leaves a trace of the
    things it does to the outside: writes to the session store, requests to the
    model API, searches, and files rendered. *)
Module Orchestrator.
Import Json Bus Parser Splitter WebSearch.

Inductive effect :=
| Store (o : store_op)
| Request (model : text)
| Search (query k : json)
| RenderPdf (sid : string) (filename : text) (content : text)
| Zip (sid : string) (archive : text) (members : list text).

(** How a computation ends: with a value, with an exception, or not within
    the iterations allowed. *)
Inductive res (A : Type) :=
| Val (a : A)
| Exn (e : text)
| OutOfFuel.
Arguments Val {A} a.
Arguments Exn {A} e.
Arguments OutOfFuel {A}.

(** The state threaded through a run: the trace so far and how many times
    each outside service has been called. *)
Record st := { trace : list effect; awaits : nat; calls : nat; searches : nat }.

Definition st_init : st := {| trace := []; awaits := 0; calls := 0; searches := 0 |}.

Definition io (A : Type) : Type := st -> res A * st.

#[export] Instance io_ret : MRet io := fun A a s => (Val a, s).
#[export] Instance io_bind : MBind io := fun A B k m s =>
  match m s with
  | (Val a, s') => k a s'
  | (Exn e, s') => (Exn e, s')
  | (OutOfFuel, s') => (OutOfFuel, s')
  end.

Definition raise {A : Type} (e : text) : io A := fun s => (Exn e, s).
Definition out_of_fuel {A : Type} : io A := fun s => (OutOfFuel, s).

Definition emit (x : effect) : io unit := fun s =>
  (Val tt, {| trace := trace s ++ [x]; awaits := awaits s; calls := calls s;
              searches := searches s |}).

(** [try: m except Exception as e: h(e)]. *)
Definition try_except {A : Type} (m : io A) (h : text -> io A) : io A := fun s =>
  match m s with
  | (Exn e, s') => h e s'
  | r => r
  end.

Definition lift {A : Type} (x : exc A) : io A :=
  match x with
  | Ok a => mret a
  | Raise e => raise e
  end.

Definition append (sid : string) (e : event) : io unit := emit (Store (OpAppend sid e)).

Definition NL : text := ["010"%char].

(** [create_pdf_document] for the three documents, [create_zip_package], the
    [done] event and the status: the part after the [try] that [main.py],
    [main_o3.py] and [main_backup.py] share up to the names. *)
Definition pdf_names : list text :=
  [lit "Motion.pdf"; lit "Memo.pdf"; lit "Declaration.pdf"].

Definition render_all (sid : string) (docs : documents) : io unit :=
  emit (RenderPdf sid (lit "Motion.pdf") (motion docs));;
  emit (RenderPdf sid (lit "Memo.pdf") (memo docs));;
  emit (RenderPdf sid (lit "Declaration.pdf") (declaration docs)).

Definition done_event (prefix : string) (archive : string) (sid : string)
    (with_session_id : bool) : event :=
  {| ev_type := lit "done";
     ev_data := JDict
       ([(lit "motion_url", JStr (lit prefix ++ lit sid ++ lit "/Motion.pdf"));
         (lit "memo_url", JStr (lit prefix ++ lit sid ++ lit "/Memo.pdf"));
         (lit "decl_url", JStr (lit prefix ++ lit sid ++ lit "/Declaration.pdf"));
         (lit "zip_url", JStr (lit prefix ++ lit sid ++ lit "/" ++ lit archive))]
        ++ (if with_session_id then [(lit "session_id", JStr (lit sid))] else [])) |}.

(** *** [generate_with_o3_research] of [main.py] *)
Section Main.
Variables GOOGLE_API_KEY GOOGLE_CX : text.
(** The answer to the [n]-th search request. *)
Variable http : nat -> request -> http_outcome.
(** The exception, if any, with which the [n]-th [await] of the [try] block
    ends. *)
Variable fault : nat -> option text.
(** The f-string assigned to [final_content] at the end of the [try] block. *)
Variable generated_content : DefendantInfo -> text.

Definition await_ : io unit := fun s =>
  let s' := {| trace := trace s; awaits := S (awaits s); calls := calls s;
               searches := searches s |} in
  match fault (awaits s) with
  | Some e => (Exn e, s')
  | None => (Val tt, s')
  end.

(** [await web_search(query, 3)] with [ai_utils.web_search]. *)
Definition do_search (query : text) : io (list json) := fun s =>
  (Val (web_search GOOGLE_API_KEY GOOGLE_CX (http (searches s)) query 3),
   {| trace := trace s ++ [Search (JStr query) (JNum 3)]; awaits := awaits s;
      calls := calls s; searches := S (searches s) |}).

(** [str.split()]: the maximal runs of characters that are not blank. *)
Fixpoint split_ws (s : text) (cur : text) : list text :=
  match s with
  | [] => match cur with [] => [] | _ => [cur] end
  | c :: s' =>
      if is_space c then
        match cur with
        | [] => split_ws s' []
        | _ => cur :: split_ws s' []
        end
      else split_ws s' (cur ++ [c])
  end.

Definition thinking (data : text) : event :=
  {| ev_type := lit "thinking"; ev_data := JStr data |}.

Definition thinking_text (info : DefendantInfo) : text :=
  lit "Analyzing case for " ++ name info ++ lit "..." ++ NL ++ NL
  ++ lit "Considering factors:" ++ NL ++ lit "- Case: " ++ case_number info ++ NL
  ++ lit "- District: " ++ district info ++ NL ++ NL
  ++ lit "Researching relevant precedents...".

Fixpoint stream_thinking (sid : string) (chunks : list text) : io unit :=
  match chunks with
  | [] => mret tt
  | chunk :: chunks' =>
      append sid (thinking (chunk ++ lit " "));;
      await_;;
      stream_thinking sid chunks'
  end.

Definition search_queries (info : DefendantInfo) : list text :=
  [ lit "First Step Act compassionate release " ++ district info;
    lit "FSA motion medical condition precedents";
    lit "compassionate release success factors 2024" ].

Fixpoint research (sid : string) (queries : list text) (search_results_all : list json)
    : io (list json) :=
  match queries with
  | [] => mret search_results_all
  | query :: queries' =>
      append sid (thinking (NL ++ NL ++ lit "Searching: " ++ query ++ lit "..."));;
      await_;;
      results ← do_search query;
      append sid {| ev_type := lit "search";
                    ev_data := JDict [(lit "query", JStr query);
                                      (lit "results", JList results)] |};;
      await_;;
      research sid queries' (search_results_all ++ results)
  end.

Definition try_body (info : DefendantInfo) (sid : string) : io text :=
  stream_thinking sid (split_ws (thinking_text info) []);;
  _ ← research sid (search_queries info) [];
  append sid (thinking (NL ++ NL ++ lit
    "Generating professional legal documents with case citations and precedent analysis..."));;
  mret (generated_content info).

Definition fallback_content (info : DefendantInfo) : text :=
  lit "===MOTION START===" ++ NL
  ++ lit "Motion for " ++ name info ++ lit " in case " ++ case_number info ++ NL
  ++ lit "===MOTION END===" ++ NL ++ NL
  ++ lit "===MEMO START===" ++ NL
  ++ lit "Memorandum for compassionate release" ++ NL
  ++ lit "===MEMO END===" ++ NL ++ NL
  ++ lit "===DECL START===" ++ NL
  ++ lit "Declaration from " ++ name info ++ NL
  ++ lit "===DECL END===".

Definition except_handler (info : DefendantInfo) (sid : string) (e : text) : io text :=
  append sid {| ev_type := lit "error";
                ev_data := JStr (lit "Generation error: " ++ e) |};;
  mret (fallback_content info).

Definition generate_with_o3_research (info : DefendantInfo) (sid : string) : io unit :=
  emit (Store (OpCreate sid));;
  final_content ← try_except (try_body info sid) (except_handler info sid);
  docs ← lift (split_documents final_content);
  render_all sid docs;;
  emit (Zip sid (lit "motion_packet.zip") pdf_names);;
  append sid (done_event "/api/download/" "motion_packet.zip" sid true);;
  emit (Store (OpComplete sid)).

End Main.

(** *** The model API as the tool-calling loops see it *)

(** [json.loads(tool_call.function.arguments)] is kept as its outcome. *)
Record tool_function := { fn_name : text; fn_arguments : exc json }.

(** The attribute [function] of a tool call: the object has none
    ([hasattr] is false), its value is [None] (the attribute is optional in
    the objects of the client library), or it is a function. *)
Inductive function_attr :=
| NoFunction
| FunctionNone
| Function (f : tool_function).

Record tool_call := { tc_id : text; tc_function : function_attr }.

(** [chunk.choices[0]]: [delta.content] ([None] and the empty string are both the
    empty text), [delta.tool_calls] ([None] is the empty list) and whether
    [finish_reason] is set. *)
Record choice := {
  delta_content : text;
  delta_tool_calls : list tool_call;
  finish_reason : bool
}.

(** A streaming response: its chunks, each with its first choice if it has
    one, and the exception with which the iteration ends, if any. *)
Record stream := { chunks : list (option choice); breaks : option text }.

Inductive create_outcome :=
| Rejected (e : text)
| Accepted (r : stream).

(** A conversation turn: its role and its content ([JNull] when the key is
    absent; a tool turn keeps the value that [json.dumps] is given). *)
Record message := { role : text; msg_content : json }.

Inductive variant := O3 | Backup.

(** [function_args["query"]]. *)
Definition py_subscript (v : json) (key : string) : exc json :=
  match v with
  | JDict kv =>
      match assoc (lit key) kv with
      | Some x => Ok x
      | None => Raise (lit "'" ++ lit key ++ lit "'")
      end
  | JList _ => Raise (lit "list indices must be integers or slices, not str")
  | JStr _ => Raise (lit "string indices must be integers")
  | _ => Raise (lit "'" ++ type_name v ++ lit "' object is not subscriptable")
  end.

Section Loop.
Variables GOOGLE_API_KEY GOOGLE_CX : text.
(** The outcome of the [n]-th call of [chat.completions.create], made with
    the given model identifier.  (In [main_backup.py] the name
    [openai_client] is not bound, so there every call ends in a
    [NameError].) *)
Variable completion : nat -> text -> create_outcome.
Variable http : nat -> request -> http_outcome.
(** The system prompt, an f-string over the record. *)
Variable system_prompt : variant -> DefendantInfo -> text.

Definition create (model : string) : io stream := fun s =>
  let s' := {| trace := trace s ++ [Request (lit model)]; awaits := awaits s;
               calls := S (calls s); searches := searches s |} in
  match completion (calls s) (lit model) with
  | Rejected e => (Exn e, s')
  | Accepted r => (Val r, s')
  end.

(** The request of one pass of the loop: [main_o3.py] asks for ["o3"];
    [main_backup.py] asks for ["o3"] and, in the handler of the inner [try],
    for ["gpt-4o"]. *)
Definition request_stream (v : variant) : io stream :=
  match v with
  | O3 => create "o3"
  | Backup => try_except (create "o3") (fun _ => create "gpt-4o")
  end.

Definition thinking_payload (c : text) : event :=
  {| ev_type := lit "thinking"; ev_data := JDict [(lit "content", JStr c)] |}.

(** [for chunk in response]. [main_o3.py] skips a chunk without choices;
    in [main_backup.py] [chunk.choices[0]] raises on it. *)
Fixpoint consume (v : variant) (sid : string) (cs : list (option choice))
    (brk : option text) (full_content : text) (tool_calls : list tool_call)
    : io (text * list tool_call) :=
  match cs with
  | [] =>
      match brk with
      | Some e => raise e
      | None => mret (full_content, tool_calls)
      end
  | None :: cs' =>
      match v with
      | O3 => consume v sid cs' brk full_content tool_calls
      | Backup => raise (lit "list index out of range")
      end
  | Some c :: cs' =>
      match delta_content c with
      | [] => mret tt
      | _ => append sid (thinking_payload (delta_content c))
      end;;
      let full_content := full_content ++ delta_content c in
      let tool_calls := tool_calls ++ delta_tool_calls c in
      if finish_reason c then mret (full_content, tool_calls)
      else consume v sid cs' brk full_content tool_calls
  end.

(** [await web_search(query, k)]: the function of [main_o3.py]; the one
    defined in [main_backup.py] reads the unbound name [GOOGLE_API_KEY]. *)
Definition do_search_loop (v : variant) (query k : json) : io (list json) :=
  match v with
  | O3 => fun s =>
      (Val (web_search_o3 GOOGLE_API_KEY GOOGLE_CX (http (searches s)) query k),
       {| trace := trace s ++ [Search query k]; awaits := awaits s;
          calls := calls s; searches := S (searches s) |})
  | Backup => raise (lit "name 'GOOGLE_API_KEY' is not defined")
  end.

(** [tool_call.function.name == "web_search"], behind [hasattr] in
    [main_o3.py]: [hasattr] is true of an attribute whose value is [None],
    and [None.name] raises. *)
Definition is_web_search (v : variant) (tc : tool_call) : io (option tool_function) :=
  match tc_function tc with
  | Function f => mret (if text_eqb (fn_name f) (lit "web_search") then Some f else None)
  | FunctionNone => raise (lit "'NoneType' object has no attribute 'name'")
  | NoFunction =>
      match v with
      | O3 => mret None
      | Backup => raise (lit "object has no attribute 'function'")
      end
  end.

(** [for tool_call in tool_calls]. *)
Fixpoint handle_tool_calls (v : variant) (sid : string) (tcs : list tool_call)
    (messages : list message) : io (list message) :=
  match tcs with
  | [] => mret messages
  | tc :: tcs' =>
      f ← is_web_search v tc;
      match f with
      | None => handle_tool_calls v sid tcs' messages
      | Some fn =>
          function_args ← lift (fn_arguments fn);
          query ← lift (py_subscript function_args "query");
          k ← lift (py_get function_args "k" (JNum 5));
          search_results ← do_search_loop v query k;
          append sid {| ev_type := lit "search";
                        ev_data := JDict [(lit "query", query);
                                          (lit "results", JList search_results)] |};;
          handle_tool_calls v sid tcs'
            (messages ++ [ {| role := lit "tool"; msg_content := JList search_results |} ])
      end
  end.

Definition assistant_msg (full_content : text) : message :=
  {| role := lit "assistant";
     msg_content := match full_content with [] => JNull | _ => JStr full_content end |}.

Definition has_final_documents (full_content : text) : bool :=
  match full_content with
  | [] => false
  | _ => contains (lit "===MOTION START===") full_content
         && contains (lit "===DECL END===") full_content
  end.

(** [while True]; each pass uses one unit of [fuel]. *)
Fixpoint loop (v : variant) (fuel : nat) (sid : string) (messages : list message)
    : io (list message) :=
  match fuel with
  | 0 => out_of_fuel
  | S fuel' =>
      response ← request_stream v;
      '(full_content, tool_calls) ← consume v sid (chunks response) (breaks response) [] [];
      let messages := messages ++ [assistant_msg full_content] in
      match tool_calls with
      | _ :: _ =>
          messages ← handle_tool_calls v sid tool_calls messages;
          loop v fuel' sid messages
      | [] =>
          if has_final_documents full_content then mret messages
          else if 25 <? length messages then mret messages
          else loop v fuel' sid messages
      end
  end.

Definition user_prompt (v : variant) (info : DefendantInfo) : text :=
  match v with
  | O3 =>
      lit "Please research and generate a comprehensive FSA motion packet for "
      ++ name info ++ lit "."
  | Backup =>
      lit "Conduct comprehensive legal research and draft a First Step Act motion packet for "
      ++ name info
      ++ lit ". Begin with systematic research of relevant case law, precedents, and district trends."
  end.

Definition initial_messages (v : variant) (info : DefendantInfo) : list message :=
  [ {| role := lit "system"; msg_content := JStr (system_prompt v info) |};
    {| role := lit "user"; msg_content := JStr (user_prompt v info) |} ].

(** [for msg in reversed(messages)]: the content of the last assistant turn
    that has one. *)
Fixpoint last_assistant_content (reversed_messages : list message) : text :=
  match reversed_messages with
  | [] => []
  | msg :: rest =>
      if text_eqb (role msg) (lit "assistant") && truthy (msg_content msg) then
        match msg_content msg with
        | JStr c => c
        | _ => []
        end
      else last_assistant_content rest
  end.

Definition error_event (e : text) : event :=
  {| ev_type := lit "error";
     ev_data := JStr (lit "Error during O3 reasoning and generation: " ++ e) |}.

(** The [try] with its handler: [Some messages] when the loop ends by
    [break], [None] when the handler has run (it ends in [return]). *)
Definition guarded_loop (v : variant) (fuel : nat) (info : DefendantInfo) (sid : string)
    : io (option (list message)) :=
  try_except
    (messages ← loop v fuel sid (initial_messages v info); mret (Some messages))
    (fun e => append sid (error_event e);; mret None).

(** [generate_with_o3_research] of [main_o3.py]. *)
Definition generate_with_o3_research_o3 (fuel : nat) (info : DefendantInfo) (sid : string)
    : io unit :=
  emit (Store (OpCreate sid));;
  r ← guarded_loop O3 fuel info sid;
  match r with
  | None => mret tt
  | Some messages =>
      docs ← lift (split_documents (last_assistant_content (rev messages)));
      render_all sid docs;;
      emit (Zip sid (lit "motion_packet.zip") pdf_names);;
      append sid (done_event "/download/" "motion_packet.zip" sid false);;
      emit (Store (OpComplete sid))
  end.

(** [generate_with_o3_research] of [main_backup.py]. *)
Definition generate_with_o3_research_backup (fuel : nat) (info : DefendantInfo) (sid : string)
    : io unit :=
  emit (Store (OpCreate sid));;
  r ← guarded_loop Backup fuel info sid;
  match r with
  | None => mret tt
  | Some messages =>
      docs ← lift (split_documents_backup (last_assistant_content (rev messages)));
      render_all sid docs;;
      emit (Zip sid (lit "packet.zip") pdf_names);;
      append sid (done_event "/download/" "packet.zip" sid false);;
      emit (Store (OpComplete sid))
  end.

(** *** [ai_utils.stream_o3_completion]

    [session_events] is awaited on with [put] and written to with [append]:
    a queue has the first, a list the second. *)
Inductive sink := AQueue | AList.

Definition sink_put (k : sink) (sid : string) (e : event) : io unit :=
  match k with
  | AQueue => append sid e
  | AList => raise (lit "'list' object has no attribute 'put'")
  end.

Definition sink_append (k : sink) (sid : string) (e : event) : io unit :=
  match k with
  | AList => append sid e
  | AQueue => raise (lit "'Queue' object has no attribute 'append'")
  end.

Inductive completion_result :=
| ErrorReply (content : text)
| Streamed (full_content : text) (tool_calls : list tool_call).

Fixpoint consume_utils (k : sink) (sid : string) (cs : list (option choice))
    (brk : option text) (full_content : text) (tool_calls : list tool_call)
    : io completion_result :=
  match cs with
  | [] =>
      match brk with
      | Some e => raise e
      | None => mret (Streamed full_content tool_calls)
      end
  | None :: cs' => consume_utils k sid cs' brk full_content tool_calls
  | Some c :: cs' =>
      match delta_content c with
      | [] => mret tt
      | _ => sink_append k sid {| ev_type := lit "thinking"; ev_data := JStr (delta_content c) |}
      end;;
      let full_content := full_content ++ delta_content c in
      let tool_calls := tool_calls ++ delta_tool_calls c in
      if finish_reason c then mret (Streamed full_content tool_calls)
      else consume_utils k sid cs' brk full_content tool_calls
  end.

Definition stream_o3_completion (client_configured : bool) (k : sink) (sid : string)
    : io completion_result :=
  if negb client_configured then
    sink_put k sid
      {| ev_type := lit "error";
         ev_data := JStr (lit
           "OpenAI API key not configured. Please provide your OpenAI API key to enable AI document generation.") |};;
    mret (ErrorReply (lit "Error: OpenAI API key required for document generation."))
  else
    r ← try_except
          (response ← create "o3"; mret (inl response))
          (fun _ =>
             try_except
               (response ← create "gpt-4o"; mret (inl response))
               (fun fallback_e =>
                  sink_put k sid
                    {| ev_type := lit "error";
                       ev_data := JStr (lit "OpenAI API error: " ++ fallback_e) |};;
                  mret (inr (ErrorReply
                    (lit "Error: Unable to connect to OpenAI API - " ++ fallback_e)))));
    match r with
    | inr reply => mret reply
    | inl response => consume_utils k sid (chunks response) (breaks response) [] []
    end.

End Loop.

End Orchestrator.

(** ** The event relay of [main_o3.py] *)
Module RelayO3.
Import Json Bus.

(** One resumption of [event_generator] of [main_o3.py], up to its next
    [yield] or [await]: the [for] loop runs over
    [range(last_event_index, len(events))], whose bounds are fixed when the
    loop starts, and yields every event; after the loop
    [last_event_index = len(events)] reads the length again, and the status
    check decides between [break] and [sleep]. *)
Definition relay_step_o3 (store : gmap string session) (sid : string) (r : relay) : relay :=
  match at_ r with
  | Exited => r
  | AtPoll =>
      match store !! sid with
      | Some s =>
          {| last_event_index := last_event_index r;
             at_ := InFor (last_event_index r) (length (events s));
             sent := sent r |}
      | None => r
      end
  | InFor i stop =>
      if stop <=? i then end_of_poll store sid r
      else
        match log_of store sid !! i with
        | None => (* IndexError *)
            {| last_event_index := last_event_index r; at_ := Exited; sent := sent r |}
        | Some e =>
            {| last_event_index := last_event_index r; at_ := InFor (S i) stop;
               sent := sent r ++ [(i, relay_event_backup e)] |}
        end
  end.

Definition step_o3 (sid : string) (w : world) (a : action) : world :=
  match a with
  | Op o => {| store := apply_op (store w) o; gen := gen w |}
  | Tick _ => {| store := store w; gen := relay_step_o3 (store w) sid (gen w) |}
  end.

Definition run_o3 (sid : string) (sch : list action) (w : world) : world :=
  foldl (step_o3 sid) w sch.

Definition drain_o3 (sid : string) (n : nat) (w : world) : world :=
  run_o3 sid (replicate n (Tick false)) w.

End RelayO3.

(** ** [create_pdf_document] of [main.py] and [main_o3.py] *)
Module Pdf.

(** [content.split('\n\n')]: [cur] is the piece being read. *)
Fixpoint split_paragraphs (s : text) (cur : text) : list text :=
  match s with
  | [] => [cur]
  | c :: s' =>
      if Ascii.eqb c "010" then
        match s' with
        | c' :: s'' =>
            if Ascii.eqb c' "010" then cur :: split_paragraphs s'' []
            else split_paragraphs s' (cur ++ [c])
        | [] => split_paragraphs s' (cur ++ [c])
        end
      else split_paragraphs s' (cur ++ [c])
  end.

(** What [story] holds: [Paragraph(text, styles['Normal'])] and
    [Spacer(1, 12)]. *)
Inductive flowable :=
| Paragraph (content : text) (style : string)
| Spacer (width height : nat).

(** The body of [for para in paragraphs]. *)
Definition flowables_of (para : text) : list flowable :=
  match strip para with
  | [] => []
  | _ => [Paragraph (strip para) "Normal"; Spacer 1 12]
  end.

(** The [story] that [create_pdf_document] gives to [doc.build]. *)
Definition story (content : text) : list flowable :=
  flat_map flowables_of (split_paragraphs content []).

End Pdf.

(** ** Research progress and relevance scores of [main_enhanced.py] *)
Module Enhanced.
Import Json Parser.

(** [str.lower()] on one character: the capital letters of ASCII and of
    Latin-1 (0xC0-0xDE without the multiplication sign). *)
Definition lower_char (c : ascii) : ascii :=
  let n := code c in
  if ((65 <=? n) && (n <=? 90))
     || ((192 <=? n) && (n <=? 222) && negb (n =? 215))
  then ascii_of_nat (n + 32) else c.

Definition str_lower (s : text) : text := map lower_char s.

(** [str(n)] for a length. *)
Definition str_of_nat (n : nat) : text := lit (NilEmpty.string_of_uint (Nat.to_uint n)).

(** *** [ResearchProgress] *)

(** One entry of [self.steps]; [result] is [None] while the key is absent. *)
Record step_entry := {
  step : text;
  timestamp : text;
  status : text;
  result : option text
}.

Record ResearchProgress := {
  steps : list step_entry;
  current_step : text;
  total_steps : nat;
  completed_steps : nat
}.

Definition ResearchProgress_init : ResearchProgress :=
  {| steps := []; current_step := []; total_steps := 0; completed_steps := 0 |}.

Section Clock.
(** [datetime.now().isoformat()] at the [n]-th call of [add_step]. *)
Variable now : nat -> text.

Definition add_step (name : text) (p : ResearchProgress) : ResearchProgress :=
  {| steps := steps p ++ [ {| step := name; timestamp := now (length (steps p));
                              status := lit "in_progress"; result := None |} ];
     current_step := name;
     total_steps := total_steps p + 1;
     completed_steps := completed_steps p |}.

(** [for s in self.steps: if s["step"] == step: ...; break]. *)
Fixpoint mark_completed (name res : text) (l : list step_entry) : list step_entry :=
  match l with
  | [] => []
  | s :: l' =>
      if text_eqb (step s) name then
        {| step := step s; timestamp := timestamp s; status := lit "completed";
           result := match res with [] => result s | _ => Some res end |} :: l'
      else s :: mark_completed name res l'
  end.

Definition complete_step (name res : text) (p : ResearchProgress) : ResearchProgress :=
  {| steps := mark_completed name res (steps p);
     current_step := current_step p;
     total_steps := total_steps p;
     completed_steps := completed_steps p + 1 |}.

(** *** [perform_legal_research], as far as its progress goes *)

(** [research_district_trends] and [gather_legal_authorities] return
    constants; only the number of authorities enters the progress. *)
Definition legal_authorities_count : nat := 4.

Definition search_queries (info : DefendantInfo) (year : text) : list text :=
  [ lit "First Step Act compassionate release " ++ district info ++ lit " " ++ year;
    lit "18 USC 3582(c)(1)(A) motion granted " ++ district info;
    lit "compassionate release " ++ district info ++ lit " court cases";
    lit "FSA Amendment 814 successful motions";
    lit "United States v. " ++ district info ++ lit " compassionate release" ].

(** The list that [search_legal_sources] returns for the [n]-th query. *)
Variable search_legal_sources : nat -> text -> list json.
(** The list that [analyze_case_relevance_with_o3] returns. *)
Variable analyze_case_relevance_with_o3 : list json -> DefendantInfo -> list json.

(** The loop over the queries: the progress, what has been broadcast, and
    the results so far. *)
Fixpoint search_all (n : nat) (queries : list text)
    (acc : ResearchProgress * list ResearchProgress * list json)
    : ResearchProgress * list ResearchProgress * list json :=
  match queries with
  | [] => acc
  | query :: queries' =>
      let '(progress, sent, case_law_results) := acc in
      let progress := add_step (lit "Searching: " ++ query) progress in
      let sent := sent ++ [progress] in
      let search_results := search_legal_sources n query in
      let case_law_results := case_law_results ++ search_results in
      let progress :=
        complete_step (lit "Searching: " ++ query)
          (lit "Found " ++ str_of_nat (length search_results) ++ lit " results") progress in
      let sent := sent ++ [progress] in
      search_all (S n) queries' (progress, sent, case_law_results)
  end.

(** The final progress, the snapshots given to [broadcast_progress], and the
    relevant cases. *)
Definition perform_legal_research (info : DefendantInfo) (year : text)
    : ResearchProgress * list ResearchProgress * list json :=
  let progress := ResearchProgress_init in
  let progress := add_step (lit "Searching for recent First Step Act cases...") progress in
  let sent := [progress] in
  let '(progress, sent, case_law_results) :=
    search_all 0 (search_queries info year) (progress, sent, []) in
  let progress :=
    add_step (lit "Analyzing case relevance with O3 reasoning model...") progress in
  let sent := sent ++ [progress] in
  let relevant_cases := analyze_case_relevance_with_o3 case_law_results info in
  let progress :=
    complete_step (lit "Analyzing case relevance with O3 reasoning model...")
      (lit "Analyzed " ++ str_of_nat (length relevant_cases) ++ lit " relevant cases")
      progress in
  let sent := sent ++ [progress] in
  let progress :=
    add_step (lit "Researching " ++ district info ++ lit " court trends...") progress in
  let sent := sent ++ [progress] in
  let progress :=
    complete_step (lit "Researching " ++ district info ++ lit " court trends...")
      (lit "District analysis complete") progress in
  let sent := sent ++ [progress] in
  let progress := add_step (lit "Gathering supporting legal authorities...") progress in
  let sent := sent ++ [progress] in
  let progress :=
    complete_step (lit "Gathering supporting legal authorities...")
      (lit "Found " ++ str_of_nat legal_authorities_count ++ lit " authorities") progress in
  let sent := sent ++ [progress] in
  (progress, sent, relevant_cases).

End Clock.

(** *** [calculate_relevance] *)

(** The float [score / len(query_words)], kept as the two integers that are
    divided. *)
Record quotient := { numerator : nat; denominator : nat }.

Definition calculate_relevance (text_ query : text) : exc quotient :=
  let text_lower := str_lower text_ in
  let query_words := Orchestrator.split_ws (str_lower query) [] in
  let score :=
    foldl (fun score word => if contains word text_lower then score + 1 else score)
          0 query_words in
  match length query_words with
  | 0 => Raise (lit "division by zero")
  | n => Ok {| numerator := score; denominator := n |}
  end.

End Enhanced.

(** ** The upload endpoints *)
Module Upload.
Import Json Parser.

(** What a request ends with: a value, an [HTTPException], or another
    exception that nothing catches. *)
Inductive outcome (A : Type) :=
| Returned (a : A)
| HTTPError (status_code : nat) (detail : text)
| Unhandled (e : text).
Arguments Returned {A} a.
Arguments HTTPError {A} status_code detail.
Arguments Unhandled {A} e.

(** [str.endswith]. *)
Definition ends_with (suffix s : text) : bool := starts_with (rev suffix) (rev s).

(** [extract_text_from_pdf]: [pdf] is what [pdfplumber.open] gives, the
    pages with what [extract_text()] gives on each ([None] when the page has
    no text), or the exception either of them raises. *)
Fixpoint page_texts (pages : list (exc (option text))) (text_ : text) : exc text :=
  match pages with
  | [] => Ok text_
  | Raise e :: _ => Raise e
  | Ok page_text :: pages' =>
      match page_text with
      | Some (c :: t) => page_texts pages' (text_ ++ (c :: t) ++ ["010"%char])
      | _ => page_texts pages' text_
      end
  end.

Definition extract_text_from_pdf (pdf : exc (list (exc (option text)))) : outcome text :=
  match pages ← pdf; page_texts pages [] with
  | Ok text_ => Returned text_
  | Raise e => HTTPError 400 (lit "Error reading PDF: " ++ e)
  end.

(** [generate_motion_packet] of [main.py] and [main_o3.py]: [saved] is the
    outcome of writing the upload to [exhibit_a.pdf]; on success the
    background task is created with the parsed record and the session
    identifier. *)
Definition generate_motion_packet (parse : text -> exc DefendantInfo) (session_id : string)
    (saved : exc unit) (pdf : exc (list (exc (option text))))
    : outcome (DefendantInfo * string) :=
  match saved with
  | Raise e => Unhandled e
  | Ok _ =>
      match extract_text_from_pdf pdf with
      | Returned exhibit_a_text =>
          match parse exhibit_a_text with
          | Ok defendant_info => Returned (defendant_info, session_id)
          | Raise e => Unhandled e
          end
      | HTTPError s d => HTTPError s d
      | Unhandled e => Unhandled e
      end
  end.

(** The validation loop of [main_backup.py] and [main_enhanced.py] over the
    file names of the three uploads ([None] when there is none). *)
Fixpoint validate (filenames : list (option text)) : outcome unit :=
  match filenames with
  | [] => Returned tt
  | filename :: rest =>
      match filename with
      | Some (c :: t) =>
          if ends_with (lit ".pdf") (Enhanced.str_lower (c :: t)) then validate rest
          else HTTPError 400 (lit "File " ++ (c :: t) ++ lit " must be a PDF")
      | _ => HTTPError 400 (lit "File unknown must be a PDF")
      end
  end.

Section Backup.
(** [str(e)] of an [HTTPException] caught by [except Exception as e]. *)
Variable str_http : nat -> text -> text.

(** [generate_motion_packet] of [main_backup.py]: after the validation
    everything is inside [try ... except Exception]; the name
    [generate_with_research] that the last statement of the [try] reads is
    bound nowhere in the file. *)
Definition generate_motion_packet_backup (filenames : list (option text)) (session_id : string)
    (saved : exc unit) (pdf : exc (list (exc (option text))))
    : outcome (list (text * json)) :=
  match validate filenames with
  | HTTPError s d => HTTPError s d
  | Unhandled e => Unhandled e
  | Returned _ =>
      let body : exc (list (text * json)) :=
        match saved with
        | Raise e => Raise e
        | Ok _ =>
            match extract_text_from_pdf pdf with
            | Returned exhibit_a_text =>
                _ ← parse_defendant_info_backup exhibit_a_text;
                Raise (lit "name 'generate_with_research' is not defined")
            | HTTPError s d => Raise (str_http s d)
            | Unhandled e => Raise e
            end
        end in
      match body with
      | Ok r => Returned r
      | Raise e => HTTPError 500 (lit "Error processing files: " ++ e)
      end
  end.

End Backup.

End Upload.

(** * Properties *)

(** ** [web_search] never raises *)
Module WebSearchFacts.
Import Json WebSearch.

(** A result record: a dictionary with exactly the keys [title], [url_key]
    and [snippet], in this order. *)
Definition is_result_record (url_key : string) (j : json) : Prop :=
  ∃ t l s, j = JDict [(lit "title", t); (lit url_key, l); (lit "snippet", s)].

Lemma result_of_item_record url_key item r :
  result_of_item url_key item = Ok r → is_result_record url_key r.
Proof.
  unfold result_of_item. destruct item; simpl; try discriminate.
  intros [= <-]. eexists _, _, _. reflexivity.
Qed.

Lemma collect_records url_key items : ∀ acc results,
  Forall (is_result_record url_key) acc →
  collect url_key items acc = Ok results →
  Forall (is_result_record url_key) results.
Proof.
  induction items as [|item items IH]; intros acc results Hacc; simpl.
  - intros [= <-]. exact Hacc.
  - destruct (result_of_item url_key item) as [r|e] eqn:Hr; simpl; [|discriminate].
    apply IH. apply Forall_app. split; [exact Hacc|].
    constructor; [|constructor]. eapply result_of_item_record, Hr.
Qed.

Lemma try_search_records url_key out results :
  try_search url_key out = Ok results →
  Forall (is_result_record url_key) results.
Proof.
  destruct out as [e|[e|] body]; simpl; try discriminate.
  destruct body as [data|e]; simpl; [|discriminate].
  destruct (py_get data "items" (JList [])) as [items|e]; simpl; [|discriminate].
  destruct (py_iter items) as [l|e]; simpl; [|discriminate].
  apply collect_records. constructor.
Qed.

Lemma search_error_record url_key e : is_result_record url_key (search_error url_key e).
Proof. eexists _, _, _. reflexivity. Qed.

Lemma search_error_title url_key e :
  ∃ title, search_error url_key e
           = JDict [(lit "title", JStr title); (lit url_key, JStr []); (lit "snippet", JStr [])]
           ∧ starts_with (lit "Search Error:") title = true.
Proof. eexists. split; [reflexivity|]. reflexivity. Qed.

(** What the [try] block of [web_search] was given by the HTTP client. *)
Definition outcome_of (key cx : text) (http : request -> http_outcome) (q k : json)
    : http_outcome :=
  http {| url := search_url;
          params := [(lit "key", JStr key); (lit "cx", JStr cx); (lit "q", q); (lit "num", k)] |}.

(** An error record: the title starts with [Search Error:], the address and
    the snippet are empty. *)
Definition is_error_record (url_key : string) (j : json) : Prop :=
  ∃ title, j = JDict [(lit "title", JStr title); (lit url_key, JStr []);
                      (lit "snippet", JStr [])]
           ∧ starts_with (lit "Search Error:") title = true.

(** C10. [web_search] is total: whatever the HTTP client and the decoding of
    the response do, it returns a list of result records (it is a function
    into lists: there is no outcome in which it raises).  When the client
    raises, when [raise_for_status] raises, or when [response.json()] raises,
    with message [e], the list is the single record
    with title ["Search Error: " + e] and empty address and snippet; and in every
    case the list is either the records made from the items of the decoded
    body or one such error record.  The address field is keyed ["url"] in
    [ai_utils.py] and ["link"] in [main_o3.py]. *)
Theorem web_search_total (key cx : text) (http : request -> http_outcome)
    (query : text) (k : Z) (jq jk : json) :
  let r := web_search key cx http query k in
  let r3 := web_search_o3 key cx http jq jk in
  Forall (is_result_record "url") r
  ∧ Forall (is_result_record "link") r3
  ∧ match outcome_of key cx http (JStr query) (JNum (Z.min k 10)) with
    | GetRaises e | Response (Some e) _ | Response None (Raise e) =>
        r = [JDict [(lit "title", JStr (lit "Search Error: " ++ e));
                    (lit "url", JStr []); (lit "snippet", JStr [])]]
    | Response None (Ok _) =>
        (∃ results,
            try_search "url" (outcome_of key cx http (JStr query) (JNum (Z.min k 10)))
              = Ok results ∧ r = results)
        ∨ (∃ j, r = [j] ∧ is_error_record "url" j)
    end
  ∧ match outcome_of key cx http jq jk with
    | GetRaises e | Response (Some e) _ | Response None (Raise e) =>
        r3 = [JDict [(lit "title", JStr (lit "Search Error: " ++ e));
                     (lit "link", JStr []); (lit "snippet", JStr [])]]
    | Response None (Ok _) =>
        (∃ results,
            try_search "link" (outcome_of key cx http jq jk) = Ok results ∧ r3 = results)
        ∨ (∃ j, r3 = [j] ∧ is_error_record "link" j)
    end.
Proof.
  intros r r3. subst r r3. unfold web_search, web_search_o3, outcome_of.
  repeat split.
  - destruct (try_search _ _) as [results|e] eqn:H.
    + eapply try_search_records, H.
    + constructor; [apply search_error_record | constructor].
  - destruct (try_search _ _) as [results|e] eqn:H.
    + eapply try_search_records, H.
    + constructor; [apply search_error_record | constructor].
  - destruct (http _) as [e|[e|] [data|e']]; simpl; try reflexivity.
    destruct (py_get data "items" (JList []) ≫= _) as [results|e] eqn:H.
    + left. eexists. split; reflexivity.
    + right. eexists. split; [reflexivity|]. apply search_error_title.
  - destruct (http _) as [e|[e|] [data|e']]; simpl; try reflexivity.
    destruct (py_get data "items" (JList []) ≫= _) as [results|e] eqn:H.
    + left. eexists. split; reflexivity.
    + right. eexists. split; [reflexivity|]. apply search_error_title.
Qed.

(** A body that is not a dictionary, items that cannot be iterated and an
    item that is not a dictionary all end in the error record. *)
Example web_search_decoding_failures :
  web_search [] [] (fun _ => Response None (Ok (JList []))) (lit "q") 3
    = [search_error "url" (lit "'list' object has no attribute 'get'")]
  ∧ web_search [] [] (fun _ => Response None (Ok (JDict [(lit "items", JNull)]))) (lit "q") 3
    = [search_error "url" (lit "'NoneType' object is not iterable")]
  ∧ web_search [] []
      (fun _ => Response None (Ok (JDict [(lit "items", JList [JDict []; JNum 1])])))
      (lit "q") 3
    = [search_error "url" (lit "'int' object has no attribute 'get'")]
  ∧ web_search [] []
      (fun _ => Response None
         (Ok (JDict [(lit "items", JList [JDict [(lit "title", JStr (lit "T"));
                                                 (lit "link", JStr (lit "L"))]])])))
      (lit "q") 3
    = [JDict [(lit "title", JStr (lit "T")); (lit "url", JStr (lit "L"));
              (lit "snippet", JStr [])]].
Proof. repeat split; vm_compute; reflexivity. Qed.

End WebSearchFacts.

(** ** The relay: positions, order and what is forwarded *)
Module BusFacts.
Import Json Bus.

(** The frame, if any, that the relay of [main.py] yields for an event. *)
Definition frame_of (e : event) : option frame :=
  match relay_event e with
  | Skip => None
  | Yield f => Some f
  | YieldBreak f => Some f
  end.

(** The log position the generator has reached. *)
Definition pos (r : relay) : nat :=
  match at_ r with
  | InFor i _ => i
  | _ => last_event_index r
  end.

Lemma log_of_apply_op (st : gmap string session) (o : store_op) (sid : string) :
  ∃ ext, log_of (apply_op st o) sid = log_of st sid ++ ext.
Proof.
  unfold log_of. destruct o as [s|s e|s]; simpl.
  - destruct (st !! s) eqn:Hs; [exists []; by rewrite app_nil_r|].
    destruct (decide (s = sid)) as [->|Hne].
    + rewrite lookup_insert_eq, Hs. by exists [].
    + rewrite lookup_insert_ne by done. exists []. by rewrite app_nil_r.
  - destruct (st !! s) as [x|] eqn:Hs; [|exists []; by rewrite app_nil_r].
    destruct (decide (s = sid)) as [->|Hne].
    + rewrite lookup_insert_eq, Hs. simpl. by exists [e].
    + rewrite lookup_insert_ne by done. exists []. by rewrite app_nil_r.
  - destruct (st !! s) as [x|] eqn:Hs; [|exists []; by rewrite app_nil_r].
    destruct (decide (s = sid)) as [->|Hne].
    + rewrite lookup_insert_eq, Hs. simpl. exists []. by rewrite app_nil_r.
    + rewrite lookup_insert_ne by done. exists []. by rewrite app_nil_r.
Qed.

Lemma take_le_app {A : Type} (l : list A) (n m : nat) :
  n ≤ m → take m l = take n l ++ drop n (take m l).
Proof.
  intros Hnm. rewrite <- (take_drop n (take m l)) at 1.
  rewrite take_take. by replace (n `min` m) with n by lia.
Qed.

Lemma omap_take_sublist {A B : Type} (f : A → option B) (l : list A) (n m : nat) :
  n ≤ m → omap f (take n l) `sublist_of` omap f (take m l).
Proof.
  intros Hnm. rewrite (take_le_app l n m Hnm), omap_app.
  by apply sublist_inserts_r.
Qed.

Lemma omap_length_le {A B : Type} (f : A → option B) (l : list A) :
  length (omap f l) ≤ length l.
Proof.
  induction l as [|x l IH]; [done|].
  change (omap f (x :: l)) with (match f x with Some y => y :: omap f l | None => omap f l end).
  destruct (f x); simpl; lia.
Qed.

Lemma log_of_lookup (st : gmap string session) (sid : string) (s : session) :
  st !! sid = Some s → log_of st sid = events s.
Proof. unfold log_of. by intros ->. Qed.

Section Relay.
Variable sid : string.

Abbreviation log w := (log_of (store w) sid).

(** The invariant of the generator of [main.py] against a log that only
    grows. *)
Record inv_main (w : world) : Prop := {
  inv_sorted : StronglySorted lt (map fst (sent (gen w)));
  inv_below : Forall (fun p => fst p < pos (gen w)) (sent (gen w));
  inv_frames :
    Forall (fun p => ∃ e, log w !! fst p = Some e ∧ frame_of e = Some (snd p))
           (sent (gen w));
  inv_sub : frames w `sublist_of` omap frame_of (take (pos (gen w)) (log w));
  inv_last : last_event_index (gen w) ≤ pos (gen w);
  inv_pos : pos (gen w) ≤ length (log w);
  inv_for : ∀ i stop, at_ (gen w) = InFor i stop → i ≤ stop ∧ stop ≤ length (log w)
}.

Lemma inv_main_init : inv_main world_init.
Proof.
  split; simpl.
  - constructor.
  - constructor.
  - constructor.
  - unfold frames; simpl. constructor.
  - unfold pos; simpl; lia.
  - unfold pos; simpl; lia.
  - intros i stop [=].
Qed.

Lemma sorted_snoc (l : list (nat * frame)) (i : nat) (f : frame) :
  StronglySorted lt (map fst l) → Forall (fun p => fst p < i) l →
  StronglySorted lt (map fst (l ++ [(i, f)])).
Proof.
  intros Hs Hb. rewrite map_app. apply StronglySorted_app_2; [|done|].
  - intros x1 x2 Hx1 Hx2. simpl in Hx2. apply list_elem_of_singleton in Hx2 as ->.
    apply list_elem_of_fmap in Hx1 as [p [-> Hp]].
    rewrite Forall_forall in Hb. by apply Hb.
  - simpl. repeat constructor.
Qed.

Lemma inv_main_op (w : world) (o : store_op) :
  inv_main w → inv_main (step sid w (Op o)).
Proof.
  intros [Hs Hb Hf Hsub Hl Hp Hfor].
  destruct (log_of_apply_op (store w) o sid) as [ext Hext].
  split; simpl; try done.
  - eapply Forall_impl; [exact Hf|]. intros p [e [He Hfe]]. exists e. split; [|done].
    rewrite Hext. by apply lookup_app_l_Some.
  - unfold frames in *; simpl. rewrite Hext, take_app_le by done. done.
  - rewrite Hext, length_app. lia.
  - intros i stop Hat. destruct (Hfor i stop Hat). rewrite Hext, length_app. lia.
Qed.

Ltac relay_norm Hat :=
  simpl; unfold pos, frames, end_of_poll in *; simpl in *; rewrite ?Hat in *; simpl in *.

Lemma inv_main_tick (w : world) (d : bool) :
  inv_main w → inv_main (step sid w (Tick d)).
Proof.
  intros [Hs Hb Hf Hsub Hl Hp Hfor]. unfold step, relay_step.
  destruct (at_ (gen w)) as [|i stop|] eqn:Hat.
  - (* top of the loop *)
    destruct d.
    + split; relay_norm Hat; try done.
    + destruct (store w !! sid) as [s|] eqn:Hsid.
      * pose proof (log_of_lookup _ _ _ Hsid) as Hlog.
        split; relay_norm Hat; try done.
        intros i stop [= <- <-]. rewrite <- Hlog. done.
      * split; relay_norm Hat; try done.
  - (* inside the for loop *)
    destruct (Hfor i stop eq_refl) as [His Hstop].
    destruct (Nat.leb_spec stop i) as [Hle|Hlt].
    + (* the loop is over *)
      split; relay_norm Hat; try done.
      all: destruct (completed _ _); simpl; try lia.
      all: try (eapply Forall_impl; [exact Hb|]; simpl; intros; lia).
      all: try (etrans; [exact Hsub|]; apply omap_take_sublist; lia).
      all: try (intros ? ? [=]).
    + destruct (lookup_lt_is_Some_2 (log_of (store w) sid) i) as [e He]; [lia|].
      rewrite He.
      assert (Htake : take (S i) (log_of (store w) sid)
                      = take i (log_of (store w) sid) ++ [e]) by by apply take_S_r.
      assert (Hbelow : ∀ n, i < n → Forall (fun p => fst p < n) (sent (gen w))).
      { intros n Hn. relay_norm Hat. eapply Forall_impl; [exact Hb|]; simpl; intros; lia. }
      destruct (relay_event e) as [|f|f] eqn:Hre.
      * split; relay_norm Hat; try done; try lia.
        -- apply Hbelow; lia.
        -- rewrite Htake, omap_app. by apply sublist_inserts_r.
        -- intros i' stop' [= <- <-]. lia.
      * split; relay_norm Hat; try lia.
        -- apply sorted_snoc; [done|]. done.
        -- apply Forall_app. split; [apply Hbelow; lia|]. repeat constructor.
        -- apply Forall_app. split; [done|]. repeat constructor. simpl.
           exists e. split; [done|]. unfold frame_of. by rewrite Hre.
        -- rewrite map_app, Htake, omap_app. apply sublist_app; [done|].
           simpl. unfold frame_of. rewrite Hre. done.
        -- intros i' stop' [= <- <-]. lia.
      * split; relay_norm Hat; try lia.
        -- apply sorted_snoc; [done|]. done.
        -- apply Forall_app. split; [apply Hbelow; lia|]. repeat constructor. simpl. lia.
        -- apply Forall_app. split; [done|]. repeat constructor. simpl.
           exists e. split; [done|]. unfold frame_of. by rewrite Hre.
        -- rewrite map_app.
           etrans; [|apply (omap_take_sublist _ _ (S i) stop); lia].
           rewrite Htake, omap_app. apply sublist_app; [done|].
           simpl. unfold frame_of. rewrite Hre. done.
        -- intros i' stop' [= <- <-]. lia.
  - split; relay_norm Hat; try done.
Qed.

Lemma inv_main_step (w : world) (a : action) : inv_main w → inv_main (step sid w a).
Proof. destruct a; [apply inv_main_op | apply inv_main_tick]. Qed.

Lemma inv_main_run (sch : list action) : ∀ w, inv_main w → inv_main (run sid sch w).
Proof.
  induction sch as [|a sch IH]; intros w Hw; [done|].
  apply IH, inv_main_step, Hw.
Qed.

Lemma last_mono_step (w : world) (a : action) :
  inv_main w → last_event_index (gen w) ≤ last_event_index (gen (step sid w a)).
Proof.
  intros [Hs Hb Hf Hsub Hl Hp Hfor]. destruct a as [o|d]; [done|].
  unfold step, relay_step; simpl.
  destruct (at_ (gen w)) as [|i stop|] eqn:Hat; relay_norm Hat.
  - destruct d; [done|]. by destruct (store w !! sid).
  - destruct (Hfor i stop eq_refl) as [His Hstop].
    destruct (stop <=? i); simpl; [lia|].
    destruct (log_of (store w) sid !! i) as [e|]; [|done].
    by destruct (relay_event e).
  - done.
Qed.

Lemma sorted_lt_NoDup (l : list nat) : StronglySorted lt l → NoDup l.
Proof.
  induction 1 as [|x l Hl IH Hx]; constructor; [|done].
  intros Hin. rewrite Forall_forall in Hx. specialize (Hx x Hin). lia.
Qed.

(** The generator of [main_backup.py]: everything before
    [last_event_index] has been sent, each event once and in order. *)
Definition expected (n : nat) (l : list event) : list (nat * frame) :=
  imap (fun i e => (i, relay_event_backup e)) (take n l).

Record inv_backup (w : world) : Prop := {
  invb_sent : sent (gen w) = expected (last_event_index (gen w)) (log w);
  invb_last : last_event_index (gen w) ≤ length (log w);
  invb_at : at_ (gen w) = AtPoll ∨ at_ (gen w) = Exited
}.

Lemma expected_S (n : nat) (l : list event) (e : event) :
  l !! n = Some e → expected (S n) l = expected n l ++ [(n, relay_event_backup e)].
Proof.
  intros He. unfold expected. rewrite (take_S_r _ _ _ He), imap_app. simpl.
  rewrite length_take_le, Nat.add_0_r; [done|].
  apply lookup_lt_Some in He. lia.
Qed.

Lemma expected_fst (n : nat) (l : list event) :
  map fst (expected n l) = seq 0 (length (take n l)).
Proof.
  unfold expected. generalize (take n l) as k. intros k.
  change (map fst) with (fmap (M:=list) (@fst nat frame)).
  rewrite fmap_imap. unfold compose; simpl.
  induction k as [|x k IH] using rev_ind; [done|].
  rewrite imap_app, length_app, seq_app, IH. simpl. by rewrite Nat.add_0_r.
Qed.

Lemma expected_snd (n : nat) (l : list event) :
  map snd (expected n l) = map relay_event_backup (take n l).
Proof.
  unfold expected. generalize (take n l) as k. intros k.
  induction k as [|x k IH] using rev_ind; [done|].
  rewrite imap_app, !map_app, IH. done.
Qed.

Lemma inv_backup_init : inv_backup world_init.
Proof. split; simpl; [done|lia|by left]. Qed.

Lemma inv_backup_step (w : world) (a : action) :
  inv_backup w → inv_backup (step_backup sid w a).
Proof.
  intros [Hs Hl Hat]. destruct a as [o|d]; simpl.
  - destruct (log_of_apply_op (store w) o sid) as [ext Hext].
    split; simpl; [|rewrite Hext, length_app; lia|done].
    rewrite Hs, Hext. unfold expected. by rewrite take_app_le.
  - unfold relay_step_backup.
    destruct Hat as [Hat|Hat]; rewrite Hat; [|by split; [| |right]].
    destruct (store w !! sid) as [s|] eqn:Hsid; [|by split; [| |left]].
    pose proof (log_of_lookup _ _ _ Hsid) as Hlog.
    destruct (events s !! last_event_index (gen w)) as [e|] eqn:He.
    + split; simpl.
      * rewrite Hs. symmetry. apply expected_S. by rewrite Hlog.
      * rewrite Hlog. by apply lookup_lt_Some in He.
      * by left.
    + split; simpl; [done|done|]. destruct (completed _ _); auto.
Qed.

Lemma inv_backup_run (sch : list action) :
  ∀ w, inv_backup w → inv_backup (run_backup sid sch w).
Proof.
  induction sch as [|a sch IH]; intros w Hw; [done|].
  apply IH, inv_backup_step, Hw.
Qed.

Lemma last_mono_step_backup (w : world) (a : action) :
  last_event_index (gen w) ≤ last_event_index (gen (step_backup sid w a)).
Proof.
  destruct a as [o|d]; [done|]. simpl. unfold relay_step_backup.
  destruct (at_ (gen w)); try done.
  destruct (store w !! sid) as [s|]; [|done].
  destruct (events s !! _); simpl; lia.
Qed.

Lemma expected_lookup (n : nat) (l : list event) :
  Forall (fun p => ∃ e, l !! fst p = Some e ∧ relay_event_backup e = snd p) (expected n l).
Proof.
  apply Forall_forall. intros [i f] Hin. unfold expected in Hin.
  apply list_elem_of_lookup in Hin as [j Hj].
  apply list_lookup_imap_Some in Hj as [e [He Heq]].
  apply lookup_take_Some in He as [He _]. injection Heq as -> ->. by exists e.
Qed.

(** *** Draining [main_backup.py] *)

Lemma completed_apply_op (st : gmap string session) (o : store_op) :
  completed st sid = true → completed (apply_op st o) sid = true.
Proof.
  unfold completed. destruct (st !! sid) as [[ev []]|] eqn:Hsid; try done. intros _.
  destruct o as [s|s e|s]; simpl.
  - destruct (st !! s) eqn:Hs; [by rewrite Hsid|].
    destruct (decide (s = sid)) as [->|Hne]; [congruence|].
    by rewrite lookup_insert_ne, Hsid.
  - destruct (st !! s) as [x|] eqn:Hs; [|by rewrite Hsid].
    destruct (decide (s = sid)) as [->|Hne].
    + rewrite lookup_insert_eq. by simplify_eq.
    + by rewrite lookup_insert_ne, Hsid.
  - destruct (st !! s) as [x|] eqn:Hs; [|by rewrite Hsid].
    destruct (decide (s = sid)) as [->|Hne].
    + by rewrite lookup_insert_eq.
    + by rewrite lookup_insert_ne, Hsid.
Qed.

(** The check of one write: it does not append to session [sid] once that
    session is completed. *)
Definition append_allowed (st : gmap string session) (o : store_op) : bool :=
  match o with
  | OpAppend s _ => negb (bool_decide (s = sid) && completed st sid)
  | _ => true
  end.

Lemma log_of_apply_op_completed (st : gmap string session) (o : store_op) :
  completed st sid = true → append_allowed st o = true →
  log_of (apply_op st o) sid = log_of st sid.
Proof.
  intros Hc Ha. unfold log_of.
  destruct o as [s|s e|s]; simpl in *.
  - destruct (st !! s) eqn:Hs; [done|].
    destruct (decide (s = sid)) as [->|Hne].
    + unfold completed in Hc. by rewrite Hs in Hc.
    + by rewrite lookup_insert_ne.
  - rewrite Hc, andb_true_r in Ha. apply negb_true_iff, bool_decide_eq_false in Ha.
    destruct (st !! s); [|done]. by rewrite lookup_insert_ne.
  - destruct (st !! s) as [x|] eqn:Hs; [|done].
    destruct (decide (s = sid)) as [->|Hne].
    + by rewrite lookup_insert_eq, Hs.
    + by rewrite lookup_insert_ne.
Qed.

Fixpoint appends_before_completion (sch : list action) (st : gmap string session) : bool :=
  match sch with
  | [] => true
  | Op o :: sch' => append_allowed st o && appends_before_completion sch' (apply_op st o)
  | Tick _ :: sch' => appends_before_completion sch' st
  end.

Record inv_backup_x (w : world) : Prop := {
  invx_inv : inv_backup w;
  invx_exit : at_ (gen w) = Exited →
              last_event_index (gen w) = length (log w) ∧ completed (store w) sid = true
}.

Lemma inv_backup_x_init : inv_backup_x world_init.
Proof. split; [apply inv_backup_init|]. by intros [=]. Qed.

Lemma inv_backup_x_step (w : world) (a : action) :
  inv_backup_x w →
  match a with Op o => append_allowed (store w) o = true | Tick _ => True end →
  inv_backup_x (step_backup sid w a).
Proof.
  intros [Hinv Hexit] Ha. split; [by apply inv_backup_step|].
  destruct a as [o|d]; simpl.
  - intros Hat. destruct (Hexit Hat) as [Hlast Hc]. split.
    + by rewrite log_of_apply_op_completed.
    + by apply completed_apply_op.
  - unfold relay_step_backup.
    destruct (at_ (gen w)) as [|i stop|] eqn:Hat.
    2: { destruct Hinv as [_ _ [?|?]]; congruence. }
    2: { intros _. by apply Hexit. }
    destruct (store w !! sid) as [s|] eqn:Hsid; [|by rewrite Hat].
    pose proof (log_of_lookup _ _ _ Hsid) as Hlog.
    destruct (events s !! last_event_index (gen w)) as [e|] eqn:He; simpl; [done|].
    destruct (completed (store w) sid) eqn:Hc; [|done]. intros _. split; [|done].
    apply lookup_ge_None in He. destruct Hinv as [_ Hl _]. rewrite Hlog in *. lia.
Qed.

Lemma inv_backup_x_run (sch : list action) : ∀ w,
  inv_backup_x w → appends_before_completion sch (store w) = true →
  inv_backup_x (run_backup sid sch w).
Proof.
  induction sch as [|a sch IH]; intros w Hw Hsch; [done|].
  simpl in *. destruct a as [o|d].
  - apply andb_true_iff in Hsch as [Ho Hsch].
    apply IH; [by apply inv_backup_x_step|done].
  - apply IH; [by apply inv_backup_x_step|done].
Qed.

Lemma drain_backup_store (n : nat) : ∀ w, store (drain_backup sid n w) = store w.
Proof.
  unfold drain_backup. induction n as [|n IH]; intros w; [done|].
  simpl. by rewrite IH.
Qed.

Lemma drain_backup_all (n : nat) : ∀ w,
  inv_backup_x w → length (log w) - last_event_index (gen w) ≤ n →
  frames (drain_backup sid n w) = map relay_event_backup (log w).
Proof.
  unfold drain_backup. induction n as [|n IH]; intros w Hw Hn.
  - simpl. unfold frames. destruct Hw as [[Hs Hl Hat] _].
    rewrite Hs, expected_snd, take_ge; [done|lia].
  - simpl.
    assert (Hstore : log (step_backup sid w (Tick false)) = log w) by done.
    rewrite <- Hstore. apply IH; [by apply inv_backup_x_step|].
    rewrite Hstore. simpl. unfold relay_step_backup.
    destruct Hw as [[Hs Hl Hat] Hexit].
    destruct (at_ (gen w)) eqn:Hat'.
    + destruct (store w !! sid) as [s|] eqn:Hsid.
      * pose proof (log_of_lookup _ _ _ Hsid) as Hlog.
        destruct (events s !! last_event_index (gen w)) as [e|] eqn:He; simpl; [lia|].
        apply lookup_ge_None in He. rewrite Hlog. lia.
      * unfold log_of in *. rewrite Hsid in *. simpl in *. lia.
    + by destruct Hat.
    + destruct (Hexit eq_refl). lia.
Qed.

(** *** Draining [main.py] when no poll is disturbed *)

(** A [done] or [error] event, after which the [for] loop breaks, is the last
    event of the log. *)
Definition final_only_last (l : list event) : Prop :=
  ∀ i e f, l !! i = Some e → relay_event e = YieldBreak f → S i = length l.

Lemma final_only_last_prefix (l ext : list event) :
  final_only_last (l ++ ext) → final_only_last l.
Proof.
  intros H i e f He Hf. pose proof (lookup_lt_Some _ _ _ He) as Hlt.
  specialize (H i e f (lookup_app_l_Some _ _ _ _ He) Hf).
  rewrite length_app in H. lia.
Qed.

(** The check of one action: the client stays connected, and the
    orchestrator writes neither while the generator is suspended inside its
    [for] loop nor, to the log of [sid], after completion. *)
Definition undisturbed (w : world) (a : action) : bool :=
  match a with
  | Op o =>
      match at_ (gen w) with InFor _ _ => false | _ => true end
      && append_allowed (store w) o
  | Tick d => negb d
  end.

Fixpoint polls_undisturbed (sch : list action) (w : world) : bool :=
  match sch with
  | [] => true
  | a :: sch' => undisturbed w a && polls_undisturbed sch' (step sid w a)
  end.

Record inv_quiet (w : world) : Prop := {
  q_inv : inv_main w;
  q_frames : frames w = omap frame_of (take (pos (gen w)) (log w));
  q_for : ∀ i stop, at_ (gen w) = InFor i stop → stop = length (log w);
  q_exit : at_ (gen w) = Exited →
           pos (gen w) = length (log w) ∧ completed (store w) sid = true
}.

Lemma inv_quiet_init : inv_quiet world_init.
Proof. split; [apply inv_main_init|done|by intros ?? [=]|by intros [=]]. Qed.

Lemma inv_quiet_step (w : world) (a : action) :
  inv_quiet w → undisturbed w a = true → final_only_last (log (step sid w a)) →
  inv_quiet (step sid w a).
Proof.
  intros [Hinv Hfr Hfor Hexit] Ha Hfin.
  split; [by apply inv_main_step| | |]; destruct Hinv as [_ _ _ _ Hl Hp Hfor'].
  - (* frames *)
    destruct a as [o|d]; simpl in *.
    + destruct (log_of_apply_op (store w) o sid) as [ext Hext].
      unfold frames in *; simpl. by rewrite Hfr, Hext, take_app_le.
    + apply negb_true_iff in Ha as ->. unfold relay_step.
      destruct (at_ (gen w)) as [|i stop|] eqn:Hat; relay_norm Hat.
      * destruct (store w !! sid); relay_norm Hat; done.
      * pose proof (Hfor i stop eq_refl) as ->.
        destruct (Nat.leb_spec (length (log_of (store w) sid)) i) as [Hle|Hlt]; simpl.
        { destruct (completed _ _); simpl; rewrite Hfr;
            by replace i with (length (log w)) by lia. }
        destruct (lookup_lt_is_Some_2 (log_of (store w) sid) i) as [e He]; [lia|].
        rewrite He.
        pose proof (take_S_r _ _ _ He) as Htake.
        destruct (relay_event e) as [|f|f] eqn:Hre; simpl.
        -- rewrite Htake, omap_app, Hfr. simpl. unfold frame_of. rewrite Hre.
           by rewrite app_nil_r.
        -- rewrite map_app, Htake, omap_app, Hfr. simpl. unfold frame_of. by rewrite Hre.
        -- rewrite <- (Hfin i e f He Hre).
           rewrite map_app, Htake, omap_app, Hfr. simpl. unfold frame_of. by rewrite Hre.
      * done.
  - (* the bound of the for loop *)
    destruct a as [o|d]; simpl in *.
    + apply andb_true_iff in Ha as [Ha _]. intros i stop Hat. by rewrite Hat in Ha.
    + apply negb_true_iff in Ha as ->. unfold relay_step.
      destruct (at_ (gen w)) as [|i stop|] eqn:Hat; relay_norm Hat.
      * destruct (store w !! sid) as [s|] eqn:Hsid; relay_norm Hat.
        -- intros ?? [= <- <-]. symmetry. by f_equal; apply log_of_lookup.
        -- by intros ?? [=].
      * pose proof (Hfor i stop eq_refl) as ->.
        destruct (length (log_of (store w) sid) <=? i); simpl.
        { destruct (completed _ _); by intros ?? [=]. }
        destruct (log_of (store w) sid !! i) as [e|]; simpl; [|by intros ?? [=]].
        destruct (relay_event e); simpl; by intros ?? [= <- <-].
      * by intros ?? [=].
  - (* after the exit *)
    destruct a as [o|d]; simpl in *.
    + apply andb_true_iff in Ha as [_ Ha]. intros Hat.
      destruct (Hexit Hat) as [Hpos Hc]. unfold pos in *; simpl; rewrite Hat in *.
      split; [by rewrite log_of_apply_op_completed | by apply completed_apply_op].
    + apply negb_true_iff in Ha as ->. unfold relay_step.
      destruct (at_ (gen w)) as [|i stop|] eqn:Hat; relay_norm Hat.
      * destruct (store w !! sid); relay_norm Hat; by intros [=].
      * pose proof (Hfor i stop eq_refl) as ->.
        destruct (Nat.leb_spec (length (log_of (store w) sid)) i) as [Hle|Hlt]; simpl.
        { destruct (completed _ _) eqn:Hc; simpl; [done|by intros [=]]. }
        destruct (lookup_lt_is_Some_2 (log_of (store w) sid) i) as [e He]; [lia|].
        rewrite He. destruct (relay_event e); simpl; by intros [=].
      * intros _. by apply Hexit.
Qed.

Lemma log_prefix_step (w : world) (a : action) :
  ∃ ext, log (step sid w a) = log w ++ ext.
Proof.
  destruct a as [o|d]; simpl; [apply log_of_apply_op|]. exists []. by rewrite app_nil_r.
Qed.

Lemma log_prefix_run (sch : list action) : ∀ w,
  ∃ ext, log (run sid sch w) = log w ++ ext.
Proof.
  induction sch as [|a sch IH]; intros w.
  - exists []. by rewrite app_nil_r.
  - destruct (IH (step sid w a)) as [ext1 H1].
    destruct (log_prefix_step w a) as [ext2 H2].
    exists (ext2 ++ ext1).
    change (run sid (a :: sch) w) with (run sid sch (step sid w a)).
    by rewrite H1, H2, app_assoc.
Qed.

Lemma inv_quiet_run (sch : list action) : ∀ w,
  inv_quiet w → polls_undisturbed sch w = true →
  final_only_last (log (run sid sch w)) →
  inv_quiet (run sid sch w).
Proof.
  induction sch as [|a sch IH]; intros w Hw Hsch Hfin; [done|].
  change (run sid (a :: sch) w) with (run sid sch (step sid w a)) in *.
  simpl in Hsch. apply andb_true_iff in Hsch as [Ha Hsch].
  apply IH; [|done|done].
  apply inv_quiet_step; [done|done|].
  destruct (log_prefix_run sch (step sid w a)) as [ext Hext].
  rewrite Hext in Hfin. by eapply final_only_last_prefix.
Qed.

(** How far the generator is from having looked at the whole log. *)
Definition todo (w : world) : nat :=
  2 * (length (log w) - pos (gen w))
  + match at_ (gen w) with AtPoll => 1 | _ => 0 end.

Lemma tick_progress (w : world) :
  inv_quiet w →
  pos (gen w) ≤ pos (gen (step sid w (Tick false)))
  ∧ (pos (gen w) < length (log w) → todo (step sid w (Tick false)) < todo w).
Proof.
  intros [[_ _ _ _ Hl Hp Hfor'] Hfr Hfor Hexit].
  unfold todo, step, relay_step; simpl.
  destruct (at_ (gen w)) as [|i stop|] eqn:Hat; relay_norm Hat.
  - destruct (store w !! sid) as [s|] eqn:Hsid; relay_norm Hat.
    + split; [done|lia].
    + unfold log_of in *. rewrite Hsid in *. simpl in *. split; [done|lia].
  - pose proof (Hfor i stop eq_refl) as ->.
    destruct (Nat.leb_spec (length (log w)) i) as [Hle|Hlt]; simpl.
    { destruct (completed _ _); simpl; split; lia. }
    destruct (lookup_lt_is_Some_2 (log w) i) as [e He]; [lia|].
    rewrite He. destruct (relay_event e); simpl; split; lia.
  - destruct (Hexit eq_refl) as [-> _]. split; lia.
Qed.

Lemma drain_store (n : nat) : ∀ w, store (drain sid n w) = store w.
Proof.
  unfold drain. induction n as [|n IH]; intros w; [done|].
  simpl. by rewrite IH.
Qed.

Lemma drain_pos (n : nat) : ∀ w,
  inv_quiet w → final_only_last (log w) →
  todo w ≤ n ∨ pos (gen w) = length (log w) →
  inv_quiet (drain sid n w) ∧ pos (gen (drain sid n w)) = length (log w).
Proof.
  unfold drain. induction n as [|n IH]; intros w Hw Hfin Hn.
  - split; [done|]. destruct Hn as [Hn|Hn]; [|done].
    destruct Hw as [[_ _ _ _ _ Hp _] _ _ _]. unfold todo in Hn. simpl. lia.
  - change (run sid (replicate (S n) (Tick false)) w)
      with (run sid (replicate n (Tick false)) (step sid w (Tick false))).
    assert (Hw' : inv_quiet (step sid w (Tick false))) by by apply inv_quiet_step.
    destruct (tick_progress w Hw) as [Hmono Hdec].
    change (log w) with (log (step sid w (Tick false))).
    apply IH; [done|done|].
    destruct Hw' as [[_ _ _ _ _ Hp' _] _ _ _]. simpl in Hp'.
    destruct (decide (pos (gen w) = length (log w))) as [Heq|Hne].
    + right. simpl in *. lia.
    + left. destruct Hn as [Hn|Hn]; [|done].
      destruct Hw as [[_ _ _ _ _ Hp _] _ _ _].
      assert (todo (step sid w (Tick false)) < todo w) by (apply Hdec; lia). lia.
Qed.

Lemma drain_main_all (n : nat) (w : world) :
  inv_quiet w → final_only_last (log w) → 2 * length (log w) + 1 ≤ n →
  frames (drain sid n w) = omap frame_of (log w).
Proof.
  intros Hw Hfin Hn.
  destruct (drain_pos n w Hw Hfin) as [[_ Hfr _ _] Hpos].
  { left. unfold todo. destruct (at_ (gen w)); lia. }
  rewrite Hfr, Hpos, drain_store, take_ge; done.
Qed.

Lemma omap_all_length {A B : Type} (f : A → option B) (l : list A) :
  Forall (fun x => is_Some (f x)) l → length (omap f l) = length l.
Proof.
  induction 1 as [|x l [y Hy] _ IH]; [done|]. simpl. rewrite Hy. simpl. by f_equal.
Qed.

End Relay.

(** C9. In the relay loops of [main.py] and [main_backup.py], whatever the
    interleaving of writes to the store and resumptions of the generator:
    [last_event_index] never exceeds the length of the session's log, no step
    decreases it, no log position is sent twice, and every frame sent is the
    frame of the event at its position. *)
Theorem relay_index_invariant (sid : string) (sch : list action) :
  let w := run sid sch world_init in
  let wb := run_backup sid sch world_init in
  (last_event_index (gen w) ≤ length (log_of (store w) sid)
   ∧ (∀ a, last_event_index (gen w) ≤ last_event_index (gen (step sid w a)))
   ∧ NoDup (map fst (sent (gen w)))
   ∧ Forall (fun p => ∃ e, log_of (store w) sid !! fst p = Some e
                          ∧ frame_of e = Some (snd p)) (sent (gen w)))
  ∧ (last_event_index (gen wb) ≤ length (log_of (store wb) sid)
     ∧ (∀ a, last_event_index (gen wb) ≤ last_event_index (gen (step_backup sid wb a)))
     ∧ NoDup (map fst (sent (gen wb)))
     ∧ Forall (fun p => ∃ e, log_of (store wb) sid !! fst p = Some e
                            ∧ relay_event_backup e = snd p) (sent (gen wb))).
Proof.
  intros w wb. split.
  - pose proof (inv_main_run sid sch _ (inv_main_init sid)) as Hinv.
    fold w in Hinv. destruct Hinv as [Hs Hb Hf Hsub Hl Hp Hfor] eqn:E.
    repeat split.
    + lia.
    + intros a. by apply last_mono_step.
    + by apply sorted_lt_NoDup.
    + done.
  - pose proof (inv_backup_run sid sch _ (inv_backup_init sid)) as Hinv.
    fold wb in Hinv. destruct Hinv as [Hs Hl Hat].
    repeat split.
    + done.
    + intros a. apply last_mono_step_backup.
    + rewrite Hs, expected_fst. apply NoDup_ListNoDup, List.seq_NoDup.
    + rewrite Hs. apply expected_lookup.
Qed.


(** C1 (as amended).  With the relay of [main_backup.py], for every
    interleaving of writes and resumptions in which nothing is appended to the
    session after its completion, draining yields exactly the N events of the
    log, in append order.  With the relay of [main.py] the frames sent are, for
    every interleaving, a sub-sequence in append order of the frames of the
    events of the log (at most N of them); and when the client stays connected,
    nothing is written while the generator is suspended inside its [for] loop,
    and a [done] or [error] event is the last event of the log, draining yields
    exactly the frames of the events that have non-empty data and a known
    type, in append order: N frames when every event is of that kind. *)
Theorem relay_drain (sid : string) (sch : list action) (n : nat) :
  (appends_before_completion sid sch ∅ = true →
   length (log_of (store (run_backup sid sch world_init)) sid) ≤ n →
   frames (drain_backup sid n (run_backup sid sch world_init))
     = map relay_event_backup (log_of (store (run_backup sid sch world_init)) sid)
   ∧ length (frames (drain_backup sid n (run_backup sid sch world_init)))
     = length (log_of (store (run_backup sid sch world_init)) sid))
  ∧ (frames (run sid sch world_init)
       `sublist_of` omap frame_of (log_of (store (run sid sch world_init)) sid)
     ∧ length (frames (run sid sch world_init))
       ≤ length (log_of (store (run sid sch world_init)) sid))
  ∧ (polls_undisturbed sid sch world_init = true →
     final_only_last (log_of (store (run sid sch world_init)) sid) →
     2 * length (log_of (store (run sid sch world_init)) sid) + 1 ≤ n →
     frames (drain sid n (run sid sch world_init))
       = omap frame_of (log_of (store (run sid sch world_init)) sid)
     ∧ (Forall (fun e => is_Some (frame_of e))
               (log_of (store (run sid sch world_init)) sid) →
        length (frames (drain sid n (run sid sch world_init)))
        = length (log_of (store (run sid sch world_init)) sid))).
Proof.
  split; [|split].
  - intros Hsch Hn.
    pose proof (inv_backup_x_run sid sch _ (inv_backup_x_init sid) Hsch) as Hinv.
    assert (Hall := drain_backup_all sid n _ Hinv).
    rewrite Hall by lia. split; [done|]. by rewrite length_map.
  - pose proof (inv_main_run sid sch _ (inv_main_init sid)) as [_ _ _ Hsub _ Hp _].
    assert (Hsub' : frames (run sid sch world_init)
              `sublist_of` omap frame_of (log_of (store (run sid sch world_init)) sid)).
    { etrans; [exact Hsub|].
      rewrite <- (take_ge (log_of (store (run sid sch world_init)) sid)
                    (length (log_of (store (run sid sch world_init)) sid))) at 2 by done.
      by apply omap_take_sublist. }
    split; [done|].
    etrans; [apply sublist_length, Hsub'|]. apply omap_length_le.
  - intros Hsch Hfin Hn.
    pose proof (inv_quiet_run sid sch _ (inv_quiet_init sid) Hsch Hfin) as Hinv.
    pose proof (drain_main_all sid n _ Hinv Hfin Hn) as Hall.
    split; [done|]. intros Hfw. rewrite Hall. by apply omap_all_length.
Qed.


(** Sample events. *)
Definition ev_thinking (s : string) : event :=
  {| ev_type := lit "thinking"; ev_data := JStr (lit s) |}.
Definition ev_error : event :=
  {| ev_type := lit "error"; ev_data := JStr (lit "Generation error: boom") |}.
Definition ev_done : event :=
  Orchestrator.done_event "/api/download/" "motion_packet.zip" "s" true.

(** An interleaving of three appends with resumptions of the generator. *)
Definition sample_schedule : list action :=
  [ Op (OpCreate "s"); Tick false; Tick false;
    Op (OpAppend "s" (ev_thinking "Analyzing "));
    Tick false; Tick false; Tick false;
    Op (OpAppend "s" (ev_thinking "case "));
    Op (OpAppend "s" ev_done);
    Op (OpComplete "s") ].

Lemma relay_drain_witness :
  frames (drain_backup "s" 7 (run_backup "s" sample_schedule world_init))
    = map relay_event_backup [ev_thinking "Analyzing "; ev_thinking "case "; ev_done]
  ∧ length (frames (drain "s" 7 (run "s" sample_schedule world_init))) = 3.
Proof.
  pose proof (relay_drain "s" sample_schedule 7) as [Hb [_ Hq]]. split.
  - apply Hb; [vm_compute; reflexivity | vm_compute; lia].
  - destruct Hq as [_ Hlen].
    + vm_compute; reflexivity.
    + intros i e f He Hf.
      destruct i as [|[|[|i]]]; vm_compute in He; try discriminate;
        injection He as <-; try reflexivity; vm_compute in Hf; discriminate.
    + vm_compute; lia.
    + rewrite Hlen; [vm_compute; reflexivity|].
      vm_compute. repeat constructor; eexists; reflexivity.
Defined.

(** C1 as stated fails for the relay of [main.py]: the log holds two events,
    an [error] event followed by the [done] event, as the orchestrator of
    [main.py] appends them on its [except] path; the [for] loop breaks after
    the [error] frame, [last_event_index] is set past both, and the generator
    exits on the completed status.  One frame is sent for two events. *)
Lemma relay_main_drops_done_after_error :
  let sch := [ Op (OpCreate "s"); Op (OpAppend "s" ev_error);
               Op (OpAppend "s" ev_done); Op (OpComplete "s") ] in
  let w := drain "s" 9 (run "s" sch world_init) in
  log_of (store w) "s" = [ev_error; ev_done]
  ∧ frames w = [ {| fr_event := lit "error";
                    fr_body := Message (JStr (lit "Generation error: boom")) |} ]
  ∧ at_ (gen w) = Exited
  ∧ length (frames w) ≠ length (log_of (store w) "s").
Proof. vm_compute. repeat split; try reflexivity. discriminate. Qed.

(** An event whose data is the empty string is never sent by [main.py]. *)
Example relay_main_filters_empty_data :
  let sch := [ Op (OpCreate "s"); Op (OpAppend "s" (ev_thinking EmptyString)) ] in
  let w := drain "s" 9 (run "s" sch world_init) in
  log_of (store w) "s" = [ev_thinking EmptyString] ∧ frames w = [].
Proof. vm_compute. done. Qed.

(** An event appended while the generator of [main.py] is suspended at a
    [yield] of its [for] loop is passed over: the range was fixed when the
    loop began, and after the loop [last_event_index = len(events)] counts
    the new event as sent.  [main_backup.py] sends both events under the same
    interleaving. *)
Example relay_main_skips_append_during_poll :
  let sch := [ Op (OpCreate "s"); Op (OpAppend "s" (ev_thinking "a "));
               Tick false; Tick false;
               Op (OpAppend "s" (ev_thinking "b "));
               Tick false ] in
  let w := drain "s" 9 (run "s" sch world_init) in
  let wb := drain_backup "s" 9 (run_backup "s" sch world_init) in
  log_of (store w) "s" = [ev_thinking "a "; ev_thinking "b "]
  ∧ map fst (sent (gen w)) = [0]
  ∧ last_event_index (gen w) = 2
  ∧ map fst (sent (gen wb)) = [0; 1].
Proof. vm_compute. done. Qed.

End BusFacts.

(** ** The matcher: captured groups *)
Module ReFacts.
Import Re.

(** A pattern in which group [n] takes part in every match. *)
Fixpoint sets_group (n : nat) (r : re) : bool :=
  match r with
  | Group m r1 => (n =? m) || sets_group n r1
  | Seq r1 r2 => sets_group n r1 || sets_group n r2
  | Alt r1 r2 => sets_group n r1 && sets_group n r2
  | Rep _ lo _ r1 => (0 <? lo) && sets_group n r1
  | _ => false
  end.

(** What a matcher [m] does to group [n]: it keeps it once set and, if [b],
    sets it. *)
Definition group_ok (n : nat) (b : bool) (m : text -> gmap nat text -> list way) : Prop :=
  ∀ s g w, In w (m s g) →
    (is_Some (g !! n) → is_Some (groups w !! n))
    ∧ (b = true → is_Some (groups w !! n)).

Lemma one_char_group_ok (n : nat) (ok : ascii -> bool) : group_ok n false (one_char ok).
Proof.
  intros s g w Hw. unfold one_char in Hw.
  destruct s as [|x s]; [done|]. destruct (ok x); [|done].
  destruct Hw as [<-|[]]. by split.
Qed.

Lemma then_group_ok (n : nat) (b : bool) (k : text -> gmap nat text -> list way)
    (w1 w : way) :
  group_ok n b k → In w (then_ k w1) →
  (is_Some (groups w1 !! n) → is_Some (groups w !! n))
  ∧ (b = true → is_Some (groups w !! n)).
Proof.
  intros Hk Hw. unfold then_ in Hw. apply in_map_iff in Hw as [w2 [<- Hw2]]. simpl.
  by apply (Hk _ _ _ Hw2).
Qed.

Lemma rep_group_ok (n : nat) (b : bool) (m : text -> gmap nat text -> list way)
    (greedy : bool) (fuel : nat) :
  group_ok n b m →
  ∀ lo hi, group_ok n ((0 <? lo) && b) (rep m greedy lo hi fuel).
Proof.
  intros Hm. induction fuel as [|fuel IH]; intros lo hi s g w Hw; simpl in Hw.
  - destruct lo; [|done]. destruct Hw as [<-|[]]. by split.
  - assert (Hstop : In w (match lo with
                          | 0 => [ {| consumed := []; rest := s; groups := g |} ]
                          | S _ => []
                          end) →
            (is_Some (g !! n) → is_Some (groups w !! n))
            ∧ ((0 <? lo) && b = true → is_Some (groups w !! n))).
    { destruct lo; [|done]. intros [<-|[]]. by split. }
    assert (Hmore : In w (match hi with
                          | Some 0 => []
                          | _ => flat_map
                                   (fun w1 =>
                                      match lo, consumed w1 with
                                      | 0, [] => []
                                      | _, _ => then_ (rep m greedy (pred lo) (pred <$> hi) fuel) w1
                                      end) (m s g)
                          end) →
            (is_Some (g !! n) → is_Some (groups w !! n))
            ∧ ((0 <? lo) && b = true → is_Some (groups w !! n))).
    { intros Hin.
      assert (Hin' : In w (flat_map
                 (fun w1 =>
                    match lo, consumed w1 with
                    | 0, [] => []
                    | _, _ => then_ (rep m greedy (pred lo) (pred <$> hi) fuel) w1
                    end) (m s g))).
      { destruct hi as [[|h]|]; done. }
      apply in_flat_map in Hin' as [w1 [Hw1 Hw']].
      destruct (Hm _ _ _ Hw1) as [Hkeep Hset].
      assert (Hthen : In w (then_ (rep m greedy (pred lo) (pred <$> hi) fuel) w1)).
      { destruct lo; [destruct (consumed w1); [done|]|]; done. }
      destruct (then_group_ok n _ _ _ _ (IH (pred lo) (pred <$> hi)) Hthen) as [Hk2 _].
      split.
      - intros Hg. by apply Hk2, Hkeep.
      - intros Hb. apply andb_true_iff in Hb as [_ Hb]. by apply Hk2, Hset. }
    destruct greedy; apply in_app_iff in Hw as [Hw|Hw]; auto.
Qed.

Lemma lookup_insert_is_Some_keep (g : gmap nat text) (n m : nat) (v : text) :
  is_Some (g !! n) → is_Some (<[m := v]> g !! n).
Proof.
  intros Hg. destruct (decide (m = n)) as [->|Hne].
  - rewrite lookup_insert_eq. by eexists.
  - by rewrite lookup_insert_ne.
Qed.

Lemma ways_group_ok (fl : flags) (n : nat) (r : re) :
  group_ok n (sets_group n r) (ways fl r).
Proof.
  induction r as [|c| | |neg items|r1 IH1 r2 IH2|r1 IH1 r2 IH2|greedy lo hi r1 IH1|m r1 IH1];
    simpl; try apply one_char_group_ok.
  - intros s g w [<-|[]]. by split.
  - intros s g w Hw. apply in_flat_map in Hw as [w1 [Hw1 Hw]].
    destruct (IH1 _ _ _ Hw1) as [Hk1 Hs1].
    destruct (then_group_ok n _ _ _ _ IH2 Hw) as [Hk2 Hs2].
    split; [auto|]. intros Hb. apply orb_true_iff in Hb as [Hb|Hb]; auto.
  - intros s g w Hw. apply in_app_iff in Hw as [Hw|Hw].
    + destruct (IH1 _ _ _ Hw) as [Hk Hs]. split; [done|].
      intros Hb. apply andb_true_iff in Hb as [Hb _]. auto.
    + destruct (IH2 _ _ _ Hw) as [Hk Hs]. split; [done|].
      intros Hb. apply andb_true_iff in Hb as [_ Hb]. auto.
  - intros s g. apply rep_group_ok, IH1.
  - intros s g w Hw. apply in_map_iff in Hw as [w1 [<- Hw1]]. simpl.
    destruct (IH1 _ _ _ Hw1) as [Hk Hs]. split.
    + intros Hg. by apply lookup_insert_is_Some_keep, Hk.
    + intros Hb. apply orb_true_iff in Hb as [Hb|Hb].
      * apply Nat.eqb_eq in Hb as ->. rewrite lookup_insert_eq. by eexists.
      * by apply lookup_insert_is_Some_keep, Hs.
Qed.

Lemma search_from_group (fl : flags) (n : nat) (r : re) (s : text) :
  sets_group n r = true →
  ∀ pos mo, search_from fl r pos s = Some mo → is_Some (group n mo).
Proof.
  intros Hr. induction s as [|x s IH]; intros pos mo; simpl; unfold match_here.
  - destruct (ways fl r [] ∅) as [|w l] eqn:Hw; [done|]. intros [= <-]. unfold group; simpl.
    apply (ways_group_ok fl n r [] ∅ w); [rewrite Hw; by left|done].
  - destruct (ways fl r (x :: s) ∅) as [|w l] eqn:Hw; [apply IH|].
    intros [= <-]. unfold group; simpl.
    apply (ways_group_ok fl n r (x :: s) ∅ w); [rewrite Hw; by left|done].
Qed.

End ReFacts.

(** ** The field parser *)
Module ParserFacts.
Import Re Parser ReFacts.

(** A pattern of a table is in order when it compiles and its group 1 takes
    part in every match; a table is in order when its keys are distinct and
    all its patterns are in order. *)
Definition pattern_ok (p : string) : bool :=
  match compile p with
  | Ok r => sets_group 1 r
  | Raise _ => false
  end.

Definition table_ok (T : list (string * list string)) : bool :=
  bool_decide (NoDup (map fst T)) && forallb (fun e => forallb pattern_ok (snd e)) T.

Lemma tables_ok :
  table_ok patterns_main = true ∧ table_ok patterns_backup = true
  ∧ table_ok patterns_enhanced = true.
Proof. vm_compute. done. Qed.

(** *** The contract in the words of the specification *)

(** The match of [pattern] somewhere in the text, case-insensitively. *)
Definition matching (t : text) (pattern : string) : option match_obj :=
  match re_search pattern t IGNORECASE with
  | Ok (Some m) => Some m
  | _ => None
  end.

(** The match of the first pattern, in list order, that matches. *)
Definition first_matching (ps : list string) (t : text) : option match_obj :=
  head (omap (matching t) ps).

(** The value of a field: the stripped captured group of that match, or the
    sentinel. *)
Definition spec_field (ps : list string) (t : text) : text :=
  match first_matching ps t with
  | Some m => strip (default [] (group 1 m))
  | None => UNKNOWN
  end.

(** The ordered pattern list of a field in a table (empty if the table has
    no entry for it). *)
Fixpoint patterns_of (T : list (string * list string)) (field : string) : list string :=
  match T with
  | [] => []
  | (k, ps) :: T' => if String.eqb k field then ps else patterns_of T' field
  end.

Definition no_pattern_matches (T : list (string * list string)) (t : text) : bool :=
  forallb (fun e => forallb (fun p => negb (bool_decide (is_Some (matching t p)))) (snd e)) T.

(** *** The loops against the contract *)

Lemma first_matching_cons (p : string) (ps : list string) (t : text) :
  first_matching (p :: ps) t
  = match matching t p with Some m => Some m | None => first_matching ps t end.
Proof. unfold first_matching. simpl. by destruct (matching t p). Qed.

Lemma first_match_spec (ps : list string) (t : text) :
  forallb pattern_ok ps = true →
  first_match ps t
  = Ok (match first_matching ps t with
        | Some m => Some (strip (default [] (group 1 m)))
        | None => None
        end).
Proof.
  induction ps as [|p ps IH]; intros Hok; [done|].
  simpl in Hok. apply andb_true_iff in Hok as [Hp Hps].
  rewrite first_matching_cons. simpl. unfold matching, re_search, pattern_ok in *.
  destruct (compile p) as [r|e]; [|done]. simpl.
  destruct (search IGNORECASE r t) as [mo|] eqn:Hs; [|by apply IH].
  destruct (search_from_group IGNORECASE 1 r t Hp 0 mo Hs) as [g Hg].
  by rewrite Hg.
Qed.

Lemma getattr_setattr_eq (info : DefendantInfo) (f : string) (v : text) :
  f ∈ field_names → getattr (setattr info f v) f = Some v.
Proof.
  unfold field_names. rewrite !elem_of_cons, elem_of_nil.
  intros [->|[->|[->|[->|[->|[->|[->|[->|[]]]]]]]]]; reflexivity.
Qed.

Lemma getattr_setattr_ne (info : DefendantInfo) (k f : string) (v : text) :
  k ≠ f → getattr (setattr info k v) f = getattr info f.
Proof.
  intros Hne. unfold setattr, getattr.
  repeat match goal with
         | |- context [String.eqb k ?s] =>
             destruct (String.eqb_spec k s) as [->|?]; simpl; try congruence; try reflexivity
         end;
    repeat match goal with
           | |- context [String.eqb f ?s] =>
               destruct (String.eqb_spec f s) as [->|?]; simpl; try congruence;
               try reflexivity
           end.
Qed.

(** The value of field [f] after the loop over [T], when it was [old]
    before. *)
Fixpoint field_after (T : list (string * list string)) (t : text) (f : string)
    (old : option text) : option text :=
  match T with
  | [] => old
  | (k, ps) :: T' =>
      if String.eqb k f then
        match first_matching ps t with
        | Some m => Some (strip (default [] (group 1 m)))
        | None => old
        end
      else field_after T' t f old
  end.

Lemma field_after_absent (T : list (string * list string)) (t : text) (f : string)
    (old : option text) :
  f ∉ map fst T → field_after T t f old = old.
Proof.
  induction T as [|[k ps] T IH]; [done|]. simpl. intros Hf.
  apply not_elem_of_cons in Hf as [Hne Hf].
  destruct (String.eqb_spec k f) as [->|_]; [done|]. by apply IH.
Qed.

Lemma parse_fields_spec (T : list (string * list string)) (t : text) :
  NoDup (map fst T) → forallb (fun e => forallb pattern_ok (snd e)) T = true →
  ∀ info, ∃ info',
    parse_fields T t info = Ok info'
    ∧ ∀ f, f ∈ field_names → getattr info' f = field_after T t f (getattr info f).
Proof.
  induction T as [|[k ps] T IH]; intros Hnd Hok info.
  - exists info. by split.
  - simpl in *. apply NoDup_cons in Hnd as [Hk Hnd].
    apply andb_true_iff in Hok as [Hps Hok].
    rewrite (first_match_spec ps t Hps). simpl.
    destruct (IH Hnd Hok
                (match first_matching ps t with
                 | Some m => setattr info k (strip (default [] (group 1 m)))
                 | None => info
                 end)) as [info' [Hparse Hget]].
    exists info'. split.
    + rewrite <- Hparse. by destruct (first_matching ps t).
    + intros f Hf. rewrite (Hget f Hf).
      destruct (String.eqb_spec k f) as [->|Hne].
      * rewrite field_after_absent by done.
        destruct (first_matching ps t); [by apply getattr_setattr_eq|done].
      * f_equal. destruct (first_matching ps t); [by apply getattr_setattr_ne|done].
Qed.

Lemma field_after_spec (T : list (string * list string)) (t : text) (f : string) :
  field_after T t f (Some UNKNOWN) = Some (spec_field (patterns_of T f) t).
Proof.
  induction T as [|[k ps] T IH]; [done|]. simpl.
  destruct (String.eqb k f); [|done]. unfold spec_field. by destruct (first_matching ps t).
Qed.

Lemma getattr_init (f : string) :
  f ∈ field_names → getattr DefendantInfo_init f = Some UNKNOWN.
Proof.
  unfold field_names. rewrite !elem_of_cons, elem_of_nil.
  intros [->|[->|[->|[->|[->|[->|[->|[->|[]]]]]]]]]; reflexivity.
Qed.

(** The parser meets the contract, for every table that is in order. *)
Lemma parse_with_spec (T : list (string * list string)) (t : text) :
  table_ok T = true →
  ∃ info, parse_defendant_info_with T t = Ok info
          ∧ ∀ f, f ∈ field_names → getattr info f = Some (spec_field (patterns_of T f) t).
Proof.
  intros Hok. apply andb_true_iff in Hok as [Hnd Hok]. apply bool_decide_eq_true in Hnd.
  destruct (parse_fields_spec T t Hnd Hok DefendantInfo_init) as [info [Hparse Hget]].
  exists info. split; [done|]. intros f Hf.
  by rewrite (Hget f Hf), (getattr_init f Hf), field_after_spec.
Qed.

Abbreviation tables := [patterns_main; patterns_backup; patterns_enhanced].

Lemma tables_table_ok (T : list (string * list string)) : T ∈ tables → table_ok T = true.
Proof.
  destruct tables_ok as [H1 [H2 H3]].
  rewrite !elem_of_cons, elem_of_nil. by intros [->|[->|[->|[]]]].
Qed.

(** C6. For every text, the parser of [main.py], [main_backup.py] and
    [main_enhanced.py] returns a record (it does not raise) in which each of
    the eight fields holds the stripped captured group of the first pattern,
    in the order of the field's list, that matches somewhere in the text
    case-insensitively, or ["UNKNOWN"] when no pattern of the field matches
    (or the table has no patterns for it).  The value of a field is a function
    of the text and of that field's pattern list alone: any table in order
    that has the same list for the field gives the field the same value,
    whatever its other entries. *)
Theorem parse_first_match (t : text) (T : list (string * list string)) :
  T ∈ tables →
  ∃ info,
    parse_defendant_info_with T t = Ok info
    ∧ (∀ f, f ∈ field_names → getattr info f = Some (spec_field (patterns_of T f) t))
    ∧ (∀ T' info' f,
         table_ok T' = true → parse_defendant_info_with T' t = Ok info' →
         f ∈ field_names → patterns_of T' f = patterns_of T f →
         getattr info' f = getattr info f).
Proof.
  intros HT. destruct (parse_with_spec T t (tables_table_ok T HT)) as [info [Hparse Hget]].
  exists info. repeat split; [done|done|].
  intros T' info' f HT' Hparse' Hf Hsame.
  destruct (parse_with_spec T' t HT') as [info'' [Hparse'' Hget'']].
  rewrite Hparse' in Hparse''. injection Hparse'' as <-.
  by rewrite (Hget f Hf), (Hget'' f Hf), Hsame.
Qed.

Lemma parse_first_match_witness :
  ∃ info,
    parse_defendant_info (lit "Defendant: Maria Rodriguez, Case No: 1:20-cr-00456-DEF")
    = Ok info
    ∧ (∀ f, f ∈ field_names →
       getattr info f
       = Some (spec_field (patterns_of patterns_main f)
                 (lit "Defendant: Maria Rodriguez, Case No: 1:20-cr-00456-DEF")))
    ∧ (∀ T' info' f,
         table_ok T' = true →
         parse_defendant_info_with T'
           (lit "Defendant: Maria Rodriguez, Case No: 1:20-cr-00456-DEF") = Ok info' →
         f ∈ field_names → patterns_of T' f = patterns_of patterns_main f →
         getattr info' f = getattr info f).
Proof.
  apply (parse_first_match
           (lit "Defendant: Maria Rodriguez, Case No: 1:20-cr-00456-DEF") patterns_main).
  apply list_elem_of_here.
Defined.

Example parse_sample_text :
  parse_defendant_info_backup
    (lit "Defendant: Maria Rodriguez, Case No: 1:20-cr-00456-DEF, served 42 months")
  = Ok {| name := lit "Maria Rodriguez"; case_number := lit "1:20-cr-00456";
          district := UNKNOWN; sentence_months := UNKNOWN; months_served := lit "42";
          credits_lost := UNKNOWN; original_release_date := UNKNOWN;
          new_release_date := UNKNOWN |}.
Proof. vm_compute. reflexivity. Qed.

Lemma first_matching_none (ps : list string) (t : text) :
  forallb (fun p => negb (bool_decide (is_Some (matching t p)))) ps = true →
  first_matching ps t = None.
Proof.
  induction ps as [|p ps IH]; [done|]. simpl. intros H.
  apply andb_true_iff in H as [Hp Hps]. rewrite first_matching_cons.
  apply negb_true_iff, bool_decide_eq_false in Hp.
  destruct (matching t p); [|by apply IH]. destruct Hp. by eexists.
Qed.

Lemma parse_fields_no_match (T : list (string * list string)) (t : text) :
  forallb (fun e => forallb pattern_ok (snd e)) T = true →
  no_pattern_matches T t = true →
  ∀ info, parse_fields T t info = Ok info.
Proof.
  induction T as [|[k ps] T IH]; intros Hok Hno info; [done|].
  simpl in *. apply andb_true_iff in Hok as [Hps Hok].
  apply andb_true_iff in Hno as [Hnps Hno].
  rewrite (first_match_spec ps t Hps), (first_matching_none ps t Hnps). simpl.
  by apply IH.
Qed.

(** C7. For every text in which no pattern of any field matches, the parser
    ([main.py], [main_backup.py], [main_enhanced.py]) returns the record in
    which each of the eight fields is the sentinel ["UNKNOWN"]. *)
Theorem parse_no_match (t : text) (T : list (string * list string)) :
  T ∈ tables →
  no_pattern_matches T t = true →
  parse_defendant_info_with T t
  = Ok {| name := lit "UNKNOWN"; case_number := lit "UNKNOWN"; district := lit "UNKNOWN";
          sentence_months := lit "UNKNOWN"; months_served := lit "UNKNOWN";
          credits_lost := lit "UNKNOWN"; original_release_date := lit "UNKNOWN";
          new_release_date := lit "UNKNOWN" |}.
Proof.
  intros HT Hno. pose proof (tables_table_ok T HT) as Hok.
  apply andb_true_iff in Hok as [_ Hok].
  by apply (parse_fields_no_match T t Hok Hno).
Qed.

Lemma parse_no_match_witness :
  parse_defendant_info_backup (lit "Quarterly report: nothing to declare.")
  = Ok {| name := lit "UNKNOWN"; case_number := lit "UNKNOWN"; district := lit "UNKNOWN";
          sentence_months := lit "UNKNOWN"; months_served := lit "UNKNOWN";
          credits_lost := lit "UNKNOWN"; original_release_date := lit "UNKNOWN";
          new_release_date := lit "UNKNOWN" |}.
Proof.
  apply (parse_no_match (lit "Quarterly report: nothing to declare.") patterns_backup).
  - apply list_elem_of_further, list_elem_of_here.
  - vm_compute. reflexivity.
Defined.

(** *** The case number *)

Definition CASE_PATTERN : string :=
  "(?:case\s+(?:no|number)[\.\:]?\s*)([0-9]{1,2}:[0-9]{2}[-cr]+[0-9]+)".

Definition CASE_NO : text := lit "Case No: 1:20-cr-00456-DEF".

(** [re.compile(pattern, re.IGNORECASE).match(t, i) is not None]. *)
Definition matches_at (pattern : string) (t : text) (i : nat) : bool :=
  match compile pattern with
  | Ok r =>
      match ways IGNORECASE r (drop i t) ∅ with
      | [] => false
      | _ :: _ => true
      end
  | Raise _ => false
  end.

Definition r_case : re :=
  Eval vm_compute in match compile CASE_PATTERN with Ok r => r | Raise _ => Eps end.

Lemma compile_case : compile CASE_PATTERN = Ok r_case.
Proof. vm_compute. reflexivity. Qed.

Lemma case_no_head (post : text) :
  ∃ w l, ways IGNORECASE r_case (CASE_NO ++ post) ∅ = w :: l
         ∧ groups w !! 1 = Some (lit "1:20-cr-00456").
Proof.
  eexists _, _. split.
  - vm_compute. reflexivity.
  - vm_compute. reflexivity.
Qed.

Lemma search_from_skip (fl : flags) (r : re) (pre rest : text) :
  ∀ pos,
    (∀ i, i < length pre → ways fl r (drop i (pre ++ rest)) ∅ = []) →
    search_from fl r pos (pre ++ rest) = search_from fl r (pos + length pre) rest.
Proof.
  induction pre as [|x pre IH]; intros pos Hno.
  - simpl. by rewrite Nat.add_0_r.
  - assert (H0 := Hno 0 ltac:(simpl; lia)). simpl in H0.
    simpl. unfold match_here. rewrite H0.
    rewrite IH; [f_equal; lia|].
    intros i Hi. apply (Hno (S i)). simpl. lia.
Qed.

Lemma case_tables (T : list (string * list string)) :
  T ∈ tables → ∃ ps, patterns_of T "case_number" = CASE_PATTERN :: ps.
Proof.
  rewrite !elem_of_cons, elem_of_nil. intros [->|[->|[->|[]]]]; eexists; reflexivity.
Qed.

Lemma search_from_unfold (fl : flags) (r : re) (pos : nat) (s : text) :
  search_from fl r pos s
  = match match_here fl r pos s with
    | Some m => Some m
    | None => match s with [] => None | _ :: s' => search_from fl r (S pos) s' end
    end.
Proof. by destruct s. Qed.

Lemma search_case_no (post : text) (pos : nat) :
  ∃ mo, search_from IGNORECASE r_case pos (CASE_NO ++ post) = Some mo
        ∧ group 1 mo = Some (lit "1:20-cr-00456").
Proof.
  destruct (case_no_head post) as [w [l [Hw Hg]]].
  rewrite search_from_unfold. unfold match_here. rewrite Hw.
  eexists. split; [reflexivity|exact Hg].
Qed.

Lemma matching_case (t : text) : matching t CASE_PATTERN = search IGNORECASE r_case t.
Proof.
  unfold matching, re_search. rewrite compile_case. unfold mbind, exc_bind.
  by destruct (search IGNORECASE r_case t).
Qed.

(** C4 (as amended).  For a text that contains ["Case No:
    1:20-cr-00456-DEF"], and in which the first case-number pattern has no
    match that begins before that substring, the parser ([main.py],
    [main_backup.py], [main_enhanced.py]) sets [case_number] to
    ["1:20-cr-00456"]: the pattern ends with the digits, so the suffix
    ["-DEF"] is not part of the captured group. *)
Theorem parse_case_number (pre post : text) (T : list (string * list string)) :
  T ∈ tables →
  (∀ i, i < length pre → matches_at CASE_PATTERN (pre ++ CASE_NO ++ post) i = false) →
  ∃ info, parse_defendant_info_with T (pre ++ CASE_NO ++ post) = Ok info
          ∧ case_number info = lit "1:20-cr-00456".
Proof.
  intros HT Hpre. remember (pre ++ CASE_NO ++ post) as t eqn:Ht.
  destruct (parse_with_spec T t (tables_table_ok T HT)) as [info [Hparse Hget]].
  exists info. split; [done|].
  assert (Hcn : "case_number"%string ∈ field_names).
  { apply list_elem_of_further, list_elem_of_here. }
  specialize (Hget _ Hcn). destruct (case_tables T HT) as [ps Hps].
  rewrite Hps in Hget.
  change (getattr info "case_number") with (Some (case_number info)) in Hget.
  apply (inj Some) in Hget. rewrite Hget.
  unfold spec_field. rewrite first_matching_cons, matching_case. unfold search.
  rewrite Ht, (search_from_skip IGNORECASE r_case pre (CASE_NO ++ post) 0).
  - destruct (search_case_no post (0 + length pre)) as [mo [Hs Hg]].
    rewrite Hs, Hg. vm_compute. reflexivity.
  - intros i Hi. specialize (Hpre i Hi). unfold matches_at in Hpre.
    rewrite compile_case, Ht in Hpre.
    destruct (ways IGNORECASE r_case (drop i (pre ++ CASE_NO ++ post)) ∅);
      [reflexivity|discriminate Hpre].
Qed.

Lemma parse_case_number_witness :
  ∃ info,
    parse_defendant_info_with patterns_enhanced
      (lit "v. " ++ CASE_NO ++ lit " MARIA RODRIGUEZ, Defendant.") = Ok info
    ∧ case_number info = lit "1:20-cr-00456".
Proof.
  apply (parse_case_number (lit "v. ") (lit " MARIA RODRIGUEZ, Defendant.") patterns_enhanced).
  - apply list_elem_of_further, list_elem_of_further, list_elem_of_here.
  - intros i Hi. destruct i as [|[|[|i]]]; [vm_compute; reflexivity..|].
    simpl in Hi. lia.
Defined.

(** C4 as stated fails: on the text ["Case No: 1:20-cr-00456-DEF"] itself the
    three parsers set [case_number] to ["1:20-cr-00456"], which is not
    ["1:20-cr-00456-DEF"]. *)
Lemma parse_case_number_drops_suffix :
  (info ← parse_defendant_info CASE_NO; Ok (case_number info)) = Ok (lit "1:20-cr-00456")
  ∧ (info ← parse_defendant_info_backup CASE_NO; Ok (case_number info))
    = Ok (lit "1:20-cr-00456")
  ∧ (info ← parse_defendant_info_enhanced CASE_NO; Ok (case_number info))
    = Ok (lit "1:20-cr-00456")
  ∧ lit "1:20-cr-00456" ≠ lit "1:20-cr-00456-DEF".
Proof. repeat split; try (vm_compute; reflexivity). discriminate. Qed.

(** An earlier case number in the text is the one that is kept. *)
Example parse_case_number_takes_first :
  (info ← parse_defendant_info (lit "Case No: 2:19-cr-00007 (related) " ++ CASE_NO);
   Ok (case_number info))
  = Ok (lit "2:19-cr-00007").
Proof. vm_compute. reflexivity. Qed.

End ParserFacts.

(** ** The document splitter *)
Module SplitterFacts.
Import Re Splitter ReFacts.

(** *** Occurrences of a delimiter *)

Lemma starts_with_app (w s : text) : starts_with w (w ++ s) = true.
Proof.
  induction w as [|c w IH]; [done|]. simpl. by rewrite Ascii.eqb_refl.
Qed.

Lemma starts_with_split (w s : text) :
  starts_with w s = true → s = w ++ drop (length w) s.
Proof.
  revert s. induction w as [|c w IH]; intros s; [done|].
  destruct s as [|x s]; [done|]. simpl. intros H.
  apply andb_true_iff in H as [Hc Hw]. apply Ascii.eqb_eq in Hc as ->.
  f_equal. by apply IH.
Qed.

Lemma find_cons (w : text) (x : ascii) (s : text) :
  find w (x :: s) = if starts_with w (x :: s) then Some 0 else S <$> find w s.
Proof. done. Qed.

Lemma find_split (w s : text) (j : nat) :
  find w s = Some j → s = take j s ++ w ++ drop (j + length w) s.
Proof.
  revert j. induction s as [|x s IH]; intros j.
  - simpl. destruct (starts_with w []) eqn:Hw; [|done]. intros [= <-].
    simpl. by apply starts_with_split.
  - rewrite find_cons. destruct (starts_with w (x :: s)) eqn:Hw.
    + intros [= <-]. simpl. by apply (starts_with_split w (x :: s)).
    + destruct (find w s) as [j'|] eqn:Hf; [|done]. simpl. intros [= <-].
      simpl. f_equal. by apply IH.
Qed.

Lemma find_app_here (w s : text) : ∃ j, find w (w ++ s) = Some j.
Proof.
  destruct w as [|c w]; [by exists 0; destruct s|].
  exists 0. simpl. by rewrite Ascii.eqb_refl, starts_with_app.
Qed.

Lemma find_app_later (w pre s : text) :
  is_Some (find w s) → is_Some (find w (pre ++ s)).
Proof.
  intros Hs. induction pre as [|x pre IH]; [done|].
  change ((x :: pre) ++ s) with (x :: (pre ++ s)). rewrite find_cons.
  destruct (starts_with w _); [by eexists|].
  destruct IH as [j ->]. by eexists.
Qed.

(** *** The pattern [START(.*?)END] under [re.DOTALL] *)

Fixpoint prepend (w : text) (r : re) : re :=
  match w with
  | [] => r
  | c :: w' => Seq (Chr c) (prepend w' r)
  end.

Definition lazy_any : re := Rep false 0 None Any.

Definition delimited (START END : text) : re :=
  prepend START (Seq (Group 1 lazy_any) (Lit' END)).

(** [acc] in front of what a way has consumed. *)
Definition pre (acc : text) (w : way) : way :=
  {| consumed := acc ++ consumed w; rest := rest w; groups := groups w |}.

Definition setg (n : nat) (w : way) : way :=
  {| consumed := consumed w; rest := rest w; groups := <[n := consumed w]> (groups w) |}.

Lemma pre_nil (l : list way) : map (pre []) l = l.
Proof. induction l as [|[c r g] l IH]; [done|]. simpl. by rewrite IH. Qed.

Lemma then_eq (k : text -> gmap nat text -> list way) (w1 : way) :
  then_ k w1 = map (pre (consumed w1)) (k (rest w1) (groups w1)).
Proof. done. Qed.

Lemma ways_prepend (w : text) (r : re) : ∀ s g,
  ways DOTALL (prepend w r) s g
  = if starts_with w s then map (pre w) (ways DOTALL r (drop (length w) s) g) else [].
Proof.
  induction w as [|c w IH]; intros s g.
  - simpl. by rewrite pre_nil.
  - change (ways DOTALL (prepend (c :: w) r) s g)
      with (flat_map (then_ (ways DOTALL (prepend w r))) (one_char (chr_eq DOTALL c) s g)).
    destruct s as [|x s]; [done|].
    change (starts_with (c :: w) (x :: s)) with (Ascii.eqb c x && starts_with w s).
    unfold one_char. change (chr_eq DOTALL c x) with (Ascii.eqb c x).
    destruct (Ascii.eqb_spec c x) as [->|Hne]; [|done].
    cbn [flat_map andb]. rewrite app_nil_r, then_eq. cbn [consumed rest groups].
    rewrite IH. destruct (starts_with w s); [|done].
    rewrite map_map. apply map_ext. by intros [c0 r0 g0].
Qed.

Lemma ways_lit (e0 : ascii) (E : text) : ∀ s g,
  ways DOTALL (Lit' (e0 :: E)) s g
  = if starts_with (e0 :: E) s
    then [ {| consumed := e0 :: E; rest := drop (length (e0 :: E)) s; groups := g |} ]
    else [].
Proof.
  revert e0. induction E as [|e1 E IH]; intros e0 s g.
  - change (ways DOTALL (Lit' [e0]) s g) with (one_char (chr_eq DOTALL e0) s g).
    destruct s as [|x s]; [done|]. unfold one_char.
    change (chr_eq DOTALL e0 x) with (Ascii.eqb e0 x).
    change (starts_with [e0] (x :: s)) with (Ascii.eqb e0 x && true).
    rewrite andb_true_r. by destruct (Ascii.eqb_spec e0 x) as [->|Hne].
  - change (ways DOTALL (Lit' (e0 :: e1 :: E)) s g)
      with (flat_map (then_ (ways DOTALL (Lit' (e1 :: E))))
              (one_char (chr_eq DOTALL e0) s g)).
    destruct s as [|x s]; [done|].
    change (starts_with (e0 :: e1 :: E) (x :: s))
      with (Ascii.eqb e0 x && starts_with (e1 :: E) s).
    unfold one_char. change (chr_eq DOTALL e0 x) with (Ascii.eqb e0 x).
    destruct (Ascii.eqb_spec e0 x) as [->|Hne]; [|done].
    cbn [flat_map andb]. rewrite app_nil_r, then_eq. cbn [consumed rest groups].
    rewrite IH. by destruct (starts_with (e1 :: E) s).
Qed.

(** The lazy star over any character offers the prefixes of the input,
    shortest first. *)
Lemma rep_lazy_nil (fuel : nat) (g : gmap nat text) :
  rep (ways DOTALL Any) false 0 None fuel [] g
  = [ {| consumed := []; rest := []; groups := g |} ].
Proof. by destruct fuel. Qed.

Lemma rep_lazy_cons (fuel : nat) (x : ascii) (s : text) (g : gmap nat text) :
  rep (ways DOTALL Any) false 0 None (S fuel) (x :: s) g
  = {| consumed := []; rest := x :: s; groups := g |}
    :: map (pre [x]) (rep (ways DOTALL Any) false 0 None fuel s g).
Proof.
  cbn [rep ways one_char DOTALL dotall orb flat_map consumed app pred fmap option_fmap
       option_map].
  by rewrite app_nil_r, then_eq.
Qed.

Section Block.
Variables (e0 : ascii) (E : text).
Abbreviation END := (e0 :: E).

(** The ways of [(.*?)END] when the star has already consumed [acc]. *)
Definition block_ways (acc : text) (fuel : nat) (s : text) (g : gmap nat text) : list way :=
  flat_map (then_ (ways DOTALL (Lit' END)))
    (map (setg 1) (map (pre acc) (rep (ways DOTALL Any) false 0 None fuel s g))).

Definition block_way (acc : text) (s : text) (g : gmap nat text) (j : nat) : way :=
  {| consumed := (acc ++ take j s) ++ END;
     rest := drop (length END) (drop j s);
     groups := <[1 := acc ++ take j s]> g |}.

Lemma block_ways_head (s : text) (g : gmap nat text) : ∀ acc fuel,
  length s ≤ fuel →
  head (block_ways acc fuel s g) = block_way acc s g <$> find END s.
Proof.
  induction s as [|x s IH]; intros acc fuel Hfuel.
  - unfold block_ways. rewrite rep_lazy_nil. cbn [map flat_map]. rewrite then_eq.
    cbn [consumed rest groups setg pre]. rewrite ways_lit. done.
  - destruct fuel as [|fuel]; [simpl in Hfuel; lia|].
    unfold block_ways. rewrite rep_lazy_cons. cbn [map flat_map]. rewrite then_eq.
    cbn [consumed rest groups setg pre]. rewrite ways_lit, find_cons.
    destruct (starts_with END (x :: s)) eqn:Hst.
    + cbn [map app head fmap option_fmap option_map]. unfold block_way. by rewrite take_0, drop_0.
    + cbn [map app]. rewrite !map_map.
      rewrite (map_ext (fun w => setg 1 (pre acc (pre [x] w))) (fun w => setg 1 (pre (acc ++ [x]) w))).
      2: { intros [c0 r0 g0]. unfold setg, pre. cbn [consumed rest groups].
           by rewrite <- !app_assoc. }
      rewrite <- (map_map (pre (acc ++ [x])) (setg 1)).
      fold (block_ways (acc ++ [x]) fuel s g).
      rewrite IH by (simpl in Hfuel; lia).
      destruct (find END s) as [j|]; [|done].
      cbn [fmap option_fmap option_map]. f_equal. unfold block_way.
      cbn [take drop]. by rewrite <- !app_assoc.
Qed.

Lemma ways_block (s : text) (g : gmap nat text) :
  ways DOTALL (Seq (Group 1 lazy_any) (Lit' END)) s g = block_ways [] (length s) s g.
Proof.
  unfold block_ways.
  change (ways DOTALL (Seq (Group 1 lazy_any) (Lit' END)) s g)
    with (flat_map (then_ (ways DOTALL (Lit' END)))
            (map (setg 1) (rep (ways DOTALL Any) false 0 None (0 + length s) s g))).
  by rewrite pre_nil.
Qed.

Variable START : text.

(** [re.match] of the whole pattern at one position. *)
Definition block_here (s : text) : option text :=
  if starts_with START s
  then (fun j => take j (drop (length START) s)) <$> find END (drop (length START) s)
  else None.

Lemma match_here_block (pos : nat) (s : text) :
  group 1 <$> match_here DOTALL (delimited START END) pos s = Some <$> block_here s.
Proof.
  unfold match_here, delimited, block_here. rewrite ways_prepend.
  destruct (starts_with START s); [|done].
  rewrite ways_block.
  pose proof (block_ways_head (drop (length START) s) ∅ [] _ (le_n _)) as Hhead.
  destruct (block_ways [] _ _ _) as [|w l]; simpl in Hhead.
  - by destruct (find END _).
  - destruct (find END _) as [j|]; [|done].
    cbn [fmap option_fmap option_map] in Hhead. injection Hhead as Hw. subst w.
    cbn [map fmap option_fmap option_map]. f_equal.
Qed.

(** The leftmost block: group 1 of [re.search]. *)
Fixpoint find_block (s : text) : option text :=
  match block_here s with
  | Some b => Some b
  | None =>
      match s with
      | [] => None
      | _ :: s' => find_block s'
      end
  end.

Lemma search_from_block (s : text) : ∀ pos,
  group 1 <$> search_from DOTALL (delimited START END) pos s = Some <$> find_block s.
Proof.
  induction s as [|x s IH]; intros pos.
  - pose proof (match_here_block pos []) as H. simpl.
    destruct (match_here _ _ _ _); destruct (block_here []); done.
  - pose proof (match_here_block pos (x :: s)) as H.
    cbn [search_from find_block].
    destruct (match_here _ _ _ _); destruct (block_here (x :: s)); done.
Qed.

(** *** What the leftmost block is *)

Lemma find_block_sound (s b : text) :
  find_block s = Some b → ∃ pr po, s = pr ++ START ++ b ++ END ++ po.
Proof.
  induction s as [|x s IH]; cbn [find_block]; unfold block_here.
  - destruct (starts_with START []) eqn:Hst; [|done].
    destruct (find END (drop (length START) [])) as [j|] eqn:Hj; [|done].
    intros [= <-]. exists [], (drop (j + length END) (drop (length START) [])).
    rewrite (starts_with_split _ _ Hst) at 1. cbn [app]. f_equal.
    exact (find_split END _ j Hj).
  - destruct (starts_with START (x :: s)) eqn:Hst.
    + destruct (find END (drop (length START) (x :: s))) as [j|] eqn:Hj.
      * intros [= <-]. exists [], (drop (j + length END) (drop (length START) (x :: s))).
        rewrite (starts_with_split _ _ Hst) at 1. cbn [app]. f_equal.
        exact (find_split END _ j Hj).
      * cbn [fmap option_fmap option_map]. intros Hb.
        destruct (IH Hb) as [pr [po ->]]. by exists (x :: pr), po.
    + intros Hb. destruct (IH Hb) as [pr [po ->]]. by exists (x :: pr), po.
Qed.

Lemma find_prefix_false (w s : text) (n : nat) :
  find w s = Some (S n) →
  starts_with w s = false ∧ ∃ x s', s = x :: s' ∧ find w s' = Some n.
Proof.
  destruct s as [|x s].
  - simpl. by destruct (starts_with w []).
  - rewrite find_cons. destruct (starts_with w (x :: s)); [done|].
    destruct (find w s) as [j|] eqn:Hf; [|done]. intros [= ->]. split; [done|].
    by exists x, s.
Qed.

Lemma find_block_unfold (s : text) :
  find_block s
  = match block_here s with
    | Some b => Some b
    | None => match s with [] => None | _ :: s' => find_block s' end
    end.
Proof. by destruct s. Qed.

Lemma block_here_app (u : text) :
  block_here (START ++ u) = (fun j => take j u) <$> find END u.
Proof. unfold block_here. by rewrite starts_with_app, drop_app_length. Qed.

Lemma find_block_first (pr b po : text) :
  find START (pr ++ START ++ b ++ END ++ po) = Some (length pr) →
  find END (b ++ END ++ po) = Some (length b) →
  find_block (pr ++ START ++ b ++ END ++ po) = Some b.
Proof.
  intros Hs He. induction pr as [|x pr IH].
  - rewrite app_nil_l, find_block_unfold, block_here_app, He.
    cbn [fmap option_fmap option_map]. by rewrite take_app_length.
  - change ((x :: pr) ++ START ++ b ++ END ++ po)
      with (x :: (pr ++ START ++ b ++ END ++ po)) in *.
    destruct (find_prefix_false _ _ _ Hs) as [Hst [x' [s' [Heq Hs']]]].
    injection Heq as <- <-.
    rewrite find_block_unfold. unfold block_here. rewrite Hst. by apply IH.
Qed.

End Block.

Lemma extract_spec (pattern placeholder : string) (START : text) (e0 : ascii) (E : text)
    (t : text) :
  compile pattern = Ok (delimited START (e0 :: E)) →
  extract pattern placeholder t
  = Ok (match find_block e0 E START t with
        | Some b => strip b
        | None => lit placeholder
        end).
Proof.
  intros Hc. unfold extract, re_search. rewrite Hc. unfold mbind, exc_bind, search.
  pose proof (search_from_block e0 E START t 0) as H.
  destruct (search_from DOTALL (delimited START (e0 :: E)) 0 t) as [mo|];
    destruct (find_block e0 E START t) as [b|]; try done.
  cbn [fmap option_fmap option_map] in H. injection H as ->. done.
Qed.

(** The three documents with their delimiters and placeholders. *)
Inductive doc := Motion | Memo | Declaration.

Definition start_of (d : doc) : text :=
  match d with
  | Motion => lit "===MOTION START==="
  | Memo => lit "===MEMO START==="
  | Declaration => lit "===DECL START==="
  end.

Definition end_of (d : doc) : text :=
  match d with
  | Motion => lit "===MOTION END==="
  | Memo => lit "===MEMO END==="
  | Declaration => lit "===DECL END==="
  end.

Definition placeholder_of (d : doc) : text :=
  match d with
  | Motion => lit "Motion could not be generated with O3 reasoning"
  | Memo => lit "Memo could not be generated with O3 reasoning"
  | Declaration => lit "Declaration could not be generated with O3 reasoning"
  end.

Definition field_of (d : doc) (docs : documents) : text :=
  match d with
  | Motion => motion docs
  | Memo => memo docs
  | Declaration => declaration docs
  end.

(** The pair of [d] is well formed in [content] around [b]: the first
    [START] of the text is followed by [b] and the first [END] after it. *)
Definition well_formed (d : doc) (content p b q : text) : Prop :=
  content = p ++ start_of d ++ b ++ end_of d ++ q
  ∧ find (start_of d) content = Some (length p)
  ∧ find (end_of d) (b ++ end_of d ++ q) = Some (length b).

(** The pair of [d] is missing or malformed: no [START] of the text is
    followed by an [END]. *)
Definition malformed (d : doc) (content : text) : Prop :=
  ¬ ∃ p b q, content = p ++ start_of d ++ b ++ end_of d ++ q.

Definition block_of (d : doc) (content : text) : option text :=
  match d with
  | Motion => find_block "=" (lit "==MOTION END===") (lit "===MOTION START===") content
  | Memo => find_block "=" (lit "==MEMO END===") (lit "===MEMO START===") content
  | Declaration => find_block "=" (lit "==DECL END===") (lit "===DECL START===") content
  end.

Lemma split_documents_blocks (content : text) :
  split_documents content
  = Ok {| motion := match block_of Motion content with
                    | Some b => strip b
                    | None => placeholder_of Motion
                    end;
          memo := match block_of Memo content with
                  | Some b => strip b
                  | None => placeholder_of Memo
                  end;
          declaration := match block_of Declaration content with
                         | Some b => strip b
                         | None => placeholder_of Declaration
                         end |}.
Proof.
  unfold split_documents.
  rewrite (extract_spec MOTION_PATTERN _ (lit "===MOTION START===") "="
             (lit "==MOTION END===")) by (vm_compute; reflexivity).
  rewrite (extract_spec MEMO_PATTERN _ (lit "===MEMO START===") "="
             (lit "==MEMO END===")) by (vm_compute; reflexivity).
  rewrite (extract_spec DECL_PATTERN _ (lit "===DECL START===") "="
             (lit "==DECL END===")) by (vm_compute; reflexivity).
  reflexivity.
Qed.

Lemma block_of_well_formed (d : doc) (content p b q : text) :
  well_formed d content p b q → block_of d content = Some b.
Proof.
  intros [-> [Hs He]]. destruct d; by apply find_block_first.
Qed.

Lemma block_of_malformed (d : doc) (content : text) :
  malformed d content → block_of d content = None.
Proof.
  intros Hm. destruct (block_of d content) as [b|] eqn:Hb; [|done].
  destruct Hm. destruct d; apply find_block_sound in Hb as [pr [po ->]]; by exists pr, b, po.
Qed.

Lemma find_block_complete (e0 : ascii) (E START : text) (p b q : text) :
  is_Some (find_block e0 E START (p ++ START ++ b ++ (e0 :: E) ++ q)).
Proof.
  induction p as [|x p IH].
  - rewrite app_nil_l, find_block_unfold, block_here_app.
    destruct (find_app_later (e0 :: E) b ((e0 :: E) ++ q)) as [j ->];
      [apply find_app_here|]. by eexists.
  - change ((x :: p) ++ START ++ b ++ (e0 :: E) ++ q)
      with (x :: (p ++ START ++ b ++ (e0 :: E) ++ q)).
    rewrite find_block_unfold. destruct (block_here _ _ _ _); [by eexists|done].
Qed.

(** Whether a pair is malformed can be computed. *)
Lemma malformed_iff (d : doc) (content : text) :
  malformed d content ↔ block_of d content = None.
Proof.
  split; [apply block_of_malformed|].
  intros Hb [p [b [q ->]]].
  destruct d; simpl in Hb;
    [destruct (find_block_complete "=" (lit "==MOTION END===") (lit "===MOTION START===") p b q)
       as [x Hx]
    |destruct (find_block_complete "=" (lit "==MEMO END===") (lit "===MEMO START===") p b q)
       as [x Hx]
    |destruct (find_block_complete "=" (lit "==DECL END===") (lit "===DECL START===") p b q)
       as [x Hx]];
    simpl in Hx; congruence.
Qed.

(** C5. For every response the splitter of [main.py] and [main_o3.py]
    returns three documents and raises nothing.  For each document: when its
    delimiter pair is well formed around a body, the document is that body,
    verbatim up to the trimming of white space at both ends; when the pair is
    missing or malformed, the document is the placeholder text of the source.
    A response with three well-formed pairs therefore yields the three
    bodies. *)
Theorem split_documents_spec (content : text) :
  ∃ docs,
    split_documents content = Ok docs
    ∧ ∀ d,
        (∀ p b q, well_formed d content p b q → field_of d docs = strip b)
        ∧ (malformed d content → field_of d docs = placeholder_of d).
Proof.
  eexists. split; [apply split_documents_blocks|].
  intros d. split.
  - intros p b q Hwf. destruct d; cbn [field_of motion memo declaration];
      by rewrite (block_of_well_formed _ _ _ _ _ Hwf).
  - intros Hm. destruct d; cbn [field_of motion memo declaration];
      by rewrite (block_of_malformed _ _ Hm).
Qed.

Lemma split_documents_total (content : text) : ∃ docs, split_documents content = Ok docs.
Proof. eexists. apply split_documents_blocks. Qed.

(** A response with a well-formed motion and memorandum and a declaration
    whose end delimiter is missing. *)
Definition sample_response : text :=
  lit "Here are the documents. ===MOTION START=== MOTION FOR RELEASE ===MOTION END==="
  ++ lit "===MEMO START===Memorandum===MEMO END=== ===DECL START=== I declare".

Lemma split_documents_witness :
  ∃ docs,
    split_documents sample_response = Ok docs
    ∧ motion docs = lit "MOTION FOR RELEASE"
    ∧ memo docs = lit "Memorandum"
    ∧ declaration docs = lit "Declaration could not be generated with O3 reasoning".
Proof.
  destruct (split_documents_spec sample_response) as [docs [Hsplit Hdocs]].
  exists docs. split; [exact Hsplit|]. repeat split.
  - destruct (Hdocs Motion) as [Hwf _].
    change (motion docs) with (field_of Motion docs).
    rewrite (Hwf (lit "Here are the documents. ") (lit " MOTION FOR RELEASE ")
               (lit "===MEMO START===Memorandum===MEMO END=== ===DECL START=== I declare")).
    + vm_compute. reflexivity.
    + repeat split; vm_compute; reflexivity.
  - destruct (Hdocs Memo) as [Hwf _].
    change (memo docs) with (field_of Memo docs).
    rewrite (Hwf
               (lit "Here are the documents. ===MOTION START=== MOTION FOR RELEASE ===MOTION END===")
               (lit "Memorandum") (lit " ===DECL START=== I declare")).
    + vm_compute. reflexivity.
    + repeat split; vm_compute; reflexivity.
  - destruct (Hdocs Declaration) as [_ Hmal].
    change (declaration docs) with (field_of Declaration docs). apply Hmal.
    apply malformed_iff. vm_compute. reflexivity.
Defined.

(** A second [START] before the first [END] is part of the body; an [END]
    that only precedes the [START] leaves the placeholder. *)
Example split_documents_edge_cases :
  split_documents (lit "===MOTION START===a===MOTION START===b===MOTION END===")
  = Ok {| motion := lit "a===MOTION START===b";
          memo := lit "Memo could not be generated with O3 reasoning";
          declaration := lit "Declaration could not be generated with O3 reasoning" |}
  ∧ split_documents (lit "===MEMO END=== text ===MEMO START===")
    = Ok {| motion := lit "Motion could not be generated with O3 reasoning";
            memo := lit "Memo could not be generated with O3 reasoning";
            declaration := lit "Declaration could not be generated with O3 reasoning" |}.
Proof. split; vm_compute; reflexivity. Qed.

End SplitterFacts.

(** ** The orchestrators: what a run writes, and in which order *)
Module OrchestratorFacts.
Import Json Bus Parser Splitter WebSearch Orchestrator.

(** The writes to the session store among the effects of a run. *)
Definition store_ops (t : list effect) : list store_op :=
  omap (fun x => match x with Store o => Some o | _ => None end) t.

(** An effect of the body of a run on session [sid]: an append to its log,
    or something that is not a write to the store. *)
Definition benign (sid : string) (x : effect) : Prop :=
  match x with
  | Store (OpAppend s _) => s = sid
  | Store _ => False
  | _ => True
  end.

(** The events that report progress. *)
Definition progress_event (e : event) : Prop :=
  ev_type e = lit "thinking" ∨ ev_type e = lit "search".

(** An effect of the part of a run that an exception can interrupt: a
    request to the model, a search, or a [thinking] or [search] event
    appended to the log of [sid]. *)
Definition quiet (sid : string) (x : effect) : Prop :=
  match x with
  | Store (OpAppend s e) => s = sid ∧ progress_event e
  | Request _ | Search _ _ => True
  | _ => False
  end.

Lemma quiet_benign (sid : string) (x : effect) : quiet sid x → benign sid x.
Proof. destruct x as [[s|s e|s]| | | |]; simpl; tauto. Qed.

(** [m] only adds effects that satisfy [P] to the trace. *)
Definition emits (P : effect -> Prop) {A : Type} (m : io A) : Prop :=
  ∀ s, ∃ t, trace (snd (m s)) = trace s ++ t ∧ Forall P t.

Section Emits.
Context (P : effect -> Prop).

Lemma emits_ret {A : Type} (a : A) : emits P (mret a).
Proof. intros s. exists []. by rewrite app_nil_r. Qed.

Lemma emits_raise {A : Type} (e : text) : emits P (@raise A e).
Proof. intros s. exists []. by rewrite app_nil_r. Qed.

Lemma emits_out_of_fuel {A : Type} : emits P (@out_of_fuel A).
Proof. intros s. exists []. by rewrite app_nil_r. Qed.

Lemma emits_emit (x : effect) : P x → emits P (emit x).
Proof. intros Hx s. exists [x]. split; [done|]. by constructor. Qed.

Lemma emits_bind {A B : Type} (m : io A) (k : A -> io B) :
  emits P m → (∀ a, emits P (k a)) → emits P (m ≫= k).
Proof.
  intros Hm Hk s. unfold mbind, io_bind.
  destruct (Hm s) as [t1 [H1 HP1]].
  destruct (m s) as [[a|e|] s1]; simpl in *.
  - destruct (Hk a s1) as [t2 [H2 HP2]]. exists (t1 ++ t2).
    rewrite H2, H1, app_assoc. split; [done|]. by apply Forall_app.
  - by exists t1.
  - by exists t1.
Qed.

Lemma emits_try {A : Type} (m : io A) (h : text -> io A) :
  emits P m → (∀ e, emits P (h e)) → emits P (try_except m h).
Proof.
  intros Hm Hh s. unfold try_except.
  destruct (Hm s) as [t1 [H1 HP1]].
  destruct (m s) as [[a|e|] s1]; simpl in *.
  - by exists t1.
  - destruct (Hh e s1) as [t2 [H2 HP2]]. exists (t1 ++ t2).
    rewrite H2, H1, app_assoc. split; [done|]. by apply Forall_app.
  - by exists t1.
Qed.

Lemma emits_lift {A : Type} (x : exc A) : emits P (lift x).
Proof. destruct x; [apply emits_ret | apply emits_raise]. Qed.

End Emits.

Lemma emits_weaken (P Q : effect -> Prop) {A : Type} (m : io A) :
  (∀ x, P x → Q x) → emits P m → emits Q m.
Proof.
  intros HPQ Hm s. destruct (Hm s) as [t [Ht HP]]. exists t. split; [done|].
  by apply (Forall_impl P).
Qed.

(** [m] returns, whatever the state, a value that satisfies [Q]. *)
Definition yields {A : Type} (Q : A -> Prop) (m : io A) : Prop :=
  ∀ s, ∃ a, fst (m s) = Val a ∧ Q a.

Lemma yields_ret {A : Type} (Q : A -> Prop) (a : A) : Q a → yields Q (mret a).
Proof. intros Ha s. by exists a. Qed.

Lemma yields_bind {A B : Type} (Q1 : A -> Prop) (Q2 : B -> Prop) (m : io A) (k : A -> io B) :
  yields Q1 m → (∀ a, Q1 a → yields Q2 (k a)) → yields Q2 (m ≫= k).
Proof.
  intros Hm Hk s. unfold mbind, io_bind.
  destruct (Hm s) as [a [Ha HQ]]. destruct (m s) as [r s1]. simpl in Ha. subst r.
  apply (Hk a HQ).
Qed.

Lemma yields_emit (x : effect) : yields (fun _ => True) (emit x).
Proof. intros s. by exists tt. Qed.

Ltac emits_step :=
  first
    [ apply emits_ret | apply emits_raise | apply emits_out_of_fuel | apply emits_lift
    | apply emits_emit; simpl; done
    | apply emits_bind; [|intros ?]
    | apply emits_try; [|intros ?] ].

Section Body.
Variable sid : string.
Variables key cx : text.

Lemma emits_append (e : event) : emits (benign sid) (append sid e).
Proof. by apply emits_emit. Qed.

Lemma emits_progress (e : event) : progress_event e → emits (quiet sid) (append sid e).
Proof. intros He. by apply emits_emit. Qed.

Lemma emits_render_all (docs : documents) : emits (benign sid) (render_all sid docs).
Proof. unfold render_all. repeat emits_step. Qed.

(** [main.py] *)
Lemma emits_await (fault : nat -> option text) : emits (quiet sid) (await_ fault).
Proof.
  intros s. exists []. rewrite app_nil_r. unfold await_. by destruct (fault _).
Qed.

Lemma emits_do_search (http : nat -> request -> http_outcome) (q : text) :
  emits (quiet sid) (do_search key cx http q).
Proof. intros s. exists [Search (JStr q) (JNum 3)]. split; [done|]. by constructor. Qed.

Lemma emits_stream_thinking (fault : nat -> option text) (chunks : list text) :
  emits (quiet sid) (stream_thinking fault sid chunks).
Proof.
  induction chunks as [|c chunks IH]; simpl; [apply emits_ret|].
  apply emits_bind; [apply emits_progress; by left|intros _].
  apply emits_bind; [apply emits_await|intros _]. done.
Qed.

Lemma emits_research (http : nat -> request -> http_outcome) (fault : nat -> option text)
    (queries : list text) :
  ∀ acc, emits (quiet sid) (research key cx http fault sid queries acc).
Proof.
  induction queries as [|q queries IH]; intros acc; simpl; [apply emits_ret|].
  apply emits_bind; [apply emits_progress; by left|intros _].
  apply emits_bind; [apply emits_await|intros _].
  apply emits_bind; [apply emits_do_search|intros results].
  apply emits_bind; [apply emits_progress; by right|intros _].
  apply emits_bind; [apply emits_await|intros _]. apply IH.
Qed.

Lemma emits_try_body http fault content (info : DefendantInfo) :
  emits (quiet sid) (try_body key cx http fault content info sid).
Proof.
  unfold try_body.
  apply emits_bind; [apply emits_stream_thinking|intros _].
  apply emits_bind; [apply emits_research|intros _].
  apply emits_bind; [apply emits_progress; by left|intros _]. apply emits_ret.
Qed.

Lemma emits_except_handler (info : DefendantInfo) (e : text) :
  emits (benign sid) (except_handler info sid e).
Proof.
  unfold except_handler. apply emits_bind; [apply emits_append|intros _]. apply emits_ret.
Qed.

(** Without an exception at an [await], the [try] block of [main.py] runs
    to its end for every behaviour of the search service. *)
Section NoFault.
Variable http : nat -> request -> http_outcome.
Variable fault : nat -> option text.
Hypothesis no_fault : ∀ n, fault n = None.

Lemma yields_await : yields (fun _ => True) (await_ fault).
Proof using no_fault. intros s. exists tt. unfold await_. by rewrite no_fault. Qed.

Lemma yields_stream_thinking (chunks : list text) :
  yields (fun _ => True) (stream_thinking fault sid chunks).
Proof using no_fault.
  induction chunks as [|c chunks IH]; simpl; [by apply yields_ret|].
  eapply yields_bind; [apply yields_emit|intros _ _].
  eapply yields_bind; [apply yields_await|intros _ _]. apply IH.
Qed.

Lemma yields_research (queries : list text) :
  ∀ acc, yields (fun _ => True) (research key cx http fault sid queries acc).
Proof using no_fault.
  induction queries as [|q queries IH]; intros acc; simpl; [by apply yields_ret|].
  eapply yields_bind; [apply yields_emit|intros _ _].
  eapply yields_bind; [apply yields_await|intros _ _].
  apply (yields_bind (fun _ => True)); [intros s; by eexists|intros results _].
  eapply yields_bind; [apply yields_emit|intros _ _].
  eapply yields_bind; [apply yields_await|intros _ _]. apply IH.
Qed.

Lemma yields_try_body content (info : DefendantInfo) :
  yields (eq (content info)) (try_body key cx http fault content info sid).
Proof using no_fault.
  unfold try_body.
  eapply yields_bind; [apply yields_stream_thinking|intros _ _].
  eapply yields_bind; [apply yields_research|intros _ _].
  eapply yields_bind; [apply yields_emit|intros _ _]. by apply yields_ret.
Qed.

End NoFault.

(** [main_o3.py] and [main_backup.py] *)
Section Loop.
Variable completion : nat -> text -> create_outcome.
Variable http : nat -> request -> http_outcome.

Lemma emits_create (model : string) : emits (quiet sid) (create completion model).
Proof.
  intros s. exists [Request (lit model)]. unfold create.
  destruct (completion _ _); simpl; (split; [done|by constructor]).
Qed.

Lemma emits_request (v : variant) : emits (quiet sid) (request_stream completion v).
Proof.
  destruct v; simpl; [apply emits_create|].
  apply emits_try; [apply emits_create|intros _; apply emits_create].
Qed.

Lemma emits_consume (v : variant) (cs : list (option choice)) (brk : option text) :
  ∀ full tcs, emits (quiet sid) (consume v sid cs brk full tcs).
Proof.
  induction cs as [|[c|] cs IH]; intros full tcs; simpl.
  - destruct brk; [apply emits_raise|apply emits_ret].
  - apply emits_bind.
    + destruct (delta_content c); [apply emits_ret|apply emits_progress; by left].
    + intros _. destruct (finish_reason c); [apply emits_ret|apply IH].
  - destruct v; [apply IH|apply emits_raise].
Qed.

Lemma emits_do_search_loop (v : variant) (q k : json) :
  emits (quiet sid) (do_search_loop key cx http v q k).
Proof.
  destruct v; simpl; [|apply emits_raise].
  intros s. exists [Search q k]. split; [done|]. by constructor.
Qed.

Lemma emits_is_web_search (v : variant) (tc : tool_call) :
  emits (quiet sid) (is_web_search v tc).
Proof.
  unfold is_web_search. destruct (tc_function tc); [|apply emits_raise|apply emits_ret].
  destruct v; [apply emits_ret|apply emits_raise].
Qed.

Lemma emits_handle_tool_calls (v : variant) (tcs : list tool_call) :
  ∀ msgs, emits (quiet sid) (handle_tool_calls key cx http v sid tcs msgs).
Proof.
  induction tcs as [|tc tcs IH]; intros msgs; simpl; [apply emits_ret|].
  apply emits_bind; [apply emits_is_web_search|intros [fn|]]; [|apply IH].
  apply emits_bind; [apply emits_lift|intros args].
  apply emits_bind; [apply emits_lift|intros q].
  apply emits_bind; [apply emits_lift|intros k].
  apply emits_bind; [apply emits_do_search_loop|intros results].
  apply emits_bind; [apply emits_progress; by right|intros _]. apply IH.
Qed.

Lemma emits_loop (v : variant) (fuel : nat) :
  ∀ msgs, emits (quiet sid) (loop key cx completion http v fuel sid msgs).
Proof.
  induction fuel as [|fuel IH]; intros msgs; simpl; [apply emits_out_of_fuel|].
  apply emits_bind; [apply emits_request|intros response].
  apply emits_bind; [apply emits_consume|intros [full tcs]].
  destruct tcs as [|tc tcs].
  - destruct (has_final_documents full); [apply emits_ret|].
    destruct (25 <? _); [apply emits_ret|apply IH].
  - apply emits_bind; [apply emits_handle_tool_calls|intros msgs']. apply IH.
Qed.

Lemma emits_guarded_loop system_prompt (v : variant) (fuel : nat) (info : DefendantInfo) :
  emits (benign sid) (guarded_loop key cx completion http system_prompt v fuel info sid).
Proof.
  unfold guarded_loop. apply emits_try.
  - apply emits_bind; [|intros msgs; apply emits_ret].
    apply (emits_weaken (quiet sid)); [apply quiet_benign|apply emits_loop].
  - intros e. apply emits_bind; [apply emits_append|intros _]. apply emits_ret.
Qed.

End Loop.

(** A run ends with the write of the completed status, or without it. *)
Definition finishes {A : Type} (m : io A) : Prop :=
  ∀ s, ∃ t (fin : bool),
    trace (snd (m s))
    = trace s ++ t ++ (if fin then [Store (OpComplete sid)] else [])
    ∧ Forall (benign sid) t.

Lemma finishes_emits {A : Type} (m : io A) : emits (benign sid) m → finishes m.
Proof.
  intros Hm s. destruct (Hm s) as [t [Ht HP]]. exists t, false.
  by rewrite app_nil_r.
Qed.

Lemma finishes_bind {A B : Type} (m : io A) (k : A -> io B) :
  emits (benign sid) m → (∀ a, finishes (k a)) → finishes (m ≫= k).
Proof.
  intros Hm Hk s. unfold mbind, io_bind.
  destruct (Hm s) as [t1 [H1 HP1]].
  destruct (m s) as [[a|e|] s1]; simpl in *.
  - destruct (Hk a s1) as [t2 [fin [H2 HP2]]]. exists (t1 ++ t2), fin.
    rewrite H2, H1, !app_assoc. split; [done|]. by apply Forall_app.
  - exists t1, false. by rewrite app_nil_r.
  - exists t1, false. by rewrite app_nil_r.
Qed.

Lemma finishes_complete : finishes (emit (Store (OpComplete sid))).
Proof. intros s. exists [], true. done. Qed.

Lemma finishes_tail (archive prefix : string) (with_id : bool) (docs : exc documents) :
  finishes (docs ← lift docs;
            render_all sid docs;;
            emit (Zip sid (lit archive) pdf_names);;
            append sid (done_event prefix archive sid with_id);;
            emit (Store (OpComplete sid))).
Proof.
  apply finishes_bind; [apply emits_lift|intros d].
  apply finishes_bind; [apply emits_render_all|intros _].
  apply finishes_bind; [by apply emits_emit|intros _].
  apply finishes_bind; [apply emits_append|intros _].
  apply finishes_complete.
Qed.

Lemma finishes_main http fault content (info : DefendantInfo) :
  finishes (final_content ← try_except (try_body key cx http fault content info sid)
                                       (except_handler info sid);
            docs ← lift (split_documents final_content);
            render_all sid docs;;
            emit (Zip sid (lit "motion_packet.zip") pdf_names);;
            append sid (done_event "/api/download/" "motion_packet.zip" sid true);;
            emit (Store (OpComplete sid))).
Proof.
  apply finishes_bind.
  - apply emits_try; [|apply emits_except_handler].
    apply (emits_weaken (quiet sid)); [apply quiet_benign|apply emits_try_body].
  - intros final_content. apply finishes_tail.
Qed.

End Body.

(** *** The life of a session *)

(** One write respects the life cycle when, for every session of the store,
    the log afterwards extends the log before, a completed session stays
    completed, and the log of a completed session is unchanged. *)
Definition step_ok (s : gmap string session) (o : store_op) : Prop :=
  ∀ sid', log_of s sid' `prefix_of` log_of (apply_op s o) sid'
          ∧ (completed s sid' = true →
             completed (apply_op s o) sid' = true
             ∧ log_of (apply_op s o) sid' = log_of s sid').

Fixpoint lifecycle (s : gmap string session) (ops : list store_op) : Prop :=
  match ops with
  | [] => True
  | o :: ops' => step_ok s o ∧ lifecycle (apply_op s o) ops'
  end.

(** How often the status of [sid'] goes from active to completed. *)
Fixpoint transitions (sid' : string) (s : gmap string session) (ops : list store_op) : nat :=
  match ops with
  | [] => 0
  | o :: ops' =>
      (if negb (completed s sid') && completed (apply_op s o) sid' then 1 else 0)
      + transitions sid' (apply_op s o) ops'
  end.

Lemma step_ok_allowed (s : gmap string session) (o : store_op) :
  (∀ sid', BusFacts.append_allowed sid' s o = true) → step_ok s o.
Proof.
  intros Ha sid'. split.
  - destruct (BusFacts.log_of_apply_op s o sid') as [ext ->]. by exists ext.
  - intros Hc. split; [by apply BusFacts.completed_apply_op|].
    by apply BusFacts.log_of_apply_op_completed.
Qed.

Lemma transitions_completed (sid' : string) (ops : list store_op) :
  ∀ s, completed s sid' = true → transitions sid' s ops = 0.
Proof.
  induction ops as [|o ops IH]; intros s Hc; [done|]. simpl.
  rewrite Hc. simpl. apply IH. by apply BusFacts.completed_apply_op.
Qed.

Lemma transitions_le_1 (sid' : string) (ops : list store_op) :
  ∀ s, transitions sid' s ops ≤ 1.
Proof.
  induction ops as [|o ops IH]; intros s; simpl; [lia|].
  destruct (completed s sid') eqn:Hc; simpl; [apply IH|].
  destruct (completed (apply_op s o) sid') eqn:Hc'; [|apply IH].
  by rewrite transitions_completed.
Qed.

Lemma store_ops_app (t1 t2 : list effect) : store_ops (t1 ++ t2) = store_ops t1 ++ store_ops t2.
Proof. apply omap_app. Qed.

Lemma store_ops_cons (x : effect) (t : list effect) :
  store_ops (x :: t)
  = match x with Store o => o :: store_ops t | _ => store_ops t end.
Proof. by destruct x. Qed.

Lemma store_ops_benign (sid : string) (t : list effect) :
  Forall (benign sid) t → ∃ evs, store_ops t = OpAppend sid <$> evs.
Proof.
  induction 1 as [|x t Hx _ [evs IH]]; [by exists []|].
  rewrite store_ops_cons.
  destruct x as [[s|s e|s]| | | |]; simpl in Hx; try done; try by exists evs.
  subst. exists (e :: evs). by rewrite IH.
Qed.

(** The writes of a run that begins with the creation of the session and
    then [finishes]. *)
Lemma run_shape (sid : string) (m : io unit) :
  finishes sid m →
  ∃ evs (fin : bool),
    store_ops (trace (snd ((emit (Store (OpCreate sid));; m) st_init)))
    = OpCreate sid :: (OpAppend sid <$> evs) ++ (if fin then [OpComplete sid] else []).
Proof.
  intros Hm. unfold mbind, io_bind, emit. simpl.
  destruct (Hm {| trace := [Store (OpCreate sid)]; awaits := 0; calls := 0; searches := 0 |})
    as [t [fin [Ht HP]]].
  destruct (store_ops_benign sid t HP) as [evs Hevs].
  exists evs, fin. rewrite Ht. cbn [trace]. rewrite !store_ops_app, Hevs.
  by destruct fin.
Qed.

Lemma finishes_loop_run (sid : string) (key cx : text) completion http system_prompt
    (v : variant) (fuel : nat) (info : DefendantInfo) (archive : string)
    (split : text -> exc documents) :
  finishes sid
    (r ← guarded_loop key cx completion http system_prompt v fuel info sid;
     match r with
     | None => mret tt
     | Some messages =>
         docs ← lift (split (last_assistant_content (rev messages)));
         render_all sid docs;;
         emit (Zip sid (lit archive) pdf_names);;
         append sid (done_event "/download/" archive sid false);;
         emit (Store (OpComplete sid))
     end).
Proof.
  apply finishes_bind; [apply emits_guarded_loop|intros [messages|]].
  - apply finishes_tail.
  - apply finishes_emits, emits_ret.
Qed.

(** *** Runs of several sessions, interleaved *)

Definition op_sid (o : store_op) : string :=
  match o with
  | OpCreate s | OpAppend s _ | OpComplete s => s
  end.

(** The writes to session [sid] among [ops]. *)
Definition ops_on (sid : string) (ops : list store_op) : list store_op :=
  filter (fun o => op_sid o = sid) ops.

(** The writes of a run that has started: appends, then possibly the
    completion. *)
Definition tail_ops (sid : string) (ops : list store_op) : Prop :=
  ∃ evs (fin : bool), ops = (OpAppend sid <$> evs) ++ (if fin then [OpComplete sid] else []).

(** The trace of a run of one of the three orchestrators for [sid]. *)
Definition orchestrator_run (sid : string) (t : list effect) : Prop :=
  (∃ key cx http fault content info,
     t = trace (snd (generate_with_o3_research key cx http fault content info sid st_init)))
  ∨ (∃ key cx completion http system_prompt fuel info,
       t = trace (snd (generate_with_o3_research_o3 key cx completion http system_prompt
                         fuel info sid st_init)))
  ∨ (∃ key cx completion http system_prompt fuel info,
       t = trace (snd (generate_with_o3_research_backup key cx completion http system_prompt
                         fuel info sid st_init))).

Lemma orchestrator_run_shape (sid : string) (t : list effect) :
  orchestrator_run sid t → ∃ l, store_ops t = OpCreate sid :: l ∧ tail_ops sid l.
Proof.
  assert (Hshape : ∀ ops, (∃ evs (fin : bool),
             ops = OpCreate sid :: (OpAppend sid <$> evs)
                   ++ (if fin then [OpComplete sid] else [])) →
           ∃ l, ops = OpCreate sid :: l ∧ tail_ops sid l).
  { intros ops [evs [fin ->]]. eexists. split; [done|]. by exists evs, fin. }
  intros [H|[H|H]].
  - destruct H as (key & cx & http & fault & content & info & ->).
    apply Hshape, run_shape, finishes_main.
  - destruct H as (key & cx & completion & http & sp & fuel & info & ->).
    apply Hshape, run_shape, finishes_loop_run.
  - destruct H as (key & cx & completion & http & sp & fuel & info & ->).
    apply Hshape, run_shape, finishes_loop_run.
Qed.

Lemma tail_ops_prefix (sid : string) (l : list store_op) :
  ∀ l', tail_ops sid l → l' `prefix_of` l → tail_ops sid l'.
Proof.
  intros l' [evs [fin ->]]. revert l'.
  induction evs as [|e evs IH]; intros l' [k Hk]; simpl in Hk.
  - destruct l' as [|o l'].
    + by exists [], false.
    + destruct fin; [|done]. injection Hk as <- Hk.
      destruct l'; [|done]. by exists [], true.
  - destruct l' as [|o l'].
    + by exists [], false.
    + injection Hk as <- Hk.
      destruct (IH l') as [evs' [fin' ->]]; [by exists k|].
      by exists (e :: evs'), fin'.
Qed.

(** What is still to come for [sid] fits the state of its session. *)
Definition pending (s : gmap string session) (sid : string) (l : list store_op) : Prop :=
  match s !! sid with
  | None => l = [] ∨ ∃ l', l = OpCreate sid :: l' ∧ tail_ops sid l'
  | Some {| sess_status := Active |} => tail_ops sid l
  | Some {| sess_status := Completed |} => l = []
  end.

Lemma ops_on_cons (sid : string) (o : store_op) (ops : list store_op) :
  ops_on sid (o :: ops) = if decide (op_sid o = sid) then o :: ops_on sid ops else ops_on sid ops.
Proof. unfold ops_on. by rewrite filter_cons. Qed.

Lemma apply_op_other (s : gmap string session) (o : store_op) (sid : string) :
  op_sid o ≠ sid → apply_op s o !! sid = s !! sid.
Proof.
  intros Hne. destruct o as [s0|s0 e|s0]; simpl in *;
    destruct (s !! s0); try done; by rewrite lookup_insert_ne.
Qed.

Lemma lifecycle_interleaved (ops : list store_op) :
  ∀ s, (∀ sid, pending s sid (ops_on sid ops)) → lifecycle s ops.
Proof.
  induction ops as [|o ops IH]; intros s Hp; [done|].
  pose proof (Hp (op_sid o)) as Ho. rewrite ops_on_cons, decide_True in Ho by done.
  assert (Hstep : step_ok s o
                  ∧ pending (apply_op s o) (op_sid o) (ops_on (op_sid o) ops)).
  { remember (op_sid o) as sid0 eqn:Hsid0. remember (ops_on sid0 ops) as rest eqn:Hrest.
    clear Hp IH Hrest. unfold pending in Ho |- *.
    destruct (s !! sid0) as [[l []]|] eqn:Hs.
    - destruct Ho as [[|e evs] [fin Ho]]; simpl in Ho.
      + destruct fin; [|done]. injection Ho as Ho1 Ho2. subst o rest. split.
        * by apply step_ok_allowed.
        * simpl. rewrite Hs, lookup_insert_eq. done.
      + injection Ho as Ho1 Ho2. subst o rest. split.
        * apply step_ok_allowed. intros sid'. simpl. unfold completed.
          case_bool_decide; [subst; by rewrite Hs|done].
        * simpl. rewrite Hs, lookup_insert_eq. simpl. by exists evs, fin.
    - done.
    - destruct Ho as [Ho|[l' [Ho Ht]]]; [done|]. injection Ho as Ho1 Ho2. subst o rest.
      split.
      + by apply step_ok_allowed.
      + simpl. rewrite Hs, lookup_insert_eq. done. }
  destruct Hstep as [Hok Hpo]. split; [exact Hok|]. apply IH. intros sid.
  destruct (decide (op_sid o = sid)) as [<-|Hne]; [exact Hpo|].
  specialize (Hp sid). rewrite ops_on_cons, decide_False in Hp by done.
  unfold pending in *. by rewrite apply_op_other.
Qed.

(** C2. Take any number of runs of the orchestrators ([main.py],
    [main_o3.py], [main_backup.py]), each for a session identifier of its own
    that is not yet in the store, interleaved in any way and observed at any
    moment: [ops] is a sequence of writes whose part for each session is a
    prefix of the writes of one run.  Then every write respects the life
    cycle, for every session of the store: the log only grows by appending, a
    completed session stays completed (so its status changes from active to
    completed at most once), and nothing is appended to a session that is
    completed.  This holds for every behaviour of the model and search
    services and for every number of passes of the loops. *)
Theorem session_lifecycle (st0 : gmap string session) (ops : list store_op) :
  (∀ sid, ops_on sid ops = []
          ∨ (st0 !! sid = None
             ∧ ∃ t, orchestrator_run sid t ∧ ops_on sid ops `prefix_of` store_ops t)) →
  lifecycle st0 ops ∧ ∀ sid', transitions sid' st0 ops ≤ 1.
Proof.
  intros Hruns. split; [|intros sid'; apply transitions_le_1].
  apply lifecycle_interleaved. intros sid. unfold pending.
  destruct (Hruns sid) as [->|[Hfresh [t [Hrun Hpre]]]].
  - destruct (st0 !! sid) as [[l []]|]; [by exists [], false|done|by left].
  - rewrite Hfresh. destruct (orchestrator_run_shape sid t Hrun) as [l [Hl Htail]].
    rewrite Hl in Hpre. destruct (ops_on sid ops) as [|o l']; [by left|right].
    destruct Hpre as [k Hk]. injection Hk as <- Hk. exists l'. split; [done|].
    apply (tail_ops_prefix sid l); [done|by exists k].
Qed.

Lemma session_lifecycle_witness :
  let rejected := fun (_ : nat) (_ : text) => Rejected (lit "model_not_found") in
  let down := fun (_ : nat) (_ : request) => GetRaises (lit "down") in
  let e := error_event (lit "model_not_found") in
  lifecycle ∅ [OpCreate "a"; OpCreate "b"; OpAppend "b" e; OpAppend "a" e].
Proof.
  intros rejected down e.
  apply (session_lifecycle ∅ [OpCreate "a"; OpCreate "b"; OpAppend "b" e; OpAppend "a" e]).
  intros sid.
  destruct (decide (sid = "a"%string)) as [->|Ha];
    [|destruct (decide (sid = "b"%string)) as [->|Hb]].
  - right. split; [reflexivity|].
    exists (trace (snd (generate_with_o3_research_o3 [] [] rejected down (fun _ _ => []) 3
                          DefendantInfo_init "a" st_init))).
    split; [|by exists []].
    right. left. by exists [], [], rejected, down, (fun _ _ => []), 3, DefendantInfo_init.
  - right. split; [reflexivity|].
    exists (trace (snd (generate_with_o3_research_backup [] [] rejected down (fun _ _ => []) 3
                          DefendantInfo_init "b" st_init))).
    split; [|by exists []].
    right. right. by exists [], [], rejected, down, (fun _ _ => []), 3, DefendantInfo_init.
  - left. unfold ops_on. repeat (rewrite filter_cons, decide_False by (simpl; congruence)).
    reflexivity.
Defined.

(** The state in which the [try] of a run begins. *)
Definition started (sid : string) : st := snd (emit (Store (OpCreate sid)) st_init).

Lemma io_bind_eq {A B : Type} (m : io A) (k : A -> io B) (s : st) :
  (m ≫= k) s
  = match m s with
    | (Val a, s') => k a s'
    | (Exn e, s') => (Exn e, s')
    | (OutOfFuel, s') => (OutOfFuel, s')
    end.
Proof. reflexivity. Qed.

Lemma run_after_create {A : Type} (sid : string) (m : io A) :
  (emit (Store (OpCreate sid));; m) st_init = m (started sid).
Proof. reflexivity. Qed.

Lemma guarded_loop_raises (key cx : text) completion http system_prompt (v : variant)
    (fuel : nat) (info : DefendantInfo) (sid : string) (e : text) (s s1 : st) :
  loop key cx completion http v fuel sid (initial_messages system_prompt v info) s
  = (Exn e, s1) →
  guarded_loop key cx completion http system_prompt v fuel info sid s
  = (Val None, snd (append sid (error_event e) s1)).
Proof.
  intros Hloop. unfold guarded_loop, try_except. by rewrite io_bind_eq, Hloop.
Qed.

(** The run of [main_o3.py] or of [main_backup.py]. *)
Definition run_loop (key cx : text) (completion : nat -> text -> create_outcome)
    (http : nat -> request -> http_outcome)
    (system_prompt : variant -> DefendantInfo -> text) (v : variant) (fuel : nat)
    (info : DefendantInfo) (sid : string) : res unit * st :=
  match v with
  | O3 => generate_with_o3_research_o3 key cx completion http system_prompt fuel info sid
            st_init
  | Backup => generate_with_o3_research_backup key cx completion http system_prompt fuel
                info sid st_init
  end.

(** The state after [n] more requests whose effects are [t]. *)
Definition after_requests (s : st) (t : list effect) (n : nat) : st :=
  {| trace := trace s ++ t; awaits := awaits s; calls := n + calls s;
     searches := searches s |}.

(** The model identifiers of the requests made, in order. *)
Definition requests (t : list effect) : list text :=
  omap (fun x => match x with Request model => Some model | _ => None end) t.

(** Reading a streamed response in [stream_o3_completion] makes no
    request. *)
Lemma consume_utils_requests (k : sink) (sid : string) (cs : list (option choice))
    (brk : option text) : ∀ (full_content : text) (tool_calls : list tool_call) (s : st),
  calls (snd (consume_utils k sid cs brk full_content tool_calls s)) = calls s
  ∧ requests (trace (snd (consume_utils k sid cs brk full_content tool_calls s)))
    = requests (trace s).
Proof.
  induction cs as [|[c|] cs IH]; intros fc tcs s.
  - cbn [consume_utils]. by destruct brk.
  - cbn [consume_utils]. rewrite io_bind_eq.
    destruct (delta_content c) as [|x d].
    + cbn [mret io_ret]. destruct (finish_reason c); [done|apply IH].
    + destruct k; cbn [sink_append append emit raise]; [done|].
      destruct (finish_reason c); cbn [mret io_ret snd].
      * cbn [calls trace]. split; [done|]. unfold requests. rewrite omap_app.
        cbn [omap]. by rewrite app_nil_r.
      * match goal with |- context [consume_utils _ _ _ _ ?f ?t ?s'] =>
          destruct (IH f t s') as [-> ->] end.
        cbn [calls trace]. split; [done|]. unfold requests. rewrite omap_app.
        cbn [omap]. by rewrite app_nil_r.
  - cbn [consume_utils]. apply IH.
Qed.

(** C8 (as amended).  In [main_backup.py] and in
    [ai_utils.stream_o3_completion] a request for ["o3"] that raises is
    followed by exactly one request for ["gpt-4o"], whose outcome decides,
    and a request for ["o3"] that succeeds is followed by no second request
    (reading the stream makes none); in [main_o3.py] there is the request
    for ["o3"] only.  This holds for every provider [c] and every state.
    When both requests raise, generation stops: [main_backup.py] appends the
    error event; [stream_o3_completion] puts the error event on
    [session_events] and returns the error reply when [session_events] is a
    queue, and ends with the [AttributeError] of [put], without an error
    event, when it is a list.  In [main_o3.py] the exception of the ["o3"]
    request goes to the handler, which appends the error event after this
    single attempt.  The handler of both loops appends the error event for
    every exception of the loop, whatever raised it. *)
Theorem model_fallback (key cx : text) (completion : nat -> text -> create_outcome)
    (http : nat -> request -> http_outcome)
    (system_prompt : variant -> DefendantInfo -> text)
    (fuel : nat) (info : DefendantInfo) (sid : string) (e1 e2 : text) :
  completion 0 (lit "o3") = Rejected e1 →
  completion 1 (lit "gpt-4o") = Rejected e2 →
  (∀ c s, request_stream c Backup s
          = match c (calls s) (lit "o3") with
            | Accepted r => (Val r, after_requests s [Request (lit "o3")] 1)
            | Rejected _ =>
                (match c (S (calls s)) (lit "gpt-4o") with
                 | Accepted r => Val r
                 | Rejected e => Exn e
                 end,
                 after_requests s [Request (lit "o3"); Request (lit "gpt-4o")] 2)
            end)
  ∧ (∀ c s, request_stream c O3 s
            = (match c (calls s) (lit "o3") with
               | Accepted r => Val r
               | Rejected e => Exn e
               end,
               after_requests s [Request (lit "o3")] 1))
  ∧ (∀ c k s, stream_o3_completion c true k sid s
              = match c (calls s) (lit "o3") with
                | Accepted r =>
                    consume_utils k sid (chunks r) (breaks r) [] []
                      (after_requests s [Request (lit "o3")] 1)
                | Rejected _ =>
                    match c (S (calls s)) (lit "gpt-4o") with
                    | Accepted r =>
                        consume_utils k sid (chunks r) (breaks r) [] []
                          (after_requests s [Request (lit "o3"); Request (lit "gpt-4o")] 2)
                    | Rejected e =>
                        match k with
                        | AQueue =>
                            (Val (ErrorReply
                                    (lit "Error: Unable to connect to OpenAI API - " ++ e)),
                             after_requests s
                               [Request (lit "o3"); Request (lit "gpt-4o");
                                Store (OpAppend sid
                                         {| ev_type := lit "error";
                                            ev_data := JStr (lit "OpenAI API error: " ++ e) |})]
                               2)
                        | AList =>
                            (Exn (lit "'list' object has no attribute 'put'"),
                             after_requests s
                               [Request (lit "o3"); Request (lit "gpt-4o")] 2)
                        end
                    end
                end)
  ∧ (∀ k cs brk full_content tool_calls s,
       calls (snd (consume_utils k sid cs brk full_content tool_calls s)) = calls s
       ∧ requests (trace (snd (consume_utils k sid cs brk full_content tool_calls s)))
         = requests (trace s))
  ∧ generate_with_o3_research_backup key cx completion http system_prompt (S fuel) info sid
      st_init
    = (Val tt,
       after_requests st_init
         [Store (OpCreate sid); Request (lit "o3"); Request (lit "gpt-4o");
          Store (OpAppend sid (error_event e2))] 2)
  ∧ generate_with_o3_research_o3 key cx completion http system_prompt (S fuel) info sid
      st_init
    = (Val tt,
       after_requests st_init
         [Store (OpCreate sid); Request (lit "o3");
          Store (OpAppend sid (error_event e1))] 1)
  ∧ stream_o3_completion completion true AQueue sid st_init
    = (Val (ErrorReply (lit "Error: Unable to connect to OpenAI API - " ++ e2)),
       after_requests st_init
         [Request (lit "o3"); Request (lit "gpt-4o");
          Store (OpAppend sid {| ev_type := lit "error";
                                 ev_data := JStr (lit "OpenAI API error: " ++ e2) |})] 2)
  ∧ stream_o3_completion completion true AList sid st_init
    = (Exn (lit "'list' object has no attribute 'put'"),
       after_requests st_init [Request (lit "o3"); Request (lit "gpt-4o")] 2)
  ∧ (∀ c v n e s1,
       loop key cx c http v n sid (initial_messages system_prompt v info) (started sid)
       = (Exn e, s1) →
       run_loop key cx c http system_prompt v n info sid
       = (Val tt, after_requests s1 [Store (OpAppend sid (error_event e))] 0)).
Proof.
  intros H1 H2. simpl in H1, H2.
  assert (Hstream : ∀ c k s, stream_o3_completion c true k sid s
              = match c (calls s) (lit "o3") with
                | Accepted r =>
                    consume_utils k sid (chunks r) (breaks r) [] []
                      (after_requests s [Request (lit "o3")] 1)
                | Rejected _ =>
                    match c (S (calls s)) (lit "gpt-4o") with
                    | Accepted r =>
                        consume_utils k sid (chunks r) (breaks r) [] []
                          (after_requests s [Request (lit "o3"); Request (lit "gpt-4o")] 2)
                    | Rejected e =>
                        match k with
                        | AQueue =>
                            (Val (ErrorReply
                                    (lit "Error: Unable to connect to OpenAI API - " ++ e)),
                             after_requests s
                               [Request (lit "o3"); Request (lit "gpt-4o");
                                Store (OpAppend sid
                                         {| ev_type := lit "error";
                                            ev_data := JStr (lit "OpenAI API error: " ++ e) |})]
                               2)
                        | AList =>
                            (Exn (lit "'list' object has no attribute 'put'"),
                             after_requests s
                               [Request (lit "o3"); Request (lit "gpt-4o")] 2)
                        end
                    end
                end).
  { intros c k s. unfold stream_o3_completion. cbn [negb].
    rewrite io_bind_eq. unfold try_except at 1. rewrite io_bind_eq. unfold create at 1.
    destruct (c (calls s) (lit "o3")) as [e|r]; cbn [mret io_ret]; [|reflexivity].
    unfold try_except. rewrite io_bind_eq. unfold create. cbn [calls trace awaits searches].
    destruct (c (S (calls s)) (lit "gpt-4o")) as [e'|r]; cbn [mret io_ret].
    - destruct k; cbn [sink_put]; rewrite ?io_bind_eq; unfold append, emit, raise;
        cbn [mret io_ret trace awaits calls searches]; unfold after_requests;
        by rewrite <- ?app_assoc.
    - unfold after_requests. by rewrite <- app_assoc. }
  split; [|split; [|split; [exact Hstream|split; [|split; [|split; [|split; [|split]]]]]]].
  - intros c s. unfold request_stream, try_except, create, after_requests.
    destruct (c (calls s) (lit "o3")); simpl; [|done].
    destruct (c (S (calls s)) _); simpl; by rewrite <- app_assoc.
  - intros c s. unfold request_stream, create, after_requests.
    by destruct (c (calls s) (lit "o3")).
  - intros k cs brk fc tcs s. apply consume_utils_requests.
  - unfold generate_with_o3_research_backup, guarded_loop, try_except, mbind, io_bind,
      emit, append; simpl.
    unfold mbind, io_bind, request_stream, try_except, create; simpl.
    rewrite H1; simpl. rewrite H2; simpl. done.
  - unfold generate_with_o3_research_o3, guarded_loop, try_except, mbind, io_bind,
      emit, append; simpl.
    unfold mbind, io_bind, request_stream, create; simpl.
    by rewrite H1.
  - rewrite Hstream. simpl. rewrite H1. simpl. by rewrite H2.
  - rewrite Hstream. simpl. rewrite H1. simpl. by rewrite H2.
  - intros c v n e s1 Hloop.
    destruct v; unfold run_loop, generate_with_o3_research_o3,
      generate_with_o3_research_backup;
      rewrite run_after_create, io_bind_eq, (guarded_loop_raises _ _ _ _ _ _ _ _ _ _ _ _ Hloop);
      reflexivity.
Qed.

Lemma model_fallback_witness :
  generate_with_o3_research_backup [] [] (fun _ _ => Rejected (lit "model_not_found"))
    (fun _ _ => GetRaises (lit "down")) (fun _ _ => []) 1 DefendantInfo_init "s" st_init
  = (Val tt,
     after_requests st_init
       [Store (OpCreate "s"); Request (lit "o3"); Request (lit "gpt-4o");
        Store (OpAppend "s" (error_event (lit "model_not_found")))] 2).
Proof.
  destruct (model_fallback [] [] (fun _ _ => Rejected (lit "model_not_found"))
              (fun _ _ => GetRaises (lit "down")) (fun _ _ => []) 0 DefendantInfo_init "s"
              (lit "model_not_found") (lit "model_not_found") eq_refl eq_refl)
    as (_ & _ & _ & _ & H & _).
  exact H.
Defined.

(** C8 as stated fails for [main_o3.py]: the request for ["o3"] is rejected,
    no request for ["gpt-4o"] is made (the secondary model would have
    answered), and the error event is emitted after this single attempt. *)
Lemma o3_run_has_no_fallback :
  let completion := fun (n : nat) (model : text) =>
    if text_eqb model (lit "gpt-4o")
    then Accepted {| chunks := []; breaks := None |}
    else Rejected (lit "model_not_found") in
  let run := generate_with_o3_research_o3 [] [] completion
               (fun _ _ => GetRaises (lit "down")) (fun _ _ => []) 30
               DefendantInfo_init "s" st_init in
  fst run = Val tt
  ∧ trace (snd run)
    = [ Store (OpCreate "s"); Request (lit "o3");
        Store (OpAppend "s"
          {| ev_type := lit "error";
             ev_data := JStr (lit "Error during O3 reasoning and generation: model_not_found") |}) ]
  ∧ Request (lit "gpt-4o") ∉ trace (snd run).
Proof.
  vm_compute. repeat split; try reflexivity.
  intros H. repeat (apply elem_of_cons in H as [H|H]; [discriminate|]).
  by apply elem_of_nil in H.
Qed.

(** An error event does not need two rejected requests: in [main_backup.py]
    an accepted stream that breaks, or a tool call (the search function of
    that file reads an unbound name), ends in the handler as well. *)
Example backup_error_without_rejection :
  let completion := fun (n : nat) (model : text) =>
    Accepted {| chunks := [Some {| delta_content := lit "Thinking";
                                   delta_tool_calls := []; finish_reason := false |}];
                breaks := Some (lit "Connection reset") |} in
  let run := generate_with_o3_research_backup [] [] completion
               (fun _ _ => GetRaises (lit "down")) (fun _ _ => []) 30
               DefendantInfo_init "s" st_init in
  fst run = Val tt
  ∧ trace (snd run)
    = [ Store (OpCreate "s"); Request (lit "o3");
        Store (OpAppend "s" (thinking_payload (lit "Thinking")));
        Store (OpAppend "s" (error_event (lit "Connection reset"))) ].
Proof. vm_compute. done. Qed.

(** *** Exceptions during generation *)

(** The event of the handler of [main.py]. *)
Definition generation_error (e : text) : event :=
  {| ev_type := lit "error"; ev_data := JStr (lit "Generation error: " ++ e) |}.

Lemma main_run_raises (key cx : text) http fault content (info : DefendantInfo)
    (sid : string) (e : text) (s1 : st) (docs : documents) :
  try_body key cx http fault content info sid (started sid) = (Exn e, s1) →
  split_documents (fallback_content info) = Ok docs →
  generate_with_o3_research key cx http fault content info sid st_init
  = (Val tt,
     {| trace := trace s1
          ++ [ Store (OpAppend sid (generation_error e));
               RenderPdf sid (lit "Motion.pdf") (motion docs);
               RenderPdf sid (lit "Memo.pdf") (memo docs);
               RenderPdf sid (lit "Declaration.pdf") (declaration docs);
               Zip sid (lit "motion_packet.zip") pdf_names;
               Store (OpAppend sid (done_event "/api/download/" "motion_packet.zip" sid true));
               Store (OpComplete sid) ];
        awaits := awaits s1; calls := calls s1; searches := searches s1 |}).
Proof.
  intros Hbody Hdocs. unfold generate_with_o3_research.
  rewrite run_after_create, io_bind_eq. unfold try_except. rewrite Hbody.
  unfold except_handler. rewrite io_bind_eq. cbn [append emit mret io_ret].
  rewrite io_bind_eq, Hdocs. unfold render_all, append, emit, mbind, io_bind, mret, io_ret.
  cbn [lift mret io_ret trace awaits calls searches]. unfold generation_error.
  by rewrite <- !app_assoc.
Qed.




(** A search request that fails raises nothing in the orchestrator of
    [main.py]: the record of the failure is the result of the search, and it
    is appended in a [search] event, not in an error event. *)
Example main_search_failure_is_a_search_event :
  let r := research [] [] (fun _ _ => GetRaises (lit "down")) (fun _ => None) "s"
             [lit "q"] [] st_init in
  let failure := JDict [ (lit "title", JStr (lit "Search Error: down"));
                         (lit "url", JStr []); (lit "snippet", JStr []) ] in
  fst r = Val [failure]
  ∧ trace (snd r)
    = [ Store (OpAppend "s" (thinking (NL ++ NL ++ lit "Searching: q...")));
        Search (JStr (lit "q")) (JNum 3);
        Store (OpAppend "s"
          {| ev_type := lit "search";
             ev_data := JDict [ (lit "query", JStr (lit "q"));
                                (lit "results", JList [failure]) ] |}) ].
Proof. vm_compute. done. Qed.

(** The same in [main_o3.py]: the loop goes on after a failed search. *)
Example o3_search_failure_is_a_search_event :
  let call := {| tc_id := lit "call_1";
                 tc_function := Function {| fn_name := lit "web_search";
                                        fn_arguments := Ok (JDict [(lit "query", JStr (lit "q"))]) |} |} in
  let r := handle_tool_calls [] [] (fun _ _ => GetRaises (lit "down")) O3 "s" [call] []
             st_init in
  let failure := JDict [ (lit "title", JStr (lit "Search Error: down"));
                         (lit "link", JStr []); (lit "snippet", JStr []) ] in
  fst r = Val [ {| role := lit "tool"; msg_content := JList [failure] |} ]
  ∧ trace (snd r)
    = [ Search (JStr (lit "q")) (JNum 5);
        Store (OpAppend "s"
          {| ev_type := lit "search";
             ev_data := JDict [ (lit "query", JStr (lit "q"));
                                (lit "results", JList [failure]) ] |}) ].
Proof. vm_compute. done. Qed.

End OrchestratorFacts.

(** ** The event relay of [main_o3.py] *)
Module RelayO3Facts.
Import Json Bus RelayO3.
Import BusFacts.

Section Relay.
Variable sid : string.

Abbreviation log w := (log_of (store w) sid).

Record inv_o3 (w : world) : Prop := {
  o3_sorted : StronglySorted lt (map fst (sent (gen w)));
  o3_below : Forall (fun p => fst p < pos (gen w)) (sent (gen w));
  o3_frames :
    Forall (fun p => ∃ e, log w !! fst p = Some e ∧ relay_event_backup e = snd p)
           (sent (gen w));
  o3_sub : frames w `sublist_of` map relay_event_backup (take (pos (gen w)) (log w));
  o3_last : last_event_index (gen w) ≤ pos (gen w);
  o3_pos : pos (gen w) ≤ length (log w);
  o3_for : ∀ i stop, at_ (gen w) = InFor i stop → i ≤ stop ∧ stop ≤ length (log w)
}.

Lemma inv_o3_init : inv_o3 world_init.
Proof.
  split; simpl.
  - constructor.
  - constructor.
  - constructor.
  - unfold frames; simpl. constructor.
  - unfold pos; simpl; lia.
  - unfold pos; simpl; lia.
  - intros i stop [=].
Qed.

Lemma inv_o3_op (w : world) (o : store_op) : inv_o3 w → inv_o3 (step_o3 sid w (Op o)).
Proof.
  intros [Hs Hb Hf Hsub Hl Hp Hfor].
  destruct (log_of_apply_op (store w) o sid) as [ext Hext].
  split; simpl; try done.
  - eapply Forall_impl; [exact Hf|]. intros p [e [He Hfe]]. exists e. split; [|done].
    rewrite Hext. by apply lookup_app_l_Some.
  - unfold frames in *; simpl. rewrite Hext, take_app_le by done. done.
  - rewrite Hext, length_app. lia.
  - intros i stop Hat. destruct (Hfor i stop Hat). rewrite Hext, length_app. lia.
Qed.

Ltac o3_norm Hat :=
  simpl; unfold pos, frames, end_of_poll in *; simpl in *; rewrite ?Hat in *; simpl in *.

Lemma map_take_sublist {A B : Type} (f : A → B) (l : list A) (n m : nat) :
  n ≤ m → map f (take n l) `sublist_of` map f (take m l).
Proof.
  intros Hnm. rewrite (take_le_app l n m Hnm), map_app. by apply sublist_inserts_r.
Qed.

Lemma inv_o3_tick (w : world) (d : bool) : inv_o3 w → inv_o3 (step_o3 sid w (Tick d)).
Proof.
  intros [Hs Hb Hf Hsub Hl Hp Hfor]. unfold step_o3, relay_step_o3.
  destruct (at_ (gen w)) as [|i stop|] eqn:Hat.
  - destruct (store w !! sid) as [s|] eqn:Hsid.
    + pose proof (log_of_lookup _ _ _ Hsid) as Hlog.
      split; o3_norm Hat; try done.
      intros i stop [= <- <-]. rewrite <- Hlog. done.
    + split; o3_norm Hat; try done.
  - destruct (Hfor i stop eq_refl) as [His Hstop].
    destruct (Nat.leb_spec stop i) as [Hle|Hlt].
    + split; o3_norm Hat; try done.
      all: destruct (completed _ _); simpl; try lia.
      all: try (eapply Forall_impl; [exact Hb|]; simpl; intros; lia).
      all: try (etrans; [exact Hsub|]; apply map_take_sublist; lia).
      all: try (intros ? ? [=]).
    + destruct (lookup_lt_is_Some_2 (log_of (store w) sid) i) as [e He]; [lia|].
      rewrite He.
      assert (Htake : take (S i) (log_of (store w) sid)
                      = take i (log_of (store w) sid) ++ [e]) by by apply take_S_r.
      split; o3_norm Hat; try lia.
      * apply sorted_snoc; [done|]. done.
      * apply Forall_app. split; [|repeat constructor].
        eapply Forall_impl; [exact Hb|]; simpl; intros; lia.
      * apply Forall_app. split; [done|]. repeat constructor. simpl. by exists e.
      * rewrite map_app, Htake, (map_app _ (take i _)). by apply sublist_app.
      * intros i' stop' [= <- <-]. lia.
  - split; o3_norm Hat; try done.
Qed.

Lemma inv_o3_step (w : world) (a : action) : inv_o3 w → inv_o3 (step_o3 sid w a).
Proof. destruct a; [apply inv_o3_op | apply inv_o3_tick]. Qed.

Lemma inv_o3_run (sch : list action) : ∀ w, inv_o3 w → inv_o3 (run_o3 sid sch w).
Proof.
  induction sch as [|a sch IH]; intros w Hw; [done|].
  apply IH, inv_o3_step, Hw.
Qed.

Lemma last_mono_step_o3 (w : world) (a : action) :
  inv_o3 w → last_event_index (gen w) ≤ last_event_index (gen (step_o3 sid w a)).
Proof.
  intros [Hs Hb Hf Hsub Hl Hp Hfor]. destruct a as [o|d]; [done|].
  unfold step_o3, relay_step_o3; simpl.
  destruct (at_ (gen w)) as [|i stop|] eqn:Hat; o3_norm Hat.
  - by destruct (store w !! sid).
  - destruct (Hfor i stop eq_refl) as [His Hstop].
    destruct (stop <=? i); simpl; [lia|].
    by destruct (log_of (store w) sid !! i).
  - done.
Qed.

(** *** Events that are never sent *)

(** Position [k] of the log has been passed over: it is in the log, it has
    not been sent, and the generator is past it or inside a [for] loop that
    ends before it. *)
Definition missed (k : nat) (w : world) : Prop :=
  k < length (log w)
  ∧ (k ∉ map fst (sent (gen w)))
  ∧ match at_ (gen w) with
    | InFor i stop => stop ≤ k ∨ k < i
    | _ => k < last_event_index (gen w)
    end.

Lemma missed_step (k : nat) (w : world) (a : action) :
  inv_o3 w → missed k w → missed k (step_o3 sid w a).
Proof.
  intros [Hs Hb Hf Hsub Hl Hp Hfor] (Hk & Hns & Hat). destruct a as [o|d].
  - destruct (log_of_apply_op (store w) o sid) as [ext Hext].
    split; [|done]. simpl. rewrite Hext, length_app. lia.
  - unfold missed, step_o3, relay_step_o3. simpl.
    destruct (at_ (gen w)) as [|i stop|] eqn:Hw.
    + destruct (store w !! sid) as [s|] eqn:Hsid; simpl; [|by rewrite Hw].
      repeat split; [done|done|]. by right.
    + destruct (Hfor i stop eq_refl) as [His Hstop].
      destruct (Nat.leb_spec stop i) as [Hle|Hlt].
      * unfold end_of_poll. simpl. repeat split; [done|done|].
        destruct (completed _ _); done.
      * destruct (lookup_lt_is_Some_2 (log_of (store w) sid) i) as [e He]; [lia|].
        rewrite He. simpl. repeat split; [done| |lia].
        rewrite map_app. simpl. rewrite elem_of_app, list_elem_of_singleton.
        intros [Hin| ->]; [done|lia].
    + simpl. by rewrite Hw.
Qed.

Lemma missed_run (k : nat) (sch : list action) : ∀ w,
  inv_o3 w → missed k w → missed k (run_o3 sid sch w).
Proof.
  induction sch as [|a sch IH]; intros w Hw Hm; [done|].
  apply IH; [by apply inv_o3_step|by apply missed_step].
Qed.

(** *** Polls that are not disturbed *)

(** The check of one action: the orchestrator writes neither while the
    generator is inside its [for] loop nor, to the log of [sid], after
    completion. *)
Definition undisturbed_o3 (w : world) (a : action) : bool :=
  match a with
  | Op o =>
      match at_ (gen w) with InFor _ _ => false | _ => true end
      && append_allowed sid (store w) o
  | Tick _ => true
  end.

Fixpoint polls_undisturbed_o3 (sch : list action) (w : world) : bool :=
  match sch with
  | [] => true
  | a :: sch' => undisturbed_o3 w a && polls_undisturbed_o3 sch' (step_o3 sid w a)
  end.

Record inv_quiet_o3 (w : world) : Prop := {
  qo_inv : inv_o3 w;
  qo_frames : frames w = map relay_event_backup (take (pos (gen w)) (log w));
  qo_for : ∀ i stop, at_ (gen w) = InFor i stop → stop = length (log w);
  qo_exit : at_ (gen w) = Exited →
            pos (gen w) = length (log w) ∧ completed (store w) sid = true
}.

Lemma inv_quiet_o3_init : inv_quiet_o3 world_init.
Proof. split; [apply inv_o3_init|done|by intros ?? [=]|by intros [=]]. Qed.

Lemma inv_quiet_o3_step (w : world) (a : action) :
  inv_quiet_o3 w → undisturbed_o3 w a = true → inv_quiet_o3 (step_o3 sid w a).
Proof.
  intros [Hinv Hfr Hfor Hexit] Ha.
  split; [by apply inv_o3_step| | |]; destruct Hinv as [_ _ _ _ Hl Hp Hfor'].
  - destruct a as [o|d]; simpl in *.
    + destruct (log_of_apply_op (store w) o sid) as [ext Hext].
      unfold frames in *; simpl. by rewrite Hfr, Hext, take_app_le.
    + unfold relay_step_o3.
      destruct (at_ (gen w)) as [|i stop|] eqn:Hat; o3_norm Hat.
      * destruct (store w !! sid); o3_norm Hat; done.
      * pose proof (Hfor i stop eq_refl) as ->.
        destruct (Nat.leb_spec (length (log_of (store w) sid)) i) as [Hle|Hlt]; simpl.
        { destruct (completed _ _); simpl; rewrite Hfr;
            by replace i with (length (log w)) by lia. }
        destruct (lookup_lt_is_Some_2 (log_of (store w) sid) i) as [e He]; [lia|].
        rewrite He. simpl.
        by rewrite map_app, (take_S_r _ _ _ He), (map_app _ (take i _)), Hfr.
      * done.
  - destruct a as [o|d]; simpl in *.
    + apply andb_true_iff in Ha as [Ha _]. intros i stop Hat. by rewrite Hat in Ha.
    + unfold relay_step_o3.
      destruct (at_ (gen w)) as [|i stop|] eqn:Hat; o3_norm Hat.
      * destruct (store w !! sid) as [s|] eqn:Hsid; o3_norm Hat.
        -- intros ?? [= <- <-]. symmetry. by f_equal; apply log_of_lookup.
        -- by intros ?? [=].
      * pose proof (Hfor i stop eq_refl) as ->.
        destruct (length (log_of (store w) sid) <=? i); simpl.
        { destruct (completed _ _); by intros ?? [=]. }
        destruct (log_of (store w) sid !! i) as [e|]; simpl; [|by intros ?? [=]].
        by intros ?? [= <- <-].
      * by intros ?? [=].
  - destruct a as [o|d]; simpl in *.
    + apply andb_true_iff in Ha as [_ Ha]. intros Hat.
      destruct (Hexit Hat) as [Hpos Hc]. unfold pos in *; simpl; rewrite Hat in *.
      split; [by rewrite log_of_apply_op_completed | by apply completed_apply_op].
    + unfold relay_step_o3.
      destruct (at_ (gen w)) as [|i stop|] eqn:Hat; o3_norm Hat.
      * destruct (store w !! sid); o3_norm Hat; by intros [=].
      * pose proof (Hfor i stop eq_refl) as ->.
        destruct (Nat.leb_spec (length (log_of (store w) sid)) i) as [Hle|Hlt]; simpl.
        { destruct (completed _ _) eqn:Hc; simpl; [done|by intros [=]]. }
        destruct (lookup_lt_is_Some_2 (log_of (store w) sid) i) as [e He]; [lia|].
        rewrite He. simpl. by intros [=].
      * intros _. by apply Hexit.
Qed.

Lemma inv_quiet_o3_run (sch : list action) : ∀ w,
  inv_quiet_o3 w → polls_undisturbed_o3 sch w = true → inv_quiet_o3 (run_o3 sid sch w).
Proof.
  induction sch as [|a sch IH]; intros w Hw Hsch; [done|].
  simpl in Hsch. apply andb_true_iff in Hsch as [Ha Hsch].
  apply IH; [by apply inv_quiet_o3_step|done].
Qed.

Definition todo_o3 (w : world) : nat :=
  2 * (length (log w) - pos (gen w))
  + match at_ (gen w) with AtPoll => 1 | _ => 0 end.

Lemma drain_o3_store (n : nat) : ∀ w, store (drain_o3 sid n w) = store w.
Proof.
  unfold drain_o3. induction n as [|n IH]; intros w; [done|].
  simpl. by rewrite IH.
Qed.

Lemma tick_progress_o3 (w : world) :
  inv_quiet_o3 w →
  pos (gen w) ≤ pos (gen (step_o3 sid w (Tick false)))
  ∧ (pos (gen w) < length (log w) → todo_o3 (step_o3 sid w (Tick false)) < todo_o3 w).
Proof.
  intros [[_ _ _ _ Hl Hp Hfor'] Hfr Hfor Hexit].
  unfold todo_o3, step_o3, relay_step_o3; simpl.
  destruct (at_ (gen w)) as [|i stop|] eqn:Hat; o3_norm Hat.
  - destruct (store w !! sid) as [s|] eqn:Hsid; o3_norm Hat.
    + split; [done|lia].
    + unfold log_of in *. rewrite Hsid in *. simpl in *. split; [done|lia].
  - pose proof (Hfor i stop eq_refl) as ->.
    destruct (Nat.leb_spec (length (log w)) i) as [Hle|Hlt]; simpl.
    { destruct (completed _ _); simpl; split; lia. }
    destruct (lookup_lt_is_Some_2 (log w) i) as [e He]; [lia|].
    rewrite He. simpl; split; lia.
  - destruct (Hexit eq_refl) as [-> _]. split; lia.
Qed.

Lemma drain_o3_pos (n : nat) : ∀ w,
  inv_quiet_o3 w →
  todo_o3 w ≤ n ∨ pos (gen w) = length (log w) →
  inv_quiet_o3 (drain_o3 sid n w) ∧ pos (gen (drain_o3 sid n w)) = length (log w).
Proof.
  unfold drain_o3. induction n as [|n IH]; intros w Hw Hn.
  - split; [done|]. destruct Hn as [Hn|Hn]; [|done].
    destruct Hw as [[_ _ _ _ _ Hp _] _ _ _]. unfold todo_o3 in Hn. simpl. lia.
  - change (run_o3 sid (replicate (S n) (Tick false)) w)
      with (run_o3 sid (replicate n (Tick false)) (step_o3 sid w (Tick false))).
    assert (Hw' : inv_quiet_o3 (step_o3 sid w (Tick false))) by by apply inv_quiet_o3_step.
    destruct (tick_progress_o3 w Hw) as [Hmono Hdec].
    change (log w) with (log (step_o3 sid w (Tick false))).
    apply IH; [done|].
    destruct Hw' as [[_ _ _ _ _ Hp' _] _ _ _]. simpl in Hp'.
    destruct (decide (pos (gen w) = length (log w))) as [Heq|Hne].
    + right. simpl in *. lia.
    + left. destruct Hn as [Hn|Hn]; [|done].
      destruct Hw as [[_ _ _ _ _ Hp _] _ _ _].
      assert (todo_o3 (step_o3 sid w (Tick false)) < todo_o3 w) by (apply Hdec; lia). lia.
Qed.

Lemma drain_o3_all (n : nat) (w : world) :
  inv_quiet_o3 w → 2 * length (log w) + 1 ≤ n →
  frames (drain_o3 sid n w) = map relay_event_backup (log w).
Proof.
  intros Hw Hn.
  destruct (drain_o3_pos n w Hw) as [[_ Hfr _ _] Hpos].
  { left. unfold todo_o3. destruct (at_ (gen w)); lia. }
  rewrite Hfr, Hpos, drain_o3_store, take_ge; done.
Qed.

(** *** The end of the stream *)

Lemma exit_completed_o3 (sch : list action) : ∀ w,
  inv_o3 w → (at_ (gen w) = Exited → completed (store w) sid = true) →
  at_ (gen (run_o3 sid sch w)) = Exited → completed (store (run_o3 sid sch w)) sid = true.
Proof.
  induction sch as [|a sch IH]; intros w Hw Hex; [done|].
  change (run_o3 sid (a :: sch) w) with (run_o3 sid sch (step_o3 sid w a)).
  apply IH; [by apply inv_o3_step|].
  destruct Hw as [_ _ _ _ _ _ Hfor]. destruct a as [o|d]; simpl.
  - intros Hat. by apply completed_apply_op, Hex.
  - unfold relay_step_o3. destruct (at_ (gen w)) as [|i stop|] eqn:Hat.
    + destruct (store w !! sid); simpl; by rewrite ?Hat.
    + destruct (Hfor i stop eq_refl) as [His Hstop].
      destruct (Nat.leb_spec stop i) as [Hle|Hlt].
      * unfold end_of_poll. simpl. by destruct (completed (store w) sid).
      * destruct (lookup_lt_is_Some_2 (log_of (store w) sid) i) as [e He]; [lia|].
        by rewrite He.
    + simpl. rewrite Hat. done.
Qed.

Lemma drain_o3_exit (w : world) :
  inv_quiet_o3 w → pos (gen w) = length (log w) → completed (store w) sid = true →
  at_ (gen (drain_o3 sid 2 w)) = Exited.
Proof.
  intros [[_ _ _ _ Hl Hp Hfor'] Hfr Hfor Hexit] Hpos Hc.
  unfold drain_o3. simpl. unfold relay_step_o3 at 2.
  assert (Hsome : is_Some (store w !! sid)).
  { unfold completed in Hc. destruct (store w !! sid); [by eexists|done]. }
  destruct Hsome as [s Hsid]. pose proof (log_of_lookup _ _ _ Hsid) as Hlog.
  destruct (at_ (gen w)) as [|i stop|] eqn:Hat; unfold pos in Hpos; rewrite Hat in Hpos.
  - rewrite Hsid. unfold relay_step_o3. simpl. rewrite <- Hlog, Hpos, Nat.leb_refl.
    unfold end_of_poll. simpl. by rewrite Hc.
  - pose proof (Hfor i stop eq_refl) as ->. rewrite Hpos, Nat.leb_refl.
    unfold relay_step_o3, end_of_poll. simpl. by rewrite Hc.
  - unfold relay_step_o3. simpl. by rewrite Hat.
Qed.

Lemma inv_quiet_o3_fresh (st : gmap string session) :
  inv_quiet_o3 {| store := st; gen := relay_init |}.
Proof.
  split; [split|..]; simpl; unfold frames, pos; simpl;
    try done; try constructor; try lia.
Qed.

End Relay.
Lemma run_o3_app (sid : string) (sch1 sch2 : list action) (w : world) :
  run_o3 sid (sch1 ++ sch2) w = run_o3 sid sch2 (run_o3 sid sch1 w).
Proof. unfold run_o3. by rewrite foldl_app. Qed.

(** The relay of [main_o3.py], for every interleaving of writes to the store
    and resumptions of the generator: [last_event_index] stays within the
    log and never decreases, the positions sent are strictly increasing (so
    none is sent twice), every frame sent is the frame of the event at its
    position, the frames sent are a sub-sequence of the frames of the log, and
    the generator has finished only if the session is completed. *)
Theorem relay_o3_in_order (sid : string) (sch : list action) :
  let w := run_o3 sid sch world_init in
  last_event_index (gen w) ≤ length (log_of (store w) sid)
  ∧ (∀ a, last_event_index (gen w) ≤ last_event_index (gen (step_o3 sid w a)))
  ∧ StronglySorted lt (map fst (sent (gen w)))
  ∧ Forall (fun p => ∃ e, log_of (store w) sid !! fst p = Some e
                         ∧ relay_event_backup e = snd p) (sent (gen w))
  ∧ frames w `sublist_of` map relay_event_backup (log_of (store w) sid)
  ∧ (at_ (gen w) = Exited → completed (store w) sid = true).
Proof.
  intros w.
  pose proof (inv_o3_run sid sch _ (inv_o3_init sid)) as Hinv. fold w in Hinv.
  pose proof Hinv as [Hs Hb Hf Hsub Hl Hp Hfor]. repeat split.
  - lia.
  - intros a. by apply last_mono_step_o3.
  - done.
  - done.
  - etrans; [exact Hsub|]. rewrite <- (take_drop (pos (gen w)) (log_of (store w) sid)) at 2.
    rewrite map_app. by apply sublist_inserts_r.
  - apply (exit_completed_o3 sid sch world_init (inv_o3_init sid)). by intros [=].
Qed.

(** The relay of [main_o3.py] loses events: whatever is in the log at a
    position at or after the end [stop] of the range of the running [for]
    loop (it was appended while the generator was suspended inside the loop)
    is never sent, whatever happens afterwards. *)
Theorem relay_o3_skips_late_events (sid : string) (sch sch' : list action) (i stop k : nat) :
  let w := run_o3 sid sch world_init in
  at_ (gen w) = InFor i stop → stop ≤ k → k < length (log_of (store w) sid) →
  k ∉ map fst (sent (gen (run_o3 sid sch' w))).
Proof.
  intros w Hat Hstop Hk.
  pose proof (inv_o3_run sid sch _ (inv_o3_init sid)) as Hinv. fold w in Hinv.
  assert (Hm : missed sid k w).
  { split; [done|]. split; [|rewrite Hat; by left].
    destruct Hinv as [_ Hb _ _ _ _ Hfor]. destruct (Hfor i stop Hat) as [His _].
    unfold pos in Hb. rewrite Hat in Hb. intros Hin.
    apply list_elem_of_fmap in Hin as [p [-> Hp]].
    rewrite Forall_forall in Hb. specialize (Hb p Hp). lia. }
  by destruct (missed_run sid k sch' w Hinv Hm) as (_ & Hns & _).
Qed.

Lemma relay_o3_skips_late_events_witness :
  let e0 := {| ev_type := lit "thinking"; ev_data := JDict [(lit "content", JStr (lit "a"))] |} in
  let e1 := {| ev_type := lit "thinking"; ev_data := JDict [(lit "content", JStr (lit "b"))] |} in
  let sch := [ Op (OpCreate "s"); Op (OpAppend "s" e0); Tick false; Tick false;
               Op (OpAppend "s" e1) ] in
  let w := run_o3 "s" (sch ++ replicate 10 (Tick false)) world_init in
  log_of (store w) "s" = [e0; e1]
  ∧ (1 ∉ map fst (sent (gen w)))
  ∧ frames w = [relay_event_backup e0].
Proof.
  intros e0 e1 sch w. split; [reflexivity|]. split; [|reflexivity].
  unfold w. rewrite run_o3_app.
  apply (relay_o3_skips_late_events "s" sch (replicate 10 (Tick false)) 1 1 1).
  - reflexivity.
  - lia.
  - vm_compute. lia.
Defined.

(** When the orchestrator writes neither while the generator of [main_o3.py]
    is inside its [for] loop nor after completion, draining the relay sends
    every event of the log, once and in order; and if the session is
    completed, the generator then finishes. *)
Theorem relay_o3_drains_undisturbed (sid : string) (sch : list action) (n : nat) :
  let w := run_o3 sid sch world_init in
  polls_undisturbed_o3 sid sch world_init = true →
  2 * length (log_of (store w) sid) + 1 ≤ n →
  frames (drain_o3 sid n w) = map relay_event_backup (log_of (store w) sid)
  ∧ (completed (store w) sid = true → at_ (gen (drain_o3 sid (n + 2) w)) = Exited).
Proof.
  intros w Hsch Hn.
  pose proof (inv_quiet_o3_run sid sch _ (inv_quiet_o3_init sid) Hsch) as Hq. fold w in Hq.
  split; [by apply drain_o3_all|].
  intros Hc. destruct (drain_o3_pos sid n w Hq) as [Hq' Hpos].
  { left. unfold todo_o3. destruct (at_ (gen w)); lia. }
  unfold drain_o3 at 1. rewrite replicate_add, run_o3_app.
  fold (drain_o3 sid n w). fold (drain_o3 sid 2 (drain_o3 sid n w)).
  apply drain_o3_exit; [done|by rewrite drain_o3_store|by rewrite drain_o3_store].
Qed.

Lemma relay_o3_drains_undisturbed_witness :
  let e0 := {| ev_type := lit "thinking"; ev_data := JDict [(lit "content", JStr (lit "a"))] |} in
  let e1 := {| ev_type := lit "done"; ev_data := JDict [] |} in
  let sch := [ Op (OpCreate "s"); Op (OpAppend "s" e0); Tick false; Tick false; Tick false;
               Op (OpAppend "s" e1); Op (OpComplete "s") ] in
  frames (drain_o3 "s" 5 (run_o3 "s" sch world_init))
  = [relay_event_backup e0; relay_event_backup e1].
Proof.
  intros e0 e1 sch.
  apply (relay_o3_drains_undisturbed "s" sch 5); [reflexivity|vm_compute; lia].
Defined.

End RelayO3Facts.

(** ** [web_search]: the records of a decoded response *)
Module WebSearchItems.
Import Json WebSearch.
Import WebSearchFacts.

(** The record made from an item that is a dictionary: a missing key gives
    the empty string. *)
Definition record_of (url_key : string) (item : list (text * json)) : json :=
  JDict [ (lit "title", default (JStr []) (assoc (lit "title") item));
          (lit url_key, default (JStr []) (assoc (lit "link") item));
          (lit "snippet", default (JStr []) (assoc (lit "snippet") item)) ].

Definition is_dict (j : json) : bool :=
  match j with JDict _ => true | _ => false end.

Lemma collect_dicts (url_key : string) (ds : list (list (text * json))) :
  ∀ rest acc,
    collect url_key ((JDict <$> ds) ++ rest) acc
    = collect url_key rest (acc ++ (record_of url_key <$> ds)).
Proof.
  induction ds as [|d ds IH]; intros rest acc; simpl; [by rewrite app_nil_r|].
  rewrite IH. by rewrite <- app_assoc.
Qed.

Lemma collect_not_dict (url_key : string) (x : json) (rest acc : list json) :
  is_dict x = false →
  collect url_key (x :: rest) acc = Raise (no_attribute x "get").
Proof. by destruct x. Qed.

(** A response that decodes to a dictionary [data].  Without the key
    ["items"] the result is empty.  When ["items"] is a list of
    dictionaries, [web_search] returns one record per item, in the order of
    the items and however many there are (the result is not cut to [k]),
    with the empty string for a missing title, link or snippet.  As soon as
    one item is not a dictionary the records made so far are dropped and the
    result is the single error record. *)
Theorem web_search_items (key cx : text) (http : request -> http_outcome)
    (query : text) (k : Z) (jq jk : json) (data : list (text * json)) :
  (∀ r, http r = Response None (Ok (JDict data))) →
  (assoc (lit "items") data = None →
   web_search key cx http query k = [] ∧ web_search_o3 key cx http jq jk = [])
  ∧ (∀ ds, assoc (lit "items") data = Some (JList (JDict <$> ds)) →
     web_search key cx http query k = record_of "url" <$> ds
     ∧ web_search_o3 key cx http jq jk = record_of "link" <$> ds)
  ∧ (∀ ds x rest, assoc (lit "items") data = Some (JList ((JDict <$> ds) ++ x :: rest)) →
     is_dict x = false →
     web_search key cx http query k = [search_error "url" (no_attribute x "get")]
     ∧ web_search_o3 key cx http jq jk = [search_error "link" (no_attribute x "get")]).
Proof.
  intros Hhttp. unfold web_search, web_search_o3. rewrite !Hhttp.
  cbn [try_search mbind exc_bind py_get]. split; [|split].
  - intros ->. split; reflexivity.
  - intros ds ->. cbn [default from_option id py_iter mbind exc_bind].
    rewrite <- (app_nil_r (JDict <$> ds)), !collect_dicts. split; reflexivity.
  - intros ds x rest -> Hx. cbn [default from_option id py_iter mbind exc_bind].
    rewrite !collect_dicts, !collect_not_dict by done. split; reflexivity.
Qed.

Lemma web_search_items_witness :
  let item := [(lit "title", JStr (lit "United States v. Brooker"));
               (lit "link", JStr (lit "https://example.org/brooker"))] in
  let data := [(lit "kind", JStr (lit "customsearch#search"));
               (lit "items", JList [JDict item; JDict item; JDict item; JDict item])] in
  web_search [] [] (fun _ => Response None (Ok (JDict data))) (lit "q") 3
  = [record_of "url" item; record_of "url" item; record_of "url" item; record_of "url" item].
Proof.
  intros item data.
  destruct (web_search_items [] [] (fun _ => Response None (Ok (JDict data))) (lit "q") 3
              JNull JNull data) as (_ & Hitems & _); [done|].
  by destruct (Hitems [item; item; item; item]).
Defined.

End WebSearchItems.

(** ** The paragraphs of a PDF document *)
Module PdfFacts.
Import Pdf.

Definition NLNL : text := ["010"; "010"]%char.

(** [sep.join(pieces)]. *)
Fixpoint join (sep : text) (pieces : list text) : text :=
  match pieces with
  | [] => []
  | [p] => p
  | p :: rest => p ++ sep ++ join sep rest
  end.

(** [sep] occurs in [s]. *)
Definition occurs (sep s : text) : Prop := ∃ a b, s = a ++ sep ++ b.

Lemma split_paragraphs_cons (c : ascii) (s cur : text) :
  split_paragraphs (c :: s) cur
  = match s with
    | c' :: s'' =>
        if Ascii.eqb c "010" && Ascii.eqb c' "010" then cur :: split_paragraphs s'' []
        else split_paragraphs s (cur ++ [c])
    | [] => split_paragraphs s (cur ++ [c])
    end.
Proof.
  cbn [split_paragraphs]. by destruct (Ascii.eqb c "010"); destruct s as [|c' s''].
Qed.

Lemma split_paragraphs_nonempty (s : text) : ∀ cur, split_paragraphs s cur ≠ [].
Proof.
  induction s as [s IH] using (induction_ltof1 _ (@length ascii)). unfold ltof in IH.
  intros cur. destruct s as [|c s]; [done|]. rewrite split_paragraphs_cons.
  destruct s as [|c' s'']; [by apply IH; simpl; lia|].
  destruct (_ && _); [done|]. apply IH. simpl; lia.
Qed.

Lemma join_cons (sep p : text) (rest : list text) :
  rest ≠ [] → join sep (p :: rest) = p ++ sep ++ join sep rest.
Proof. by destruct rest. Qed.

Lemma split_paragraphs_join (s : text) : ∀ cur, join NLNL (split_paragraphs s cur) = cur ++ s.
Proof.
  induction s as [s IH] using (induction_ltof1 _ (@length ascii)). unfold ltof in IH.
  intros cur. destruct s as [|c s]; [by rewrite app_nil_r|]. rewrite split_paragraphs_cons.
  destruct s as [|c' s''].
  - rewrite IH by (simpl; lia). by rewrite <- app_assoc.
  - destruct (Ascii.eqb_spec c "010") as [->|Hc]; cbn [andb].
    + destruct (Ascii.eqb_spec c' "010") as [->|Hc'].
      * rewrite join_cons by apply split_paragraphs_nonempty.
        rewrite IH by (simpl; lia). done.
      * rewrite IH by (simpl; lia). by rewrite <- app_assoc.
    + rewrite IH by (simpl; lia). by rewrite <- app_assoc.
Qed.

(** The piece being read never holds the separator, and a line feed at its
    end is not followed by another one. *)
Definition reading (cur s : text) : Prop :=
  ¬ occurs NLNL cur
  ∧ ∀ cur', cur = cur' ++ ["010"%char] → ∀ s', s ≠ "010"%char :: s'.

Lemma occurs_snoc (cur : text) (c : ascii) :
  occurs NLNL (cur ++ [c]) → occurs NLNL cur ∨ (c = "010"%char ∧ ∃ cur', cur = cur' ++ ["010"%char]).
Proof.
  intros [a [b Hab]]. destruct b as [|x b _] using rev_ind.
  - right. rewrite app_nil_r in Hab. unfold NLNL in Hab.
    change (a ++ ["010"%char; "010"%char]) with (a ++ ["010"%char] ++ ["010"%char]) in Hab.
    rewrite app_assoc in Hab. apply app_inj_tail in Hab as [-> ->]. split; [done|by exists a].
  - left. rewrite !app_assoc in Hab. apply app_inj_tail in Hab as [-> _].
    exists a, b. by rewrite <- app_assoc.
Qed.

Lemma split_paragraphs_pieces (s : text) : ∀ cur,
  reading cur s → Forall (fun p => ¬ occurs NLNL p) (split_paragraphs s cur).
Proof.
  induction s as [s IH] using (induction_ltof1 _ (@length ascii)). unfold ltof in IH.
  intros cur [Hcur Hend]. destruct s as [|c s]; [by repeat constructor|].
  rewrite split_paragraphs_cons.
  assert (Hnil : reading [] []).
  { split; [|by intros [|??] ?]. intros [a [b Hab]]. by destruct a. }
  assert (Hfresh : ∀ t, reading [] t).
  { intros t. split; [|by intros [|??] ?]. intros [a [b Hab]]. by destruct a. }
  assert (Hnext : (∀ s', s ≠ "010"%char :: s') ∨ c ≠ "010"%char → reading (cur ++ [c]) s).
  { intros Hs. split.
    - intros Hocc. apply occurs_snoc in Hocc as [Hocc|[-> [cur' ->]]]; [done|].
      by apply (Hend cur' eq_refl s).
    - intros cur' Heq s' ->. apply app_inj_tail in Heq as [_ ->].
      destruct Hs as [Hs|Hs]; [by apply (Hs s')|done]. }
  destruct s as [|c' s''].
  - apply IH; [simpl; lia|]. apply Hnext. by left.
  - destruct (Ascii.eqb_spec c "010") as [->|Hc]; cbn [andb].
    + destruct (Ascii.eqb_spec c' "010") as [->|Hc'].
      * constructor; [done|]. apply IH; [simpl; lia|apply Hfresh].
      * apply IH; [simpl; lia|]. apply Hnext. left. intros s' [= ? _]. done.
    + apply IH; [simpl; lia|]. apply Hnext. by right.
Qed.

(** [content.split('\n\n')] and ['\n\n'.join]: joining the paragraphs with
    the separator gives the content back, there is at least one paragraph,
    and no paragraph holds the separator. *)
Theorem split_paragraphs_round_trip (content : text) :
  join NLNL (split_paragraphs content []) = content
  ∧ split_paragraphs content [] ≠ []
  ∧ Forall (fun p => ¬ occurs NLNL p) (split_paragraphs content []).
Proof.
  split; [apply (split_paragraphs_join content [])|].
  split; [apply split_paragraphs_nonempty|].
  apply split_paragraphs_pieces. split; [|by intros [|??] ?].
  intros [a [b Hab]]. by destruct a.
Qed.

(** *** The story *)

(** The characters of a text that are not white space. *)
Definition visible (s : text) : text := List.filter (fun c => negb (is_space c)) s.

Definition blank (s : text) : Prop := Forall (fun c => is_space c = true) s.

(** The texts of the paragraphs of a story. *)
Definition texts (l : list flowable) : list text :=
  omap (fun f => match f with Paragraph t _ => Some t | Spacer _ _ => None end) l.

Lemma visible_app (a b : text) : visible (a ++ b) = visible a ++ visible b.
Proof. apply List.filter_app. Qed.

Lemma visible_blank (s : text) : blank s → visible s = [].
Proof.
  induction 1 as [|c s Hc _ IH]; [done|]. unfold visible in *. cbn [List.filter].
  by rewrite Hc.
Qed.

Lemma visible_nil_blank (s : text) : visible s = [] → blank s.
Proof.
  induction s as [|c s IH]; [constructor|]. unfold visible in *. cbn [List.filter].
  destruct (is_space c) eqn:Hc; cbn [negb]; [|done]. intros H.
  unfold blank. constructor; [done|by apply IH].
Qed.

Lemma lstrip_decomp (s : text) : ∃ ws, s = ws ++ lstrip s ∧ blank ws.
Proof.
  induction s as [|c s (ws & Hs & Hws)]; [exists []; split; [done|constructor]|]. simpl.
  destruct (is_space c) eqn:Hc.
  - exists (c :: ws). split; [by rewrite Hs at 1|by constructor].
  - exists []. split; [done|constructor].
Qed.

Lemma lstrip_head (s : text) (c : ascii) (t : text) : lstrip s = c :: t → is_space c = false.
Proof.
  induction s as [|x s IH]; [done|]. simpl. destruct (is_space x) eqn:Hx; [done|].
  by intros [= <- _].
Qed.

Lemma rstrip_decomp (s : text) : ∃ ws, s = rstrip s ++ ws ∧ blank ws.
Proof.
  unfold rstrip. destruct (lstrip_decomp (rev s)) as (ws & Hs & Hws).
  exists (rev ws). split.
  - rewrite <- (rev_involutive s), Hs at 1. by rewrite rev_app_distr.
  - unfold blank in *. rewrite Forall_forall in *. intros c Hc. apply Hws.
    apply list_elem_of_In. apply list_elem_of_In in Hc. by apply in_rev.
Qed.

Lemma rstrip_last (s t : text) (c : ascii) : rstrip s = t ++ [c] → is_space c = false.
Proof.
  unfold rstrip. intros H. apply (f_equal (@rev ascii)) in H.
  rewrite rev_involutive, rev_app_distr in H. simpl in H. by eapply lstrip_head.
Qed.

Lemma strip_decomp (s : text) : ∃ a b, s = a ++ strip s ++ b ∧ blank a ∧ blank b.
Proof.
  unfold strip. destruct (lstrip_decomp s) as (a & Hs & Ha).
  destruct (rstrip_decomp (lstrip s)) as (b & Hl & Hb).
  exists a, b. split; [|done]. rewrite Hs at 1. by rewrite Hl at 1.
Qed.

Lemma visible_strip (s : text) : visible (strip s) = visible s.
Proof.
  destruct (strip_decomp s) as (a & b & Hs & Ha & Hb). rewrite Hs at 2.
  by rewrite !visible_app, (visible_blank a Ha), (visible_blank b Hb), app_nil_r.
Qed.

(** A text that begins and ends with a character that is not white space. *)
Definition trimmed (t : text) : Prop :=
  (∃ c t', t = c :: t' ∧ is_space c = false) ∧ (∃ t' c, t = t' ++ [c] ∧ is_space c = false).

Lemma strip_trimmed (s : text) : strip s ≠ [] → trimmed (strip s).
Proof.
  intros Hne. split.
  - unfold strip in *. destruct (rstrip_decomp (lstrip s)) as (b & Hl & Hb).
    destruct (rstrip (lstrip s)) as [|c t'] eqn:Hr; [done|].
    exists c, t'. split; [done|]. apply (lstrip_head s c (t' ++ b)). by rewrite Hl.
  - destruct (strip s) as [|c t' _] eqn:Hs using rev_ind; [done|].
    exists t', c. split; [done|]. unfold strip in Hs. by eapply rstrip_last.
Qed.

Lemma texts_app (l1 l2 : list flowable) : texts (l1 ++ l2) = texts l1 ++ texts l2.
Proof. apply omap_app. Qed.

Lemma flowables_of_texts (p : text) :
  texts (flowables_of p) = match strip p with [] => [] | _ => [strip p] end.
Proof. unfold flowables_of. by destruct (strip p). Qed.

Lemma visible_join (ps : list text) :
  visible (join NLNL ps) = concat (visible <$> ps).
Proof.
  induction ps as [|p ps IH]; [done|]. destruct ps as [|q ps]; [by simpl; rewrite app_nil_r|].
  rewrite join_cons by done. rewrite !visible_app, IH. done.
Qed.

Lemma story_visible (ps : list text) :
  visible (concat (texts (flat_map flowables_of ps))) = concat (visible <$> ps).
Proof.
  induction ps as [|p ps IH]; [done|]. cbn [flat_map fmap list_fmap concat].
  rewrite texts_app, concat_app, visible_app, IH, flowables_of_texts. f_equal.
  rewrite <- (visible_strip p). destruct (strip p) as [|c t]; [done|].
  cbn [concat]. by rewrite app_nil_r.
Qed.

Lemma story_shape (ps : list text) :
  flat_map flowables_of ps
  = flat_map (fun t => [Paragraph t "Normal"; Spacer 1 12]) (texts (flat_map flowables_of ps))
  ∧ Forall trimmed (texts (flat_map flowables_of ps)).
Proof.
  induction ps as [|p ps [IH1 IH2]]; [by split|]. cbn [flat_map].
  rewrite texts_app, flat_map_app, <- IH1, flowables_of_texts. unfold flowables_of.
  destruct (strip p) as [|c t] eqn:Hp; [done|]. split; [done|].
  apply Forall_app. split; [|done]. constructor; [|done].
  rewrite <- Hp. apply strip_trimmed. by rewrite Hp.
Qed.

(** The story that [create_pdf_document] builds: it consists of pairs of a
    paragraph in the style [Normal] and a spacer; every paragraph begins and
    ends with a character that is not white space (so none is empty); apart
    from white space the paragraphs hold exactly the characters of the
    content, in order; and the story is empty exactly when the content is
    blank. *)
Theorem story_keeps_text (content : text) :
  story content
  = flat_map (fun t => [Paragraph t "Normal"; Spacer 1 12]) (texts (story content))
  ∧ Forall trimmed (texts (story content))
  ∧ visible (concat (texts (story content))) = visible content
  ∧ (story content = [] ↔ blank content).
Proof.
  unfold story. destruct (story_shape (split_paragraphs content [])) as [Hshape Htrim].
  assert (Hvis : visible (concat (texts (flat_map flowables_of (split_paragraphs content []))))
                 = visible content).
  { rewrite story_visible, <- visible_join. by rewrite (split_paragraphs_join content []). }
  repeat split; [done|done|done|..].
  - intros Hnil. apply visible_nil_blank. rewrite <- Hvis, Hnil. done.
  - intros Hb. rewrite (visible_blank _ Hb) in Hvis. rewrite Hshape.
    destruct (texts _) as [|t ts]; [done|]. exfalso.
    apply Forall_cons in Htrim as [[(c & t' & -> & Hc) _] _].
    simpl in Hvis. by rewrite Hc in Hvis.
Qed.

End PdfFacts.

(** ** Research progress and relevance scores *)
Module EnhancedFacts.
Import Json Parser Enhanced.

(** *** The counters of [ResearchProgress] *)

Inductive call :=
| AddStep (name : text)
| CompleteStep (name res : text).

Definition do_call (now : nat -> text) (p : ResearchProgress) (c : call) : ResearchProgress :=
  match c with
  | AddStep name => add_step now name p
  | CompleteStep name res => complete_step name res p
  end.

Definition added (cs : list call) : list text :=
  omap (fun c => match c with AddStep name => Some name | _ => None end) cs.

Definition completions (cs : list call) : nat :=
  length (omap (fun c => match c with CompleteStep _ _ => Some tt | _ => None end) cs).

(** The entries whose status is ["completed"]. *)
Definition marked (l : list step_entry) : nat :=
  length (List.filter (fun s => text_eqb (status s) (lit "completed")) l).

Lemma mark_completed_steps (name res : text) (l : list step_entry) :
  map step (mark_completed name res l) = map step l
  ∧ map timestamp (mark_completed name res l) = map timestamp l
  ∧ length (mark_completed name res l) = length l
  ∧ marked (mark_completed name res l) ≤ S (marked l)
  ∧ marked l ≤ marked (mark_completed name res l).
Proof.
  induction l as [|s l (IH1 & IH2 & IH3 & IH4 & IH5)];
    [repeat split; unfold marked; simpl; lia|].
  cbn [mark_completed]. destruct (text_eqb (step s) name).
  - repeat split; unfold marked; cbn [List.filter status];
      destruct (text_eqb (status s) _); cbn [length]; try lia.
    all: change (text_eqb (lit "completed") (lit "completed")) with true; cbn [length]; lia.
  - cbn [map length]. rewrite IH1, IH2, IH3. repeat split.
    + unfold marked in *. cbn [List.filter]. destruct (text_eqb (status s) _); cbn [length]; lia.
    + unfold marked in *. cbn [List.filter]. destruct (text_eqb (status s) _); cbn [length]; lia.
Qed.

Lemma marked_app (l1 l2 : list step_entry) : marked (l1 ++ l2) = marked l1 + marked l2.
Proof. unfold marked. by rewrite List.filter_app, length_app. Qed.

(** [ResearchProgress], after any sequence of calls of [add_step] and
    [complete_step] on a new object: [total_steps] is the number of entries
    and of calls of [add_step]; the entries are the added steps, in the order
    of the calls; [completed_steps] is the number of calls of
    [complete_step], whether or not they named a step; and the number of
    entries marked completed is at most [completed_steps]. *)
Theorem progress_counters (now : nat -> text) (cs : list call) :
  let p := foldl (do_call now) ResearchProgress_init cs in
  total_steps p = length (steps p)
  ∧ map step (steps p) = added cs
  ∧ completed_steps p = completions cs
  ∧ marked (steps p) ≤ completed_steps p.
Proof.
  induction cs as [|c cs IH] using rev_ind; [by repeat split|].
  cbv zeta in *. rewrite foldl_app. cbn [foldl].
  destruct IH as (IH1 & IH2 & IH3 & IH4).
  set (p := foldl (do_call now) ResearchProgress_init cs) in *.
  unfold added, completions in *. rewrite !omap_app, !length_app.
  destruct c as [name|name res]; cbn [do_call add_step complete_step steps total_steps
    completed_steps].
  - change (omap _ [AddStep name]) with [name] at 1.
    change (length (omap _ [AddStep name])) with 0.
    rewrite length_app, map_app, marked_app, IH1, IH2.
    change (marked [_]) with 0. cbn [length map]. repeat split; lia.
  - change (omap _ [CompleteStep name res]) with (@nil text) at 1.
    change (length (omap _ [CompleteStep name res])) with 1.
    destruct (mark_completed_steps name res (steps p)) as (H1 & _ & H3 & H4 & _).
    rewrite H1, H3, IH2, app_nil_r. repeat split; try done; lia.
Qed.

(** [completed_steps] can exceed [total_steps]: completing a step that was
    never added counts. *)
Example progress_counts_unknown_steps :
  let p := foldl (do_call (fun _ => lit "t")) ResearchProgress_init
             [AddStep (lit "a"); CompleteStep (lit "b") []; CompleteStep (lit "b") []] in
  total_steps p = 1 ∧ completed_steps p = 2 ∧ marked (steps p) = 0.
Proof. vm_compute. done. Qed.

(** *** The progress of [perform_legal_research] *)

Definition names (p : ResearchProgress) : list text := map step (steps p).
Definition statuses (p : ResearchProgress) : list text := map status (steps p).

Lemma mark_completed_last (name res : text) (l : list step_entry) (s : step_entry) :
  name ∉ map step l → step s = name →
  mark_completed name res (l ++ [s])
  = l ++ [ {| step := step s; timestamp := timestamp s; status := lit "completed";
              result := match res with [] => result s | _ => Some res end |} ].
Proof.
  intros Hnot Hs. induction l as [|x l IH]; cbn [mark_completed app].
  - unfold text_eqb. by rewrite bool_decide_true.
  - cbn [map] in Hnot. apply not_elem_of_cons in Hnot as [Hx Hl].
    unfold text_eqb. rewrite bool_decide_false by done. f_equal. by apply IH.
Qed.

Section Research.
Variable now : nat -> text.

(** A step that is added and then completed, when no earlier step has its
    name. *)
Lemma add_then_complete (name res : text) (p : ResearchProgress) :
  name ∉ names p →
  names (complete_step name res (add_step now name p)) = names p ++ [name]
  ∧ statuses (complete_step name res (add_step now name p))
    = statuses p ++ [lit "completed"]
  ∧ total_steps (complete_step name res (add_step now name p)) = total_steps p + 1
  ∧ completed_steps (complete_step name res (add_step now name p)) = completed_steps p + 1
  ∧ current_step (complete_step name res (add_step now name p)) = name.
Proof.
  intros Hnot. unfold names, statuses, complete_step, add_step.
  cbn [steps total_steps completed_steps current_step].
  rewrite mark_completed_last by done. by rewrite !map_app.
Qed.

Variable search_legal_sources : nat -> text -> list json.

Lemma search_all_progress (queries : list text) : ∀ n p sent cases,
  NoDup (names p ++ ((fun q => lit "Searching: " ++ q) <$> queries)) →
  ∃ p' sent' cases',
    search_all now search_legal_sources n queries (p, sent, cases) = (p', sent', cases')
    ∧ names p' = names p ++ ((fun q => lit "Searching: " ++ q) <$> queries)
    ∧ statuses p' = statuses p ++ replicate (length queries) (lit "completed")
    ∧ total_steps p' = total_steps p + length queries
    ∧ completed_steps p' = completed_steps p + length queries
    ∧ length sent' = length sent + 2 * length queries.
Proof.
  induction queries as [|q queries IH]; intros n p sent cases Hnd.
  - exists p, sent, cases. cbn. rewrite !app_nil_r. repeat split; lia.
  - cbn [search_all].
    assert (Hq : lit "Searching: " ++ q ∉ names p).
    { apply NoDup_app in Hnd as (_ & Hdis & _). intros Hin. apply (Hdis _ Hin).
      cbn [fmap list_fmap]. apply list_elem_of_here. }
    destruct (add_then_complete (lit "Searching: " ++ q)
                (lit "Found " ++ str_of_nat (length (search_legal_sources n q)) ++ lit " results")
                p Hq) as (Hn & Hs & Ht & Hc & _).
    edestruct (IH (S n)) as (p' & sent' & cases' & Heq & Hn' & Hs' & Ht' & Hc' & Hl').
    2: { exists p', sent', cases'. split; [exact Heq|].
         rewrite Hn', Hs', Ht', Hc', Hl', Hn, Hs, Ht, Hc. cbn [fmap list_fmap length replicate].
         rewrite !length_app. cbn [length]. rewrite <- !app_assoc. repeat split; lia. }
    rewrite Hn, <- app_assoc. exact Hnd.
Qed.

Variable analyze_case_relevance_with_o3 : list json -> DefendantInfo -> list json.

(** [perform_legal_research], whatever the record, the year and the lists
    that the searches and the analysis return: it adds nine steps and
    completes eight of them.  The first step,
    ["Searching for recent First Step Act cases..."], is never completed, so
    the progress that is broadcast last stands at eight of nine; seventeen
    snapshots are broadcast. *)
Theorem research_progress_stops_short (info : DefendantInfo) (year : text) :
  ∃ p sent cases,
    perform_legal_research now search_legal_sources analyze_case_relevance_with_o3 info year
    = (p, sent, cases)
    ∧ total_steps p = 9
    ∧ completed_steps p = 8
    ∧ statuses p = lit "in_progress" :: replicate 8 (lit "completed")
    ∧ length sent = 17
    ∧ last sent = Some p.
Proof.
  unfold perform_legal_research.
  set (p0 := add_step now (lit "Searching for recent First Step Act cases...")
               ResearchProgress_init).
  destruct (search_all_progress (search_queries info year) 0 p0 [p0] [])
    as (p1 & sent1 & cases1 & Heq & Hn1 & Hs1 & Ht1 & Hc1 & Hl1).
  { cbn. repeat (apply NoDup_cons; split; [rewrite ?elem_of_cons, ?elem_of_nil;
                                             intros H; intuition congruence|]).
    apply NoDup_nil_2. }
  rewrite Heq.
  set (a := analyze_case_relevance_with_o3 cases1 info).
  destruct (add_then_complete (lit "Analyzing case relevance with O3 reasoning model...")
              (lit "Analyzed " ++ str_of_nat (length a) ++ lit " relevant cases") p1)
    as (Hn2 & Hs2 & Ht2 & Hc2 & _).
  { rewrite Hn1. cbn. rewrite ?elem_of_cons, ?elem_of_nil. intros H; intuition congruence. }
  set (p2 := complete_step _ _ (add_step now _ p1)) in *.
  destruct (add_then_complete (lit "Researching " ++ district info ++ lit " court trends...")
              (lit "District analysis complete") p2) as (Hn3 & Hs3 & Ht3 & Hc3 & _).
  { rewrite Hn2, Hn1. cbn. rewrite ?elem_of_cons, ?elem_of_nil.
    intros H; intuition congruence. }
  set (p3 := complete_step _ _ (add_step now _ p2)) in *.
  destruct (add_then_complete (lit "Gathering supporting legal authorities...")
              (lit "Found " ++ str_of_nat legal_authorities_count ++ lit " authorities") p3)
    as (Hn4 & Hs4 & Ht4 & Hc4 & _).
  { rewrite Hn3, Hn2, Hn1. cbn. rewrite ?elem_of_cons, ?elem_of_nil.
    intros H; intuition congruence. }
  set (p4 := complete_step _ _ (add_step now _ p3)) in *.
  eexists _, _, _. split; [reflexivity|].
  rewrite Ht4, Ht3, Ht2, Ht1, Hc4, Hc3, Hc2, Hc1, Hs4, Hs3, Hs2, Hs1.
  rewrite !length_app, Hl1, last_snoc. cbn. done.
Qed.

End Research.

(** *** [calculate_relevance] *)

Lemma is_space_lower_char (c : ascii) : is_space (lower_char c) = is_space c.
Proof. destruct c as [[] [] [] [] [] [] [] []]; vm_compute; reflexivity. Qed.

Lemma split_ws_nil (s : text) : ∀ cur,
  Orchestrator.split_ws s cur = [] ↔ cur = [] ∧ Forall (fun c => is_space c = true) s.
Proof.
  induction s as [|c s IH]; intros cur; cbn [Orchestrator.split_ws].
  - destruct cur; split; [by split|done|done|by intros [? _]].
  - destruct (is_space c) eqn:Hc.
    + destruct cur as [|x cur].
      * rewrite IH. split; intros [? H]; (split; [done|]).
        -- by constructor.
        -- by apply Forall_cons in H as [_ H].
      * split; [done|by intros [? _]].
    + rewrite IH. split.
      * intros [H _]. by destruct cur.
      * intros [_ H]. apply Forall_cons in H as [H _]. congruence.
Qed.

Lemma score_count (f : text → bool) (l : list text) : ∀ a,
  foldl (fun score word => if f word then score + 1 else score) a l
  = a + length (List.filter f l).
Proof.
  induction l as [|w l IH]; intros a; cbn [foldl List.filter]; [simpl; lia|].
  rewrite IH. destruct (f w); cbn [length]; lia.
Qed.

Lemma filter_all_length {A : Type} (f : A → bool) (l : list A) :
  length (List.filter f l) ≤ length l
  ∧ (length (List.filter f l) = length l ↔ Forall (fun x => f x = true) l).
Proof.
  induction l as [|x l [IH1 IH2]]; [by split|]. cbn [List.filter].
  destruct (f x) eqn:Hx; cbn [length].
  - split; [lia|]. split.
    + intros H. constructor; [done|]. apply IH2. lia.
    + intros H. apply Forall_cons in H as [_ H]. apply IH2 in H. lia.
  - split; [lia|]. split; [lia|]. intros H. apply Forall_cons in H as [H _]. congruence.
Qed.

(** [calculate_relevance] raises [ZeroDivisionError] exactly when the query
    has no word (it is empty or blank), and raises nothing else.  Otherwise
    it returns [score / n], where [n >= 1] is the number of words of the
    query and [score] is the number of words of the lower-cased query,
    counted with repetitions, that occur somewhere in the lower-cased text
    (inside other words too); so [score <= n], and the score is [n] exactly
    when every word occurs. *)
Theorem calculate_relevance_spec (text_ query : text) :
  let words := Orchestrator.split_ws (str_lower query) [] in
  (calculate_relevance text_ query = Raise (lit "division by zero")
   ↔ Forall (fun c => is_space c = true) query)
  ∧ (Forall (fun c => is_space c = true) query
     ∨ ∃ r, calculate_relevance text_ query = Ok r
            ∧ denominator r = length words
            ∧ 1 ≤ denominator r
            ∧ numerator r
              = length (List.filter (fun w => contains w (str_lower text_)) words)
            ∧ numerator r ≤ denominator r
            ∧ (numerator r = denominator r
               ↔ Forall (fun w => contains w (str_lower text_) = true) words)).
Proof.
  intros words.
  assert (Hblank : words = [] ↔ Forall (fun c => is_space c = true) query).
  { unfold words. rewrite split_ws_nil. unfold str_lower. rewrite Forall_map.
    split.
    - intros [_ H]. eapply Forall_impl; [exact H|]. intros c Hc.
      change (is_space (lower_char c) = true) in Hc.
      by rewrite is_space_lower_char in Hc.
    - intros H. split; [done|]. eapply Forall_impl; [exact H|]. intros c Hc.
      change (is_space (lower_char c) = true). by rewrite is_space_lower_char. }
  unfold calculate_relevance. fold words. rewrite score_count.
  destruct (filter_all_length (fun w => contains w (str_lower text_)) words) as [Hle Hall].
  destruct words as [|w ws] eqn:Hw.
  - cbn [length]. split; [|left; by apply Hblank].
    split; [intros _; by apply Hblank|done].
  - cbn [length] in *. split.
    + split; [done|]. intros H. apply Hblank in H. done.
    + right. eexists. split; [reflexivity|]. cbn [numerator denominator].
      repeat split; try lia; apply Hall.
Qed.

End EnhancedFacts.

(** ** The upload endpoints *)
Module UploadFacts.
Import Json Parser Enhanced Upload.

(** A file name that the validation accepts: it is there, and in lower case
    it ends with [.pdf]. *)
Definition pdf_name (filename : option text) : bool :=
  match filename with
  | Some name => ends_with (lit ".pdf") (str_lower name)
  | None => false
  end.

Lemma validate_spec (filenames : list (option text)) :
  match validate filenames with
  | Returned _ => forallb pdf_name filenames = true
  | HTTPError status detail =>
      status = 400
      ∧ ∃ ok bad rest,
          filenames = ok ++ bad :: rest
          ∧ forallb pdf_name ok = true ∧ pdf_name bad = false
          ∧ detail = lit "File "
                     ++ match bad with Some (c :: t) => c :: t | _ => lit "unknown" end
                     ++ lit " must be a PDF"
  | Unhandled _ => False
  end.
Proof.
  induction filenames as [|f fs IH]; [done|]. cbn [validate].
  destruct f as [[|c t]|].
  - split; [done|]. by exists [], (Some []), fs.
  - destruct (ends_with (lit ".pdf") (str_lower (c :: t))) eqn:He.
    + destruct (validate fs) as [[]|status detail|e]; [|  |done].
      * cbn [forallb pdf_name]. by rewrite He.
      * destruct IH as (-> & ok & bad & rest & -> & Hok & Hbad & ->). split; [done|].
        exists (Some (c :: t) :: ok), bad, rest. cbn [forallb pdf_name app].
        by rewrite He.
    + split; [done|]. exists [], (Some (c :: t)), fs. cbn [pdf_name]. by rewrite He.
  - split; [done|]. by exists [], None, fs.
Qed.

Lemma parse_backup_total (t : text) : ∃ info, parse_defendant_info_backup t = Ok info.
Proof.
  destruct ParserFacts.tables_ok as (_ & Hok & _).
  destruct (ParserFacts.parse_with_spec patterns_backup t Hok) as [info [H _]]. by exists info.
Qed.

(** [generate_motion_packet] of [main_backup.py] never returns a session
    identifier.  It ends with status 400 exactly when one of the file names
    is missing or does not end, in lower case, with [.pdf] (the detail names
    the first such file), and with status 500 otherwise: when the files are
    saved and Exhibit A is read, the [try] block still ends in the
    [NameError] of [generate_with_research].  The content of the uploads is
    not looked at by the validation. *)
Theorem backup_upload_never_succeeds (str_http : nat -> text -> text)
    (filenames : list (option text)) (session_id : string) (saved : exc unit)
    (pdf : exc (list (exc (option text)))) :
  ∃ status detail,
    generate_motion_packet_backup str_http filenames session_id saved pdf
    = HTTPError status detail
    ∧ (forallb pdf_name filenames = false → status = 400)
    ∧ (forallb pdf_name filenames = true →
       status = 500
       ∧ (saved = Ok tt → ∀ pages text_, pdf = Ok pages → page_texts pages [] = Ok text_ →
          detail
          = lit "Error processing files: name 'generate_with_research' is not defined")).
Proof.
  unfold generate_motion_packet_backup. pose proof (validate_spec filenames) as Hv.
  destruct (validate filenames) as [[]|status detail|e]; [|  |done].
  - destruct saved as [[]|e].
    + destruct (extract_text_from_pdf pdf) as [t|s d|e] eqn:Hx.
      * destruct (parse_backup_total t) as [info ->]. cbn [mbind exc_bind].
        eexists 500, _. split; [reflexivity|]. split; [congruence|]. by intros _.
      * eexists 500, _. split; [reflexivity|]. split; [congruence|]. intros _.
        split; [done|]. intros _ pages text_ -> Hp. unfold extract_text_from_pdf in Hx.
        cbn [mbind exc_bind] in Hx. by rewrite Hp in Hx.
      * eexists 500, _. split; [reflexivity|]. split; [congruence|]. intros _.
        split; [done|]. intros _ pages text_ -> Hp. unfold extract_text_from_pdf in Hx.
        cbn [mbind exc_bind] in Hx. by rewrite Hp in Hx.
    + eexists 500, _. split; [reflexivity|]. split; [congruence|]. intros _.
      split; [done|]. intros [=].
  - destruct Hv as (-> & ok & bad & rest & -> & Hok & Hbad & ->).
    eexists 400, _. split; [reflexivity|]. split; [done|].
    rewrite forallb_app. cbn [forallb]. rewrite Hok, Hbad. done.
Qed.

Lemma backup_upload_never_succeeds_witness :
  generate_motion_packet_backup (fun _ d => d)
    [Some (lit "Exhibit_A.PDF"); Some (lit "b.pdf"); Some (lit "c.pdf")] "s" (Ok tt)
    (Ok [Ok (Some (lit "Defendant: Maria Rodriguez"))])
  = HTTPError 500 (lit "Error processing files: name 'generate_with_research' is not defined").
Proof.
  destruct (backup_upload_never_succeeds (fun _ d => d)
              [Some (lit "Exhibit_A.PDF"); Some (lit "b.pdf"); Some (lit "c.pdf")] "s" (Ok tt)
              (Ok [Ok (Some (lit "Defendant: Maria Rodriguez"))]))
    as (status & detail & -> & _ & H5).
  destruct (H5 eq_refl) as [-> Hd].
  by rewrite (Hd eq_refl _ _ eq_refl eq_refl).
Defined.

Lemma page_texts_none (pages : list (exc (option text))) (acc : text) :
  Forall (fun p => p = Ok None ∨ p = Ok (Some [])) pages → page_texts pages acc = Ok acc.
Proof.
  induction 1 as [|p pages [-> | ->] _ IH]; [done|..]; cbn [page_texts]; exact IH.
Qed.

Lemma page_texts_result (pages : list (exc (option text))) : ∀ acc,
  match page_texts pages acc with
  | Ok t => Forall (fun p => ∃ x, p = Ok x) pages
  | Raise e => Raise e ∈ pages
  end.
Proof.
  induction pages as [|[[[|c t]|]|e] pages IH]; intros acc; cbn [page_texts].
  - constructor.
  - specialize (IH acc). destruct (page_texts pages acc).
    + constructor; [by eexists|done].
    + by apply list_elem_of_further.
  - specialize (IH (acc ++ (c :: t) ++ ["010"%char])). destruct (page_texts pages _).
    + constructor; [by eexists|done].
    + by apply list_elem_of_further.
  - specialize (IH acc). destruct (page_texts pages acc).
    + constructor; [by eexists|done].
    + by apply list_elem_of_further.
  - apply list_elem_of_here.
Qed.

(** [generate_motion_packet] of [main.py] and [main_o3.py], once the upload
    is saved: when the PDF cannot be opened or a page cannot be read, the
    request ends with status 400 and the message of the exception, and no
    generation is started; in every other case a generation is started,
    whatever the PDF holds (nothing is validated); and for a PDF in which no
    page has text it is started with the record in which every field is
    ["UNKNOWN"]. *)
Theorem upload_starts_generation (session_id : string)
    (pdf : exc (list (exc (option text)))) :
  let r := generate_motion_packet parse_defendant_info session_id (Ok tt) pdf in
  (∀ e, pdf = Raise e → r = HTTPError 400 (lit "Error reading PDF: " ++ e))
  ∧ (∀ pages e, pdf = Ok pages → page_texts pages [] = Raise e →
     Raise e ∈ pages ∧ r = HTTPError 400 (lit "Error reading PDF: " ++ e))
  ∧ (∀ pages, pdf = Ok pages → Forall (fun p => ∃ x, p = Ok x) pages →
     ∃ info, r = Returned (info, session_id))
  ∧ (∀ pages, pdf = Ok pages → Forall (fun p => p = Ok None ∨ p = Ok (Some [])) pages →
     r = Returned (DefendantInfo_init, session_id)).
Proof.
  intros r. unfold r, generate_motion_packet, extract_text_from_pdf.
  split; [|split; [|split]].
  - by intros e ->.
  - intros pages e -> He. pose proof (page_texts_result pages []) as Hp.
    rewrite He in Hp. split; [done|]. cbn [mbind exc_bind]. by rewrite He.
  - intros pages -> Hall. cbn [mbind exc_bind].
    pose proof (page_texts_result pages []) as Hp.
    destruct (page_texts pages []) as [t|e].
    + destruct ParserFacts.tables_ok as (Hok & _ & _).
      destruct (ParserFacts.parse_with_spec patterns_main t Hok) as [info [Hi _]].
      unfold parse_defendant_info. rewrite Hi. by exists info.
    + rewrite Forall_forall in Hall. destruct (Hall _ Hp) as [x [=]].
  - intros pages -> Hall. cbn [mbind exc_bind]. rewrite (page_texts_none pages [] Hall).
    vm_compute. reflexivity.
Qed.

Lemma upload_starts_generation_witness :
  generate_motion_packet parse_defendant_info "s" (Ok tt) (Ok [Ok None; Ok (Some [])])
  = Returned (DefendantInfo_init, "s"%string).
Proof.
  destruct (upload_starts_generation "s" (Ok [Ok None; Ok (Some [])])) as (_ & _ & _ & H).
  apply (H [Ok None; Ok (Some [])] eq_refl).
  constructor; [by left|]. constructor; [by right|]. constructor.
Defined.

End UploadFacts.

(** ** From the orchestrator to the client *)
Module StreamFacts.
Import Json Bus Parser Splitter WebSearch Orchestrator RelayO3.
Import BusFacts RelayO3Facts OrchestratorFacts.

(** *** When the stream ends *)

Lemma exit_completed_backup (sid : string) (sch : list action) : ∀ w,
  (at_ (gen w) = Exited → completed (store w) sid = true) →
  at_ (gen (run_backup sid sch w)) = Exited →
  completed (store (run_backup sid sch w)) sid = true.
Proof.
  induction sch as [|a sch IH]; intros w Hex; [done|].
  change (run_backup sid (a :: sch) w) with (run_backup sid sch (step_backup sid w a)).
  apply IH. destruct a as [o|d]; simpl.
  - intros Hat. by apply completed_apply_op, Hex.
  - unfold relay_step_backup. destruct (at_ (gen w)) as [|i stop|] eqn:Hat; simpl.
    + destruct (store w !! sid); simpl; [|by rewrite Hat].
      destruct (events _ !! _); simpl; [done|]. by destruct (completed (store w) sid).
    + by rewrite Hat.
    + rewrite Hat. done.
Qed.

Lemma exit_completed_main (sid : string) (sch : list action) : ∀ w,
  inv_main sid w →
  (at_ (gen w) = Exited → completed (store w) sid = true) →
  at_ (gen (run sid sch w)) = Exited →
  completed (store (run sid sch w)) sid = true ∨ Tick true ∈ sch.
Proof.
  induction sch as [|a sch IH]; intros w Hw Hex Hat; [by left; apply Hex|].
  change (run sid (a :: sch) w) with (run sid sch (step sid w a)) in *.
  assert (Hnext : a = Tick true
                  ∨ (at_ (gen (step sid w a)) = Exited →
                     completed (store (step sid w a)) sid = true)).
  { destruct Hw as [_ _ _ _ _ _ Hfor]. destruct a as [o|[|]]; [right|by left|right]; simpl.
    - intros Hat'. by apply completed_apply_op, Hex.
    - unfold relay_step. destruct (at_ (gen w)) as [|i stop|] eqn:Hat'.
      + destruct (store w !! sid); simpl; by rewrite ?Hat'.
      + destruct (Hfor i stop eq_refl) as [His Hstop].
        destruct (Nat.leb_spec stop i) as [Hle|Hlt].
        * unfold end_of_poll. simpl. by destruct (completed (store w) sid).
        * destruct (lookup_lt_is_Some_2 (log_of (store w) sid) i) as [e He]; [lia|].
          rewrite He. by destruct (relay_event e).
      + simpl. rewrite Hat'. done. }
  destruct Hnext as [->|Hnext]; [right; apply list_elem_of_here|].
  destruct (IH (step sid w a)) as [Hc|Hin]; [by apply inv_main_step|done|done|by left|].
  right. by apply list_elem_of_further.
Qed.

(** The event generators of [main.py] and [main_backup.py], for every
    interleaving of writes and resumptions: the generator of
    [main_backup.py] finishes only if the session is completed, and that of
    [main.py] only if the session is completed or the client has
    disconnected.  In particular the stream of a session that is never
    completed stays open. *)
Theorem stream_ends_only_after_completion (sid : string) (sch : list action) :
  (at_ (gen (run_backup sid sch world_init)) = Exited →
   completed (store (run_backup sid sch world_init)) sid = true)
  ∧ (at_ (gen (run sid sch world_init)) = Exited →
     completed (store (run sid sch world_init)) sid = true ∨ Tick true ∈ sch).
Proof.
  split.
  - apply exit_completed_backup. by intros [=].
  - apply exit_completed_main; [apply inv_main_init|by intros [=]].
Qed.

Lemma stream_ends_only_after_completion_witness :
  let sch := [Op (OpCreate "s"); Tick false; Tick false; Op (OpComplete "s");
              Tick false; Tick false] in
  at_ (gen (run_backup "s" sch world_init)) = Exited
  ∧ completed (store (run_backup "s" sch world_init)) "s" = true.
Proof.
  intros sch. split; [reflexivity|].
  by apply (stream_ends_only_after_completion "s" sch).
Defined.

(** *** The store after the writes of a run *)

Definition after_ops (ops : list store_op) : gmap string session := foldl apply_op ∅ ops.

Lemma run_o3_ops (sid : string) (ops : list store_op) : ∀ w,
  run_o3 sid (Op <$> ops) w = {| store := foldl apply_op (store w) ops; gen := gen w |}.
Proof.
  induction ops as [|o ops IH]; intros w; [by destruct w|].
  change (run_o3 sid (Op <$> (o :: ops)) w) with (run_o3 sid (Op <$> ops) (step_o3 sid w (Op o))).
  by rewrite IH.
Qed.

Lemma run_backup_ops (sid : string) (ops : list store_op) : ∀ w,
  run_backup sid (Op <$> ops) w = {| store := foldl apply_op (store w) ops; gen := gen w |}.
Proof.
  induction ops as [|o ops IH]; intros w; [by destruct w|].
  change (run_backup sid (Op <$> (o :: ops)) w) with (run_backup sid (Op <$> ops) (step_backup sid w (Op o))).
  by rewrite IH.
Qed.

Lemma run_main_ops (sid : string) (ops : list store_op) : ∀ w,
  run sid (Op <$> ops) w = {| store := foldl apply_op (store w) ops; gen := gen w |}.
Proof.
  induction ops as [|o ops IH]; intros w; [by destruct w|].
  change (run sid (Op <$> (o :: ops)) w) with (run sid (Op <$> ops) (step sid w (Op o))).
  by rewrite IH.
Qed.

Lemma appends_store (sid : string) (evs : list event) : ∀ (st : gmap string session) l x,
  st !! sid = Some {| events := l; sess_status := x |} →
  foldl apply_op st (OpAppend sid <$> evs)
  = <[sid := {| events := l ++ evs; sess_status := x |}]> st.
Proof.
  induction evs as [|e evs IH]; intros st l x Hs; simpl.
  - rewrite app_nil_r. by rewrite insert_id.
  - rewrite Hs. simpl. rewrite (IH _ (l ++ [e]) x) by by rewrite lookup_insert_eq.
    by rewrite insert_insert_eq, <- app_assoc.
Qed.

Lemma after_run_ops (sid : string) (evs : list event) (fin : bool) :
  after_ops (OpCreate sid :: (OpAppend sid <$> evs) ++ (if fin then [OpComplete sid] else []))
  = {[ sid := {| events := evs; sess_status := if fin then Completed else Active |} ]}.
Proof.
  unfold after_ops. simpl. rewrite lookup_empty, foldl_app.
  rewrite (appends_store sid evs _ [] Active) by by rewrite lookup_insert_eq.
  rewrite insert_insert_eq. destruct fin; simpl; [|done].
  rewrite lookup_insert_eq. simpl. by rewrite insert_insert_eq.
Qed.

Lemma store_ops_quiet (sid : string) (t : list effect) :
  Forall (quiet sid) t →
  ∃ evs, store_ops t = OpAppend sid <$> evs ∧ Forall progress_event evs.
Proof.
  induction 1 as [|x t Hx _ [evs [IH Hevs]]]; [by exists []|].
  rewrite store_ops_cons.
  destruct x as [[s|s e|s]| | | |]; simpl in Hx; try done; try by exists evs.
  destruct Hx as [-> He]. exists (e :: evs). rewrite IH. split; [done|by constructor].
Qed.

Lemma inv_backup_x_fresh (sid : string) (st : gmap string session) :
  inv_backup_x sid {| store := st; gen := relay_init |}.
Proof.
  split; [split|]; simpl; try done; try lia; try (by left); by intros [=].
Qed.

(** *** A failed run of [main_o3.py] or [main_backup.py], seen by the client *)

Definition drained (v : variant) (sid : string) (ops : list store_op) (n : nat) : world :=
  match v with
  | O3 => drain_o3 sid n (run_o3 sid (Op <$> ops) world_init)
  | Backup => drain_backup sid n (run_backup sid (Op <$> ops) world_init)
  end.

(** When the tool-calling loop of [main_o3.py] or [main_backup.py] raises
    [e], a client that reads the stream of the session after the run
    receives the [thinking] and [search] events of the run, then the error
    frame as the last frame; and the stream does not end, however long the
    client keeps reading, because the status is never set to completed. *)
Theorem failed_run_stream_stays_open (key cx : text)
    (completion : nat -> text -> create_outcome) (http : nat -> request -> http_outcome)
    (system_prompt : variant -> DefendantInfo -> text) (v : variant) (fuel : nat)
    (info : DefendantInfo) (sid : string) (e : text) (n : nat) :
  let ops := store_ops (trace (snd (run_loop key cx completion http system_prompt v fuel
                                      info sid))) in
  fst (loop key cx completion http v fuel sid (initial_messages system_prompt v info)
         (started sid)) = Exn e →
  2 * length ops ≤ n →
  ∃ evs,
    Forall progress_event evs
    ∧ log_of (store (drained v sid ops n)) sid = evs ++ [error_event e]
    ∧ frames (drained v sid ops n) = map relay_event_backup (evs ++ [error_event e])
    ∧ at_ (gen (drained v sid ops n)) ≠ Exited.
Proof.
  intros ops Hraise Hn.
  destruct (emits_loop sid key cx completion http v fuel
              (initial_messages system_prompt v info) (started sid)) as [t [Ht Hq]].
  destruct (loop key cx completion http v fuel sid (initial_messages system_prompt v info)
              (started sid)) as [r s1] eqn:Hloop.
  cbn [fst snd] in Hraise, Ht. subst r.
  destruct (store_ops_quiet sid t Hq) as [evs [Hevs Hprog]].
  assert (Hops : ops = OpCreate sid :: (OpAppend sid <$> (evs ++ [error_event e])) ++ []).
  { unfold ops. destruct v; unfold run_loop, generate_with_o3_research_o3,
      generate_with_o3_research_backup;
      rewrite run_after_create, io_bind_eq, (guarded_loop_raises _ _ _ _ _ _ _ _ _ _ _ _ Hloop);
      cbn [fst snd mret io_ret append emit trace]; rewrite Ht;
      cbn [started emit snd trace st_init app];
      rewrite store_ops_cons, store_ops_app, Hevs, fmap_app, app_nil_r; done. }
  assert (Hstore : foldl apply_op ∅ ops
                   = {[ sid := {| events := evs ++ [error_event e]; sess_status := Active |} ]}).
  { rewrite Hops. apply (after_run_ops sid (evs ++ [error_event e]) false). }
  assert (Hlen : length (evs ++ [error_event e]) < length ops).
  { rewrite Hops. simpl. rewrite app_nil_r, length_fmap. lia. }
  exists evs. split; [done|].
  assert (Hlog : log_of (foldl apply_op ∅ ops) sid = evs ++ [error_event e]).
  { rewrite Hstore. unfold log_of. by rewrite lookup_singleton_eq. }
  assert (Hc : completed (foldl apply_op ∅ ops) sid = false).
  { rewrite Hstore. unfold completed. by rewrite lookup_singleton_eq. }
  destruct v; unfold drained.
  - rewrite run_o3_ops. cbn [store gen world_init].
    pose proof (inv_quiet_o3_fresh sid (foldl apply_op ∅ ops)) as Hq0.
    destruct (drain_o3_pos sid n _ Hq0) as [Hq' Hpos].
    { left. unfold todo_o3. cbn [store gen at_ relay_init]. rewrite Hlog.
      unfold pos. simpl. lia. }
    rewrite drain_o3_store. cbn [store]. split; [done|]. split.
    + rewrite (drain_o3_all sid n _ Hq0); cbn [store]; [by rewrite Hlog|rewrite Hlog; lia].
    + intros Hat. destruct Hq' as [_ _ _ Hexit]. destruct (Hexit Hat) as [_ Hc'].
      rewrite drain_o3_store in Hc'. cbn [store] in Hc'. congruence.
  - rewrite run_backup_ops. cbn [store gen world_init].
    pose proof (inv_backup_x_fresh sid (foldl apply_op ∅ ops)) as Hq0.
    rewrite drain_backup_store. cbn [store]. split; [done|]. split.
    + rewrite (drain_backup_all sid n _ Hq0); cbn [store gen]; [by rewrite Hlog|].
      rewrite Hlog. simpl. lia.
    + intros Hat.
      assert (Hx : inv_backup_x sid (drain_backup sid n
                     {| store := foldl apply_op ∅ ops; gen := relay_init |})).
      { unfold drain_backup. apply inv_backup_x_run; [done|].
        clear. induction n as [|n IH]; [done|]. simpl. done. }
      destruct Hx as [_ Hexit]. destruct (Hexit Hat) as [_ Hc'].
      rewrite drain_backup_store in Hc'. cbn [store] in Hc'. congruence.
Qed.

Lemma failed_run_stream_stays_open_witness :
  let rejected := fun (_ : nat) (_ : text) => Rejected (lit "model_not_found") in
  let down := fun (_ : nat) (_ : request) => GetRaises (lit "down") in
  let ops := store_ops (trace (snd (run_loop [] [] rejected down (fun _ _ => []) O3 3
                                      DefendantInfo_init "s"))) in
  ∃ evs,
    Forall progress_event evs
    ∧ log_of (store (drained O3 "s" ops 4)) "s" = evs ++ [error_event (lit "model_not_found")]
    ∧ frames (drained O3 "s" ops 4)
      = map relay_event_backup (evs ++ [error_event (lit "model_not_found")])
    ∧ at_ (gen (drained O3 "s" ops 4)) ≠ Exited.
Proof.
  intros rejected down ops.
  apply (failed_run_stream_stays_open [] [] rejected down (fun _ _ => []) O3 3
           DefendantInfo_init "s" (lit "model_not_found") 4); [reflexivity|].
  vm_compute. lia.
Defined.

(** *** The relay of [main.py] on a log that is already written *)

(** One pass of the [for] loop over the events [l]: the frames it yields, up
    to and including the frame after which it breaks. *)
Fixpoint poll_frames (l : list event) : list frame :=
  match l with
  | [] => []
  | e :: l' =>
      match relay_event e with
      | Skip => poll_frames l'
      | Yield f => f :: poll_frames l'
      | YieldBreak f => [f]
      end
  end.

Section Static.
Variable sid : string.
Variable st : gmap string session.
Variable s : session.
Hypothesis Hsid : st !! sid = Some s.

Definition idle (w : world) : Prop :=
  store w = st
  ∧ last_event_index (gen w) = length (events s)
  ∧ (if completed st sid then at_ (gen w) = Exited
     else at_ (gen w) = AtPoll
          ∨ at_ (gen w) = InFor (length (events s)) (length (events s))).

Lemma drain_S (n : nat) (w : world) :
  drain sid (S n) w = drain sid n (step sid w (Tick false)).
Proof. reflexivity. Qed.

Lemma drain_add (n m : nat) (w : world) :
  drain sid (n + m) w = drain sid m (drain sid n w).
Proof. unfold drain, run. by rewrite replicate_add, foldl_app. Qed.

Lemma idle_drain (n : nat) : ∀ w,
  idle w → idle (drain sid n w) ∧ frames (drain sid n w) = frames w.
Proof using Hsid.
  induction n as [|n IH]; intros w Hw; [done|].
  rewrite drain_S.
  assert (Hstep : idle (step sid w (Tick false))
                  ∧ frames (step sid w (Tick false)) = frames w).
  { destruct Hw as (Hst & Hlast & Hat). unfold idle, frames. simpl.
    unfold relay_step. rewrite Hst.
    pose proof (log_of_lookup _ _ _ Hsid) as Hlog.
    destruct (completed st sid) eqn:Hc.
    - rewrite Hat. simpl. done.
    - destruct Hat as [Hat|Hat]; rewrite Hat, ?Hsid, ?Nat.leb_refl; simpl.
      + rewrite Hlast. repeat split; auto.
      + unfold end_of_poll. simpl. rewrite Hc, Hlog. repeat split; auto. }
  destruct Hstep as [Hidle Hfr]. destruct (IH _ Hidle) as [Hidle' Hfr'].
  split; [done|]. by rewrite Hfr'.
Qed.

Lemma for_loop_static (k : nat) : ∀ i w,
  store w = st → at_ (gen w) = InFor i (length (events s)) →
  i ≤ length (events s) → length (events s) - i = k →
  ∃ m, m ≤ k + 1
       ∧ idle (drain sid m w)
       ∧ frames (drain sid m w) = frames w ++ poll_frames (drop i (events s)).
Proof using Hsid.
  pose proof (log_of_lookup _ _ _ Hsid) as Hlog.
  induction k as [k IH] using lt_wf_ind. intros i w Hst Hat Hi Hk.
  destruct (Nat.leb_spec (length (events s)) i) as [Hle|Hlt].
  - exists 1. split; [lia|]. rewrite drop_ge by lia. rewrite app_nil_r.
    unfold drain, idle, frames. simpl. unfold relay_step. rewrite Hat.
    replace (length (events s) <=? i) with true by (symmetry; apply Nat.leb_le; lia).
    unfold end_of_poll. simpl. rewrite Hst, Hlog.
    split; [|done]. split; [done|]. split; [done|].
    destruct (completed st sid); auto.
  - destruct (lookup_lt_is_Some_2 (events s) i) as [e He]; [lia|].
    rewrite (drop_S _ _ _ He). cbn [poll_frames].
    assert (Hstep : ∀ r, relay_event e = r →
              step sid w (Tick false)
              = {| store := st;
                   gen := match r with
                          | Skip => {| last_event_index := last_event_index (gen w);
                                       at_ := InFor (S i) (length (events s));
                                       sent := sent (gen w) |}
                          | Yield f => {| last_event_index := last_event_index (gen w);
                                          at_ := InFor (S i) (length (events s));
                                          sent := sent (gen w) ++ [(i, f)] |}
                          | YieldBreak f =>
                              {| last_event_index := last_event_index (gen w);
                                 at_ := InFor (length (events s)) (length (events s));
                                 sent := sent (gen w) ++ [(i, f)] |}
                          end |}).
    { intros r Hr. unfold step, relay_step. rewrite Hat, Hst.
      replace (length (events s) <=? i) with false by (symmetry; apply Nat.leb_gt; lia).
      rewrite Hlog, He, Hr. by destruct r. }
    destruct (relay_event e) as [|f|f] eqn:Hre.
    + destruct (IH (length (events s) - S i) ltac:(lia) (S i) (step sid w (Tick false)))
        as (m & Hm & Hidle & Hfr); [by rewrite (Hstep Skip)|by rewrite (Hstep Skip)|lia|lia|].
      exists (S m). split; [lia|]. rewrite drain_S. split; [done|].
      rewrite Hfr. by rewrite (Hstep Skip).
    + destruct (IH (length (events s) - S i) ltac:(lia) (S i) (step sid w (Tick false)))
        as (m & Hm & Hidle & Hfr);
        [by rewrite (Hstep (Yield f))|by rewrite (Hstep (Yield f))|lia|lia|].
      exists (S m). split; [lia|]. rewrite drain_S. split; [done|].
      rewrite Hfr, (Hstep (Yield f)) by done. unfold frames. simpl.
      by rewrite map_app, <- app_assoc.
    + exists 2. split; [lia|]. rewrite !drain_S, (Hstep (YieldBreak f)) by done.
      unfold drain, idle, frames. simpl. unfold relay_step. simpl.
      rewrite Nat.leb_refl. unfold end_of_poll. simpl. rewrite Hlog, map_app.
      split; [|done]. split; [done|]. split; [done|].
      destruct (completed st sid); auto.
Qed.

Lemma drain_static (n : nat) :
  length (events s) + 2 ≤ n →
  idle (drain sid n {| store := st; gen := relay_init |})
  ∧ frames (drain sid n {| store := st; gen := relay_init |}) = poll_frames (events s).
Proof using Hsid.
  intros Hn. destruct n as [|n]; [lia|]. rewrite drain_S.
  assert (Hstep : step sid {| store := st; gen := relay_init |} (Tick false)
                  = {| store := st;
                       gen := {| last_event_index := 0;
                                 at_ := InFor 0 (length (events s)); sent := [] |} |}).
  { unfold step, relay_step. simpl. by rewrite Hsid. }
  rewrite Hstep.
  destruct (for_loop_static (length (events s)) 0
              {| store := st;
                 gen := {| last_event_index := 0;
                           at_ := InFor 0 (length (events s)); sent := [] |} |}
              eq_refl eq_refl) as (m & Hm & Hidle & Hfr); [lia|lia|].
  replace n with (m + (n - m)) by lia. rewrite drain_add.
  destruct (idle_drain (n - m) _ Hidle) as [Hidle' Hfr'].
  split; [done|]. by rewrite Hfr', Hfr.
Qed.

End Static.

(** The relay of [main.py], started on a session whose log [l] is already
    written and read long enough: the client receives the frames of the
    events of [l] up to and including the first [done] or [error] event that
    has non-empty data, and nothing after it; later polls add nothing; and
    the generator has finished exactly when the session is completed. *)
Theorem relay_main_static (sid : string) (st : gmap string session) (s : session) (n : nat) :
  st !! sid = Some s →
  length (events s) + 2 ≤ n →
  let w := drain sid n {| store := st; gen := relay_init |} in
  frames w = poll_frames (events s)
  ∧ last_event_index (gen w) = length (events s)
  ∧ (at_ (gen w) = Exited ↔ completed st sid = true).
Proof.
  intros Hsid Hn w. destruct (drain_static sid st s Hsid n Hn) as [(Hst & Hlast & Hat) Hfr].
  fold w in Hst, Hlast, Hat, Hfr. repeat split; [done|done|..].
  - destruct (completed st sid); [done|]. intros Hex. destruct Hat; congruence.
  - intros Hc. by rewrite Hc in Hat.
Qed.

Lemma relay_main_static_witness :
  let evs := [ {| ev_type := lit "thinking"; ev_data := JStr (lit "a ") |};
               {| ev_type := lit "error"; ev_data := JStr (lit "Generation error: x") |};
               {| ev_type := lit "done"; ev_data := JDict [(lit "zip_url", JStr (lit "/z"))] |} ] in
  let st : gmap string session := {[ "s"%string := {| events := evs; sess_status := Completed |} ]} in
  frames (drain "s" 5 {| store := st; gen := relay_init |})
  = [ {| fr_event := lit "thinking"; fr_body := Content (JStr (lit "a ")) |};
      {| fr_event := lit "error"; fr_body := Message (JStr (lit "Generation error: x")) |} ].
Proof.
  intros evs st.
  destruct (relay_main_static "s" st {| events := evs; sess_status := Completed |} 5)
    as (Hfr & _ & _); [reflexivity|simpl; lia|].
  rewrite Hfr. reflexivity.
Defined.

(** *** A run of [main.py], seen by the client *)

(** An event for which the relay of [main.py] yields a frame and goes on. *)
Definition deliverable (e : event) : Prop := ∃ f, relay_event e = Yield f.

Definition delivers (sid : string) (x : effect) : Prop :=
  match x with
  | Store (OpAppend s e) => s = sid ∧ deliverable e
  | Request _ | Search _ _ => True
  | _ => False
  end.

Lemma deliverable_thinking (c : ascii) (data : text) : deliverable (thinking (c :: data)).
Proof. by eexists. Qed.

Lemma deliverable_chunk (chunk : text) : deliverable (thinking (chunk ++ lit " ")).
Proof. destruct chunk; apply deliverable_thinking. Qed.

Lemma deliverable_search (query : text) (results : list json) :
  deliverable {| ev_type := lit "search";
                 ev_data := JDict [(lit "query", JStr query);
                                   (lit "results", JList results)] |}.
Proof. by eexists. Qed.

Section MainBody.
Variable sid : string.
Variables key cx : text.
Variable http : nat -> request -> http_outcome.
Variable fault : nat -> option text.

Lemma delivers_append (e : event) : deliverable e → emits (delivers sid) (append sid e).
Proof. intros He. by apply emits_emit. Qed.

Lemma delivers_await : emits (delivers sid) (await_ fault).
Proof.
  intros s. exists []. rewrite app_nil_r. unfold await_. by destruct (fault _).
Qed.

Lemma delivers_stream_thinking (chunks : list text) :
  emits (delivers sid) (stream_thinking fault sid chunks).
Proof.
  induction chunks as [|c chunks IH]; simpl; [apply emits_ret|].
  apply emits_bind; [apply delivers_append, deliverable_chunk|intros _].
  apply emits_bind; [apply delivers_await|intros _]. done.
Qed.

Lemma delivers_research (queries : list text) :
  ∀ acc, emits (delivers sid) (research key cx http fault sid queries acc).
Proof.
  induction queries as [|q queries IH]; intros acc; simpl; [apply emits_ret|].
  apply emits_bind; [apply delivers_append, deliverable_thinking|intros _].
  apply emits_bind; [apply delivers_await|intros _].
  apply emits_bind.
  { intros s. exists [Search (JStr q) (JNum 3)]. split; [done|]. by constructor. }
  intros results.
  apply emits_bind; [apply delivers_append, deliverable_search|intros _].
  apply emits_bind; [apply delivers_await|intros _]. apply IH.
Qed.

Lemma delivers_try_body content (info : DefendantInfo) :
  emits (delivers sid) (try_body key cx http fault content info sid).
Proof.
  unfold try_body.
  apply emits_bind; [apply delivers_stream_thinking|intros _].
  apply emits_bind; [apply delivers_research|intros _].
  apply emits_bind; [apply delivers_append, deliverable_thinking|intros _]. apply emits_ret.
Qed.

End MainBody.

Lemma store_ops_delivers (sid : string) (t : list effect) :
  Forall (delivers sid) t →
  ∃ evs, store_ops t = OpAppend sid <$> evs ∧ Forall deliverable evs.
Proof.
  induction 1 as [|x t Hx _ [evs [IH Hevs]]]; [by exists []|].
  rewrite store_ops_cons.
  destruct x as [[s|s e|s]| | | |]; simpl in Hx; try done; try by exists evs.
  destruct Hx as [-> He]. exists (e :: evs). rewrite IH. split; [done|by constructor].
Qed.

Lemma main_run_returns (key cx : text) http fault content (info : DefendantInfo)
    (sid : string) (c : text) (s1 : st) (docs : documents) :
  try_body key cx http fault content info sid (started sid) = (Val c, s1) →
  split_documents c = Ok docs →
  generate_with_o3_research key cx http fault content info sid st_init
  = (Val tt,
     {| trace := trace s1
          ++ [ RenderPdf sid (lit "Motion.pdf") (motion docs);
               RenderPdf sid (lit "Memo.pdf") (memo docs);
               RenderPdf sid (lit "Declaration.pdf") (declaration docs);
               Zip sid (lit "motion_packet.zip") pdf_names;
               Store (OpAppend sid (done_event "/api/download/" "motion_packet.zip" sid true));
               Store (OpComplete sid) ];
        awaits := awaits s1; calls := calls s1; searches := searches s1 |}).
Proof.
  intros Hbody Hdocs. unfold generate_with_o3_research.
  rewrite run_after_create, io_bind_eq. unfold try_except. rewrite Hbody.
  rewrite io_bind_eq, Hdocs. unfold render_all, append, emit, mbind, io_bind, mret, io_ret.
  cbn [lift mret io_ret trace awaits calls searches].
  by rewrite <- !app_assoc.
Qed.

(** The frames of a log of deliverable events that ends with the event [x]. *)
Lemma poll_frames_deliverable (evs : list event) (rest : list event) :
  Forall deliverable evs →
  ∃ fs, poll_frames (evs ++ rest) = fs ++ poll_frames rest
        ∧ length fs = length evs
        ∧ Forall (fun f => fr_event f = lit "thinking" ∨ fr_event f = lit "search") fs.
Proof.
  induction 1 as [|e evs [f Hf] _ (fs & IH & Hlen & Hty)]; [by exists []|].
  exists (f :: fs). simpl. rewrite Hf, IH. repeat split; [by rewrite Hlen|].
  constructor; [|done]. unfold relay_event in Hf.
  destruct (data_empty _); [done|].
  destruct (text_eqb (ev_type e) (lit "thinking")); [injection Hf as <-; by left|].
  destruct (text_eqb (ev_type e) (lit "search")); [injection Hf as <-; by right|].
  destruct (text_eqb (ev_type e) (lit "done")); [done|].
  by destruct (text_eqb (ev_type e) (lit "error")).
Qed.

Definition done_frame (sid : string) : frame :=
  {| fr_event := lit "done";
     fr_body := Data (ev_data (done_event "/api/download/" "motion_packet.zip" sid true)) |}.

(** What the client of [main.py] has received after the run and [n] polls. *)
Definition received (sid : string) (t : list effect) (n : nat) : world :=
  drain sid n (run sid (Op <$> store_ops t) world_init).

(** A run of [main.py] in which no [await] is interrupted, read by a client
    afterwards: the run returns; every event of the log is delivered, one
    frame per event and in order, whatever the search service answered; the
    last frame is the [done] frame with the download addresses; and the
    stream ends. *)
Theorem main_run_delivered (key cx : text) (http : nat -> request -> http_outcome)
    (fault : nat -> option text) (content : DefendantInfo -> text)
    (info : DefendantInfo) (sid : string) (n : nat) :
  let run := generate_with_o3_research key cx http fault content info sid st_init in
  (∀ k, fault k = None) →
  length (store_ops (trace (snd run))) + 2 ≤ n →
  fst run = Val tt
  ∧ ∃ fs,
      frames (received sid (trace (snd run)) n) = fs ++ [done_frame sid]
      ∧ S (length fs) = length (log_of (store (received sid (trace (snd run)) n)) sid)
      ∧ Forall (fun f => fr_event f = lit "thinking" ∨ fr_event f = lit "search") fs
      ∧ at_ (gen (received sid (trace (snd run)) n)) = Exited.
Proof.
  intros run Hnone Hn. unfold run in *. clear run.
  destruct (delivers_try_body sid key cx http fault content info (started sid))
    as [t [Ht Hq]].
  destruct (yields_try_body sid key cx http fault Hnone content info (started sid))
    as [c [Hc <-]].
  destruct (try_body key cx http fault content info sid (started sid)) as [r s1] eqn:Hbody.
  cbn [fst snd] in Hc, Ht. subst r.
  destruct (SplitterFacts.split_documents_total (content info)) as [docs Hdocs].
  pose proof (main_run_returns _ _ _ _ _ _ _ _ _ _ Hbody Hdocs) as Hrun.
  rewrite Hrun in Hn |- *. cbn [fst snd trace] in Hn |- *. split; [done|].
  destruct (store_ops_delivers sid t Hq) as [evs [Hevs Hdel]].
  set (d := done_event "/api/download/" "motion_packet.zip" sid true) in *.
  assert (Hops : store_ops (trace s1 ++ [RenderPdf sid (lit "Motion.pdf") (motion docs);
                   RenderPdf sid (lit "Memo.pdf") (memo docs);
                   RenderPdf sid (lit "Declaration.pdf") (declaration docs);
                   Zip sid (lit "motion_packet.zip") pdf_names;
                   Store (OpAppend sid d); Store (OpComplete sid)])
                 = OpCreate sid :: (OpAppend sid <$> (evs ++ [d])) ++ [OpComplete sid]).
  { rewrite Ht. cbn [started emit snd trace st_init app].
    rewrite store_ops_cons, !store_ops_app, Hevs, fmap_app. simpl.
    by rewrite <- app_assoc. }
  rewrite Hops in Hn. unfold received. rewrite Hops, run_main_ops.
  cbn [store gen world_init].
  pose proof (after_run_ops sid (evs ++ [d]) true) as Hstore. unfold after_ops in Hstore.
  rewrite Hstore.
  destruct (relay_main_static sid
              {[ sid := {| events := evs ++ [d]; sess_status := Completed |} ]}
              {| events := evs ++ [d]; sess_status := Completed |} n)
    as (Hfr & Hlast & Hexit); [by rewrite lookup_singleton_eq| |].
  { simpl in Hn |- *. rewrite length_app, length_fmap in Hn. simpl in Hn. lia. }
  cbn [events] in Hfr.
  destruct (poll_frames_deliverable evs [d] Hdel) as (fs & Hpf & Hlen & Hty).
  exists fs. rewrite Hfr, Hpf, drain_store. cbn [store].
  unfold log_of. rewrite lookup_singleton_eq. cbn [events].
  repeat split; [by rewrite length_app, Hlen; simpl; lia|done|].
  apply Hexit. unfold completed. by rewrite lookup_singleton_eq.
Qed.

Lemma main_run_delivered_witness :
  let down := fun (_ : nat) (_ : request) => GetRaises (lit "down") in
  let run := generate_with_o3_research [] [] down (fun _ => None) (fun _ => [])
               DefendantInfo_init "s" st_init in
  fst run = Val tt
  ∧ ∃ fs,
      frames (received "s" (trace (snd run)) 30) = fs ++ [done_frame "s"]
      ∧ S (length fs) = length (log_of (store (received "s" (trace (snd run)) 30)) "s")
      ∧ Forall (fun f => fr_event f = lit "thinking" ∨ fr_event f = lit "search") fs
      ∧ at_ (gen (received "s" (trace (snd run)) 30)) = Exited.
Proof.
  intros down run.
  apply (main_run_delivered [] [] down (fun _ => None) (fun _ => []) DefendantInfo_init "s" 30);
    [done|]. vm_compute. lia.
Defined.



End StreamFacts.

(** ** The tool-calling loop of [main_o3.py] and [main_backup.py] *)
Module LoopFacts.
Import Json Bus Parser Splitter WebSearch Orchestrator.
Import OrchestratorFacts.

(** *** Tool calls *)

(** A tool call that the loop of [main_o3.py] handles without an exception:
    it has no [function] attribute, or its function is not [web_search], or
    the arguments of its function decode to a dictionary with the key
    ["query"].  A tool call whose [function] is [None] is not one of them. *)
Definition handled (tc : tool_call) : bool :=
  match tc_function tc with
  | NoFunction => true
  | FunctionNone => false
  | Function f =>
      if text_eqb (fn_name f) (lit "web_search") then
        match fn_arguments f with
        | Ok (JDict kv) =>
            match assoc (lit "query") kv with Some _ => true | None => false end
        | _ => false
        end
      else true
  end.

Definition is_val {A : Type} (r : res A) : bool :=
  match r with Val _ => true | _ => false end.

Section Loop.
Variables key cx : text.
Variable completion : nat -> text -> create_outcome.
Variable http : nat -> request -> http_outcome.
Variable sid : string.

Lemma handle_tool_calls_handled (tcs : list tool_call) : ∀ msgs s,
  is_val (fst (handle_tool_calls key cx http O3 sid tcs msgs s)) = forallb handled tcs
  ∧ calls (snd (handle_tool_calls key cx http O3 sid tcs msgs s)) = calls s.
Proof.
  induction tcs as [|tc tcs IH]; intros msgs s; [done|].
  cbn [handle_tool_calls forallb]. rewrite io_bind_eq.
  unfold is_web_search, handled.
  destruct (tc_function tc) as [| |f]; cbn [mret io_ret raise]; [apply IH|done|].
  destruct (text_eqb (fn_name f) (lit "web_search")); [|apply IH].
  rewrite io_bind_eq. destruct (fn_arguments f) as [args|err]; cbn [lift mret io_ret raise];
    [|done].
  rewrite io_bind_eq. destruct args as [| | | |kv|]; cbn [py_subscript lift raise]; try done.
  destruct (assoc (lit "query") kv) as [q|]; cbn [lift mret io_ret raise]; [|done].
  rewrite io_bind_eq. cbn [py_get lift mret io_ret].
  rewrite io_bind_eq. cbn [do_search_loop]. rewrite io_bind_eq. cbn [append emit].
  match goal with
  | |- context [handle_tool_calls _ _ _ _ _ tcs ?m ?s'] => destruct (IH m s') as [-> ->]
  end. done.
Qed.

(** *** The passes of the loop *)

(** The tool calls a streamed response carries. *)
Definition calls_of (cs : list (option choice)) : list tool_call :=
  flat_map (fun oc => match oc with Some c => delta_tool_calls c | None => [] end) cs.

Lemma consume_calls (v : variant) (cs : list (option choice)) (brk : option text) :
  ∀ full tcs s, calls (snd (consume v sid cs brk full tcs s)) = calls s.
Proof.
  induction cs as [|[c|] cs IH]; intros full tcs s; cbn [consume].
  - by destruct brk.
  - rewrite io_bind_eq.
    destruct (delta_content c); cbn [mret io_ret append emit];
      (destruct (finish_reason c); [done|by rewrite IH]).
  - destruct v; [apply IH|done].
Qed.

Lemma consume_result (v : variant) (cs : list (option choice)) (brk : option text) :
  ∀ full tcs s,
    match fst (consume v sid cs brk full tcs s) with
    | Val (_, tcs') => ∃ extra, tcs' = tcs ++ extra ∧ extra `sublist_of` calls_of cs
    | Exn _ => True
    | OutOfFuel => False
    end.
Proof.
  induction cs as [|[c|] cs IH]; intros full tcs s; cbn [consume].
  - destruct brk; [done|]. exists []. by rewrite app_nil_r.
  - rewrite io_bind_eq.
    assert (Hgo : ∀ s0,
      match fst ((if finish_reason c
                  then mret (full ++ delta_content c, tcs ++ delta_tool_calls c)
                  else consume v sid cs brk (full ++ delta_content c)
                         (tcs ++ delta_tool_calls c)) s0) with
      | Val (_, tcs') =>
          ∃ extra, tcs' = tcs ++ extra ∧ extra `sublist_of` calls_of (Some c :: cs)
      | Exn _ => True
      | OutOfFuel => False
      end).
    { intros s0. destruct (finish_reason c).
      - exists (delta_tool_calls c). split; [done|]. by apply sublist_inserts_r.
      - specialize (IH (full ++ delta_content c) (tcs ++ delta_tool_calls c) s0).
        destruct (fst (consume v sid cs brk _ _ s0)) as [[f t]|err|]; [|done|done].
        destruct IH as [extra [-> Hsub]]. exists (delta_tool_calls c ++ extra).
        split; [by rewrite app_assoc|]. by apply sublist_app. }
    destruct (delta_content c); cbn [mret io_ret append emit]; apply Hgo.
  - destruct v; [|done]. specialize (IH full tcs s).
    destruct (fst (consume O3 sid cs brk full tcs s)) as [[f t]|err|]; done.
Qed.

Lemma consume_streamed (cs : list (option choice)) :
  ∀ full tcs s,
    ∃ full' extra s',
      consume O3 sid cs None full tcs s = (Val (full', tcs ++ extra), s')
      ∧ extra `sublist_of` calls_of cs
      ∧ (∀ c rest, cs = Some c :: rest → ∃ more, extra = delta_tool_calls c ++ more).
Proof.
  induction cs as [|[c|] cs IH]; intros full tcs s; cbn [consume].
  - exists full, [], s. rewrite app_nil_r. repeat split; [done|]. by intros ?? [=].
  - rewrite io_bind_eq.
    assert (Hgo : ∀ s0, ∃ full' extra s',
      (if finish_reason c
       then mret (full ++ delta_content c, tcs ++ delta_tool_calls c)
       else consume O3 sid cs None (full ++ delta_content c) (tcs ++ delta_tool_calls c)) s0
      = (Val (full', tcs ++ extra), s')
      ∧ extra `sublist_of` calls_of (Some c :: cs)
      ∧ (∀ c' rest, Some c :: cs = Some c' :: rest →
         ∃ more, extra = delta_tool_calls c' ++ more)).
    { intros s0. destruct (finish_reason c).
      - exists (full ++ delta_content c), (delta_tool_calls c), s0.
        repeat split; [by apply sublist_inserts_r|].
        intros c' rest [= <- <-]. exists []. by rewrite app_nil_r.
      - destruct (IH (full ++ delta_content c) (tcs ++ delta_tool_calls c) s0)
          as (full' & extra & s' & Heq & Hsub & _).
        exists full', (delta_tool_calls c ++ extra), s'. rewrite Heq, app_assoc.
        repeat split; [by apply sublist_app|].
        intros c' rest [= <- <-]. by exists extra. }
    destruct (delta_content c); cbn [mret io_ret append emit]; apply Hgo.
  - destruct (IH full tcs s) as (full' & extra & s' & Heq & Hsub & _).
    exists full', extra, s'. repeat split; [done|done|]. by intros ?? [=].
Qed.

Lemma request_stream_result (v : variant) (s : st) :
  match fst (request_stream completion v s) with
  | Val r => ∃ n model, completion n model = Accepted r
  | Exn _ => True
  | OutOfFuel => False
  end
  ∧ calls s < calls (snd (request_stream completion v s))
  ∧ (v = O3 → calls (snd (request_stream completion v s)) = S (calls s)).
Proof.
  destruct v; cbn [request_stream]; unfold try_except, create.
  - destruct (completion (calls s) (lit "o3")) eqn:Hc; cbn [fst snd calls];
      repeat split; try lia; try done; by eexists _, _.
  - destruct (completion (calls s) (lit "o3")) eqn:Hc; cbn [fst snd calls];
      [destruct (completion (S (calls s)) (lit "gpt-4o")) eqn:Hc'; cbn [fst snd calls]|];
      repeat split; try lia; try done; by eexists _, _.
Qed.

(** A response without tool calls. *)
Definition no_tools (r : stream) : Prop := calls_of (chunks r) = [].

Lemma loop_bounded (v : variant) (fuel : nat) : ∀ msgs s,
  (∀ n model r, completion n model = Accepted r → no_tools r) →
  26 ≤ length msgs + fuel → 0 < fuel →
  fst (loop key cx completion http v fuel sid msgs s) ≠ OutOfFuel.
Proof.
  induction fuel as [|fuel IH]; intros msgs s Hno Hlen Hfuel; [lia|].
  cbn [loop]. rewrite io_bind_eq.
  destruct (request_stream_result v s) as [Hreq _].
  destruct (request_stream completion v s) as [[r|err|] s1]; cbn [fst] in Hreq; [|done|done].
  destruct Hreq as (n & model & Hacc). specialize (Hno n model r Hacc) as Hr.
  rewrite io_bind_eq.
  pose proof (consume_result v (chunks r) (breaks r) [] [] s1) as Hcons.
  destruct (consume v sid (chunks r) (breaks r) [] [] s1) as [[[full tcs]|err|] s2];
    cbn [fst] in Hcons; [|done|done].
  destruct Hcons as [extra [-> Hsub]]. rewrite Hr in Hsub.
  apply sublist_nil_r in Hsub as ->. cbn [app].
  destruct (has_final_documents full); [done|].
  destruct (Nat.ltb_spec 25 (length (msgs ++ [assistant_msg full]))) as [Hgt|Hle]; [done|].
  rewrite length_app in Hle. simpl in Hle.
  apply IH; [done|rewrite length_app; simpl; lia|lia].
Qed.

Lemma loop_calls (fuel : nat) : ∀ msgs s,
  calls (snd (loop key cx completion http O3 fuel sid msgs s)) ≤ calls s + fuel.
Proof.
  induction fuel as [|fuel IH]; intros msgs s; [simpl; lia|].
  cbn [loop]. rewrite io_bind_eq.
  destruct (request_stream_result O3 s) as (_ & _ & Hone). specialize (Hone eq_refl).
  destruct (request_stream completion O3 s) as [[r|err|] s1]; cbn [snd] in Hone |- *; [|lia..].
  rewrite io_bind_eq.
  pose proof (consume_calls O3 (chunks r) (breaks r) [] [] s1) as Hcons.
  destruct (consume O3 sid (chunks r) (breaks r) [] [] s1) as [[[full tcs]|err|] s2];
    cbn [snd] in Hcons |- *; [|lia..].
  destruct tcs as [|tc tcs].
  - destruct (has_final_documents full); [cbn; lia|].
    destruct (25 <? _); [cbn; lia|]. specialize (IH (msgs ++ [assistant_msg full]) s2). lia.
  - rewrite io_bind_eq.
    destruct (handle_tool_calls_handled (tc :: tcs) (msgs ++ [assistant_msg full]) s2)
      as [_ Hh].
    destruct (handle_tool_calls key cx http O3 sid (tc :: tcs) _ s2) as [[m|err|] s3];
      cbn [snd] in Hh |- *; [|lia..].
    specialize (IH m s3). lia.
Qed.

(** A response that opens with a tool call and whose tool calls are all
    handled without an exception. *)
Definition tool_response (r : stream) : Prop :=
  breaks r = None
  ∧ (∃ c rest, chunks r = Some c :: rest ∧ delta_tool_calls c ≠ [])
  ∧ forallb handled (calls_of (chunks r)) = true.

Lemma loop_goes_on (fuel : nat) : ∀ msgs s,
  (∀ n model, ∃ r, completion n model = Accepted r ∧ tool_response r) →
  fst (loop key cx completion http O3 fuel sid msgs s) = OutOfFuel
  ∧ calls (snd (loop key cx completion http O3 fuel sid msgs s)) = calls s + fuel.
Proof.
  induction fuel as [|fuel IH]; intros msgs s Hr; [simpl; split; [done|lia]|].
  cbn [loop]. rewrite io_bind_eq. cbn [request_stream]. unfold create.
  destruct (Hr (calls s) (lit "o3")) as (r & -> & Hbrk & (c & rest & Hch & Hne) & Hall).
  rewrite io_bind_eq, Hbrk.
  destruct (consume_streamed (chunks r) [] []
              {| trace := trace s ++ [Request (lit "o3")]; awaits := awaits s;
                 calls := S (calls s); searches := searches s |})
    as (full & extra & s2 & Heq & Hsub & Hfirst).
  pose proof (consume_calls O3 (chunks r) None [] [] 
              {| trace := trace s ++ [Request (lit "o3")]; awaits := awaits s;
                 calls := S (calls s); searches := searches s |}) as Hcalls.
  rewrite Heq in Hcalls |- *. cbn [app snd calls] in Hcalls |- *.
  destruct (Hfirst c rest Hch) as [more Hmore].
  destruct extra as [|tc tcs]; [by destruct (delta_tool_calls c)|].
  rewrite io_bind_eq.
  assert (Hh : forallb handled (tc :: tcs) = true).
  { apply forallb_forall. intros x Hx. rewrite forallb_forall in Hall. apply Hall.
    apply list_elem_of_In. eapply elem_of_sublist; [|exact Hsub]. by apply list_elem_of_In. }
  destruct (handle_tool_calls_handled (tc :: tcs) (msgs ++ [assistant_msg full]) s2)
    as [Hval Hc3].
  rewrite Hh in Hval.
  destruct (handle_tool_calls key cx http O3 sid (tc :: tcs) _ s2) as [[m|err|] s3];
    cbn [fst snd is_val] in Hval, Hc3 |- *; [|done|done].
  destruct (IH m s3 Hr) as [-> ->]. split; [done|]. lia.
Qed.

End Loop.

(** The guard [len(messages) > 25] of the loop of [main_o3.py] and
    [main_backup.py]: when no response of the model carries a tool call, the
    loop that starts from the two initial messages ends within 24 passes (it
    returns or raises); in [main_o3.py] it then has made at most 24
    requests. *)
Theorem loop_ends_without_tool_calls (key cx : text)
    (completion : nat -> text -> create_outcome) (http : nat -> request -> http_outcome)
    (system_prompt : variant -> DefendantInfo -> text) (v : variant)
    (info : DefendantInfo) (sid : string) (s : st) :
  (∀ n model r, completion n model = Accepted r → no_tools r) →
  fst (loop key cx completion http v 24 sid (initial_messages system_prompt v info) s)
  ≠ OutOfFuel
  ∧ calls (snd (loop key cx completion http O3 24 sid
                  (initial_messages system_prompt O3 info) s)) ≤ calls s + 24.
Proof.
  intros Hno. split; [|apply loop_calls].
  apply loop_bounded; [done|simpl; lia|lia].
Qed.

Lemma loop_ends_without_tool_calls_witness :
  let silent := fun (_ : nat) (_ : text) =>
    Accepted {| chunks := [Some {| delta_content := lit "Thinking";
                                   delta_tool_calls := []; finish_reason := true |}];
                breaks := None |} in
  fst (loop [] [] silent (fun _ _ => GetRaises (lit "down")) O3 24 "s"
         (initial_messages (fun _ _ => []) O3 DefendantInfo_init) st_init)
  ≠ OutOfFuel.
Proof.
  intros silent.
  apply (loop_ends_without_tool_calls [] [] silent (fun _ _ => GetRaises (lit "down"))
           (fun _ _ => []) O3 DefendantInfo_init "s" st_init).
  intros n model r [= <-]. reflexivity.
Defined.

(** The guard is not reached on a pass with tool calls ([continue] comes
    first): if the model answers every request with a response that opens
    with a tool call and whose tool calls are handled without an exception,
    the loop of [main_o3.py] does not end: however many passes are allowed,
    it makes one request in each of them and is still running. *)
Theorem loop_goes_on_with_tool_calls (key cx : text)
    (completion : nat -> text -> create_outcome) (http : nat -> request -> http_outcome)
    (sid : string) (fuel : nat) (msgs : list message) (s : st) :
  (∀ n model, ∃ r, completion n model = Accepted r ∧ tool_response r) →
  fst (loop key cx completion http O3 fuel sid msgs s) = OutOfFuel
  ∧ calls (snd (loop key cx completion http O3 fuel sid msgs s)) = calls s + fuel.
Proof. apply loop_goes_on. Qed.

Lemma loop_goes_on_with_tool_calls_witness :
  let call := {| tc_id := lit "call_1";
                 tc_function := Function {| fn_name := lit "web_search";
                                        fn_arguments := Ok (JDict [(lit "query", JStr (lit "q"))]) |} |} in
  let searching := fun (_ : nat) (_ : text) =>
    Accepted {| chunks := [Some {| delta_content := [];
                                   delta_tool_calls := [call]; finish_reason := true |}];
                breaks := None |} in
  fst (loop [] [] searching (fun _ _ => GetRaises (lit "down")) O3 40 "s" [] st_init)
  = OutOfFuel
  ∧ calls (snd (loop [] [] searching (fun _ _ => GetRaises (lit "down")) O3 40 "s" []
                  st_init)) = 40.
Proof.
  intros call searching.
  apply (loop_goes_on_with_tool_calls [] [] searching (fun _ _ => GetRaises (lit "down"))
           "s" 40 [] st_init).
  intros n model. eexists. split; [reflexivity|].
  split; [reflexivity|]. split; [|reflexivity]. by eexists _, _.
Defined.

(** The tool calls of one pass in [main_o3.py] are handled without an
    exception exactly when each of them has no [function] attribute, has a
    function that is not [web_search], or has a [web_search] function whose
    arguments decode to a dictionary with the key ["query"]; a tool call
    whose [function] is [None] raises ([hasattr] does not guard against it),
    and a failing search raises nothing.  No request is made to the model
    while they are handled. *)
Theorem handle_tool_calls_raises (key cx : text) (http : nat -> request -> http_outcome)
    (sid : string) (tcs : list tool_call) (msgs : list message) (s : st) :
  is_val (fst (handle_tool_calls key cx http O3 sid tcs msgs s)) = forallb handled tcs
  ∧ fst (handle_tool_calls key cx http O3 sid tcs msgs s) ≠ OutOfFuel
  ∧ calls (snd (handle_tool_calls key cx http O3 sid tcs msgs s)) = calls s.
Proof.
  destruct (handle_tool_calls_handled key cx http sid tcs msgs s) as [Hv Hc].
  repeat split; [done| |done].
  revert msgs s Hv Hc. induction tcs as [|tc tcs IH]; intros msgs s _ _; [done|].
  cbn [handle_tool_calls]. rewrite io_bind_eq.
  unfold is_web_search. destruct (tc_function tc) as [| |f]; cbn [mret io_ret raise];
    [by apply IH; apply handle_tool_calls_handled|done|].
  destruct (text_eqb (fn_name f) (lit "web_search"));
    [|by apply IH; apply handle_tool_calls_handled].
  rewrite io_bind_eq. destruct (fn_arguments f) as [args|err]; cbn [lift mret io_ret raise];
    [|done].
  rewrite io_bind_eq. destruct (py_subscript args "query") as [q|err];
    cbn [lift mret io_ret raise]; [|done].
  rewrite io_bind_eq. destruct (py_get args "k" (JNum 5)) as [k|err];
    cbn [lift mret io_ret raise]; [|done].
  rewrite io_bind_eq. cbn [do_search_loop]. rewrite io_bind_eq. cbn [append emit].
  by apply IH; apply handle_tool_calls_handled.
Qed.

(** A tool call whose [function] is [None] passes [hasattr] in
    [main_o3.py] and raises at [.name]; the calls after it are not handled. *)
Example o3_function_none_raises :
  let call := {| tc_id := lit "call_1"; tc_function := FunctionNone |} in
  let later := {| tc_id := lit "call_2";
                  tc_function := Function {| fn_name := lit "web_search";
                                             fn_arguments :=
                                               Ok (JDict [(lit "query", JStr (lit "q"))]) |} |} in
  handle_tool_calls [] [] (fun _ _ => GetRaises (lit "down")) O3 "s" [call; later] [] st_init
  = (Exn (lit "'NoneType' object has no attribute 'name'"), st_init).
Proof. reflexivity. Qed.

End LoopFacts.

(** ** The fallback content of [main.py] *)
Module FallbackFacts.
Import Json Bus Parser Splitter WebSearch Orchestrator SplitterFacts OrchestratorFacts.

(** *** Searching a delimiter in a text made of segments *)

(** [w] differs from [suf] at a position that both have. *)
Fixpoint clash (w suf : text) : bool :=
  match w, suf with
  | c :: w', x :: suf' => if Ascii.eqb c x then clash w' suf' else true
  | _, _ => false
  end.

(** No occurrence of [w] begins inside [l], whatever follows [l]. *)
Fixpoint clear_of (w l : text) : bool :=
  match l with
  | [] => true
  | x :: l' => clash w (x :: l') && clear_of w l'
  end.

Lemma clash_starts_with (w suf s : text) :
  clash w suf = true → starts_with w (suf ++ s) = false.
Proof.
  revert suf. induction w as [|c w IH]; intros suf; [done|].
  destruct suf as [|x suf]; [done|]. cbn [clash app starts_with].
  destruct (Ascii.eqb c x); [|done]. intros H. by rewrite (IH _ H).
Qed.

Lemma find_past_literal (w l s : text) :
  clear_of w l = true → find w (l ++ s) = (fun n => length l + n) <$> find w s.
Proof.
  induction l as [|x l IH]; intros Hl.
  - cbn [app length]. by destruct (find w s).
  - cbn [clear_of] in Hl. apply andb_true_iff in Hl as [Hc Hl].
    change ((x :: l) ++ s) with (x :: (l ++ s)). rewrite find_cons.
    change (x :: (l ++ s)) with ((x :: l) ++ s). rewrite (clash_starts_with _ _ _ Hc).
    rewrite (IH Hl). by destruct (find w s).
Qed.

Lemma find_past_clean (c0 : ascii) (w l s : text) :
  Forall (fun c => c ≠ c0) l →
  find (c0 :: w) (l ++ s) = (fun n => length l + n) <$> find (c0 :: w) s.
Proof.
  intros Hl. apply find_past_literal. induction Hl as [|x l Hx _ IH]; [done|].
  cbn [clear_of clash]. destruct (Ascii.eqb_spec c0 x) as [->|_]; [done|]. exact IH.
Qed.

Lemma find_here (c0 : ascii) (w s : text) : find (c0 :: w) ((c0 :: w) ++ s) = Some 0.
Proof.
  change ((c0 :: w) ++ s) with (c0 :: (w ++ s)). rewrite find_cons.
  change (c0 :: (w ++ s)) with ((c0 :: w) ++ s). by rewrite starts_with_app.
Qed.

(** *** The three blocks of the fallback content *)

Definition EQ : ascii := "="%char.

Definition motion_body (info : DefendantInfo) : text :=
  lit "Motion for " ++ name info ++ lit " in case " ++ case_number info.

Definition memo_body : text := lit "Memorandum for compassionate release".

Definition declaration_body (info : DefendantInfo) : text :=
  lit "Declaration from " ++ name info.

Definition fallback_documents (info : DefendantInfo) : documents :=
  {| motion := strip (motion_body info);
     memo := memo_body;
     declaration := strip (declaration_body info) |}.

(** A body between two line ends: [strip] removes them. *)
Lemma lstrip_nonspace (c : ascii) (s : text) : is_space c = false → lstrip (c :: s) = c :: s.
Proof. intros H. cbn [lstrip]. by rewrite H. Qed.

Lemma strip_between_lines (c : ascii) (s : text) :
  is_space c = false → strip (NL ++ (c :: s) ++ NL) = strip (c :: s).
Proof.
  intros Hc. unfold strip. change (lstrip (NL ++ (c :: s) ++ NL)) with (lstrip ((c :: s) ++ NL)).
  change ((c :: s) ++ NL) with (c :: (s ++ NL)). rewrite !lstrip_nonspace by done.
  unfold rstrip. change (c :: (s ++ NL)) with ((c :: s) ++ NL). by rewrite rev_app_distr.
Qed.

Section Blocks.
Variable info : DefendantInfo.
Hypothesis name_clean : Forall (fun c => c ≠ EQ) (name info).
Hypothesis case_clean : Forall (fun c => c ≠ EQ) (case_number info).

Ltac past_literal l :=
  match goal with
  | |- context [find ?w (l ++ ?s)] =>
      rewrite (find_past_literal w l s) by (vm_compute; reflexivity)
  end.

Ltac past_clean H :=
  match goal with
  | |- context [find (?c0 :: ?w) (?l ++ ?s)] =>
      rewrite (find_past_clean c0 w l s H)
  end.

Ltac here :=
  match goal with
  | |- context [find (?c0 :: ?w) ((?c0 :: ?w) ++ ?s)] => rewrite (find_here c0 w s)
  end.

Lemma fallback_motion (q : text) :
  find (lit "===MOTION END===")
    (NL ++ lit "Motion for " ++ name info ++ lit " in case " ++ case_number info ++ NL
     ++ lit "===MOTION END===" ++ q)
  = Some (length (NL ++ motion_body info ++ NL)).
Proof using name_clean case_clean.
  change (NL ++ lit "Motion for " ++ ?r) with ((NL ++ lit "Motion for ") ++ r).
  past_literal (NL ++ lit "Motion for ").
  change (lit "===MOTION END===") with (EQ :: lit "==MOTION END===").
  past_clean name_clean. past_literal (lit " in case "). past_clean case_clean.
  past_literal NL. here. cbn [fmap option_fmap option_map]. f_equal.
  unfold motion_body. rewrite !length_app. lia.
Qed.

Lemma fallback_declaration (q : text) :
  find (lit "===DECL END===")
    (NL ++ lit "Declaration from " ++ name info ++ NL ++ lit "===DECL END===" ++ q)
  = Some (length (NL ++ declaration_body info ++ NL)).
Proof using name_clean.
  change (NL ++ lit "Declaration from " ++ ?r) with ((NL ++ lit "Declaration from ") ++ r).
  past_literal (NL ++ lit "Declaration from ").
  change (lit "===DECL END===") with (EQ :: lit "==DECL END===").
  past_clean name_clean. past_literal NL. here.
  cbn [fmap option_fmap option_map]. f_equal.
  unfold declaration_body. rewrite !length_app. lia.
Qed.

(** What stands before the memo and before the declaration. *)
Definition before_memo : text :=
  lit "===MOTION START===" ++ (NL ++ motion_body info ++ NL) ++ lit "===MOTION END==="
  ++ NL ++ NL.

Definition before_declaration : text :=
  before_memo ++ lit "===MEMO START===" ++ (NL ++ memo_body ++ NL) ++ lit "===MEMO END==="
  ++ NL ++ NL.

Lemma fallback_memo_start (q : text) :
  find (lit "===MEMO START===") (before_memo ++ lit "===MEMO START===" ++ q)
  = Some (length before_memo).
Proof using name_clean case_clean.
  unfold before_memo, motion_body. rewrite <- !app_assoc.
  change (lit "===MOTION START===" ++ NL ++ lit "Motion for " ++ ?r)
    with ((lit "===MOTION START===" ++ NL ++ lit "Motion for ") ++ r).
  past_literal (lit "===MOTION START===" ++ NL ++ lit "Motion for ").
  change (lit "===MEMO START===") with (EQ :: lit "==MEMO START===").
  past_clean name_clean. past_literal (lit " in case "). past_clean case_clean.
  change (NL ++ lit "===MOTION END===" ++ NL ++ NL ++ ?r)
    with ((NL ++ lit "===MOTION END===" ++ NL ++ NL) ++ r).
  past_literal (NL ++ lit "===MOTION END===" ++ NL ++ NL). here.
  cbn [fmap option_fmap option_map]. f_equal. rewrite !length_app. lia.
Qed.

Lemma fallback_declaration_start (q : text) :
  find (lit "===DECL START===") (before_declaration ++ lit "===DECL START===" ++ q)
  = Some (length before_declaration).
Proof using name_clean case_clean.
  unfold before_declaration, before_memo, motion_body, memo_body. rewrite <- !app_assoc.
  change (lit "===MOTION START===" ++ NL ++ lit "Motion for " ++ ?r)
    with ((lit "===MOTION START===" ++ NL ++ lit "Motion for ") ++ r).
  past_literal (lit "===MOTION START===" ++ NL ++ lit "Motion for ").
  change (lit "===DECL START===") with (EQ :: lit "==DECL START===").
  past_clean name_clean. past_literal (lit " in case "). past_clean case_clean.
  change (NL ++ lit "===MOTION END===" ++ NL ++ NL ++ lit "===MEMO START===" ++ NL
          ++ lit "Memorandum for compassionate release" ++ NL ++ lit "===MEMO END==="
          ++ NL ++ NL ++ ?r)
    with ((NL ++ lit "===MOTION END===" ++ NL ++ NL ++ lit "===MEMO START===" ++ NL
           ++ lit "Memorandum for compassionate release" ++ NL ++ lit "===MEMO END==="
           ++ NL ++ NL) ++ r).
  past_literal (NL ++ lit "===MOTION END===" ++ NL ++ NL ++ lit "===MEMO START===" ++ NL
                ++ lit "Memorandum for compassionate release" ++ NL ++ lit "===MEMO END==="
                ++ NL ++ NL).
  here. cbn [fmap option_fmap option_map]. f_equal. rewrite !length_app. lia.
Qed.

Lemma fallback_shape :
  fallback_content info
  = before_declaration ++ lit "===DECL START===" ++ (NL ++ declaration_body info ++ NL)
    ++ lit "===DECL END===" ++ [].
Proof.
  unfold fallback_content, before_declaration, before_memo, motion_body, memo_body,
    declaration_body.
  rewrite <- !app_assoc. by rewrite app_nil_r.
Qed.

Lemma fallback_blocks :
  block_of Motion (fallback_content info) = Some (NL ++ motion_body info ++ NL)
  ∧ block_of Memo (fallback_content info) = Some (NL ++ memo_body ++ NL)
  ∧ block_of Declaration (fallback_content info) = Some (NL ++ declaration_body info ++ NL).
Proof using name_clean case_clean.
  split; [|split].
  - apply (block_of_well_formed Motion _ []
             (NL ++ motion_body info ++ NL)
             (NL ++ NL ++ lit "===MEMO START===" ++ (NL ++ memo_body ++ NL)
              ++ lit "===MEMO END===" ++ NL ++ NL ++ lit "===DECL START==="
              ++ (NL ++ declaration_body info ++ NL) ++ lit "===DECL END===" ++ [])).
    split; [|split].
    + rewrite fallback_shape. unfold before_declaration, before_memo.
      cbn [start_of end_of]. rewrite <- !app_assoc. reflexivity.
    + cbn [start_of app length].
      change (lit "===MOTION START===") with (EQ :: lit "==MOTION START===").
      apply find_here.
    + cbn [end_of]. unfold motion_body. rewrite <- !app_assoc. rewrite fallback_motion.
      unfold motion_body. rewrite <- !app_assoc. reflexivity.
  - pose (q := NL ++ NL ++ lit "===DECL START===" ++ (NL ++ declaration_body info ++ NL)
               ++ lit "===DECL END===" ++ []).
    assert (fallback_content info
            = before_memo ++ start_of Memo ++ (NL ++ memo_body ++ NL) ++ end_of Memo ++ q)
      as ->.
    { rewrite fallback_shape. unfold before_declaration, q. cbn [start_of end_of].
      rewrite <- !app_assoc. reflexivity. }
    apply (block_of_well_formed Memo _ before_memo (NL ++ memo_body ++ NL) q).
    split; [reflexivity|split].
    + cbn [start_of]. apply fallback_memo_start.
    + generalize q. intros q'. cbn [end_of]. unfold memo_body.
      rewrite <- !app_assoc.
      change (NL ++ lit "Memorandum for compassionate release" ++ NL ++ ?r)
        with ((NL ++ lit "Memorandum for compassionate release" ++ NL) ++ r).
      rewrite (find_past_literal _ (NL ++ lit "Memorandum for compassionate release" ++ NL))
        by (vm_compute; reflexivity).
      change (lit "===MEMO END===") with (EQ :: lit "==MEMO END===").
      rewrite find_here. reflexivity.
  - assert (fallback_content info
            = before_declaration ++ start_of Declaration
              ++ (NL ++ declaration_body info ++ NL) ++ end_of Declaration ++ [])
      as -> by apply fallback_shape.
    apply (block_of_well_formed Declaration _ before_declaration
             (NL ++ declaration_body info ++ NL) []).
    split; [reflexivity|split].
    + cbn [start_of]. apply fallback_declaration_start.
    + cbn [end_of]. unfold declaration_body. rewrite <- !app_assoc.
      rewrite fallback_declaration. unfold declaration_body. rewrite <- !app_assoc.
      reflexivity.
Qed.

Lemma split_fallback : split_documents (fallback_content info) = Ok (fallback_documents info).
Proof using name_clean case_clean.
  rewrite split_documents_blocks. destruct fallback_blocks as (-> & -> & ->).
  assert (strip (NL ++ motion_body info ++ NL) = strip (motion_body info)) as ->.
  { unfold motion_body.
    change (lit "Motion for " ++ ?r) with ("M"%char :: lit "otion for " ++ r).
    by apply strip_between_lines. }
  assert (strip (NL ++ declaration_body info ++ NL) = strip (declaration_body info)) as ->.
  { unfold declaration_body.
    change (lit "Declaration from " ++ ?r) with ("D"%char :: lit "eclaration from " ++ r).
    by apply strip_between_lines. }
  assert (strip (NL ++ memo_body ++ NL) = memo_body) as -> by (vm_compute; reflexivity).
  reflexivity.
Qed.

End Blocks.



End FallbackFacts.

(** ** [ai_utils.stream_o3_completion] and its [session_events] argument *)
Module CompletionFacts.
Import Json Bus Parser WebSearch Orchestrator OrchestratorFacts.

(** The events appended to the logs, in order. *)
Definition logged (t : list effect) : list event :=
  omap (fun x => match x with Store (OpAppend _ e) => Some e | _ => None end) t.

Lemma logged_app (t1 t2 : list effect) : logged (t1 ++ t2) = logged t1 ++ logged t2.
Proof. apply omap_app. Qed.

Definition is_thinking (e : event) : Prop := ev_type e = lit "thinking".
Definition is_error (e : event) : Prop := ev_type e = lit "error".

(** With a list, the loop over the chunks appends [thinking] events only and
    never ends with an error reply. *)
Lemma consume_utils_list (sid : string) (cs : list (option choice)) (brk : option text) :
  ∀ (full_content : text) (tool_calls : list tool_call) (s : st),
    (∀ c, fst (consume_utils AList sid cs brk full_content tool_calls s) ≠ Val (ErrorReply c))
    ∧ ∃ t, trace (snd (consume_utils AList sid cs brk full_content tool_calls s))
           = trace s ++ t
           ∧ Forall is_thinking (logged t).
Proof.
  induction cs as [|[c|] cs IH]; intros fc tcs s.
  - cbn [consume_utils]. destruct brk as [e|]; (split; [done|]); exists [];
      (split; [by rewrite app_nil_r|constructor]).
  - cbn [consume_utils]. rewrite io_bind_eq.
    destruct (delta_content c) as [|x d] eqn:Hd.
    + cbn [mret io_ret]. destruct (finish_reason c); cbn [mret io_ret fst snd].
      * split; [done|]. exists []. split; [by rewrite app_nil_r|constructor].
      * apply IH.
    + cbn [sink_append append emit].
      destruct (finish_reason c); cbn [mret io_ret fst snd trace].
      * split; [done|]. eexists. split; [reflexivity|]. by repeat constructor.
      * match goal with |- context [consume_utils _ _ _ _ ?f ?t ?s'] =>
          destruct (IH f t s') as [Hr [t' [Ht Hl]]] end.
        split; [exact Hr|]. rewrite Ht. cbn [trace]. rewrite <- app_assoc.
        eexists. split; [reflexivity|]. rewrite logged_app.
        apply Forall_app. split; [by repeat constructor|done].
  - cbn [consume_utils]. apply IH.
Qed.

(** With a queue, the loop appends nothing and the content it returns is the
    content it started with. *)
Lemma consume_utils_queue (sid : string) (cs : list (option choice)) (brk : option text) :
  ∀ (full_content : text) (tool_calls : list tool_call) (s : st),
    snd (consume_utils AQueue sid cs brk full_content tool_calls s) = s
    ∧ ∀ full tcs, fst (consume_utils AQueue sid cs brk full_content tool_calls s)
                  = Val (Streamed full tcs) → full = full_content.
Proof.
  induction cs as [|[c|] cs IH]; intros fc tcs s.
  - cbn [consume_utils]. destruct brk as [e|]; (split; [done|]); [done|].
    by intros full tcs' [= <- _].
  - cbn [consume_utils]. rewrite io_bind_eq.
    destruct (delta_content c) as [|x d] eqn:Hd.
    + cbn [mret io_ret]. rewrite app_nil_r. destruct (finish_reason c); cbn [mret io_ret fst snd].
      * split; [done|]. by intros full tcs' [= <- _].
      * apply IH.
    + cbn [sink_append raise]. split; [done|]. by intros full tcs' [=].
  - cbn [consume_utils]. apply IH.
Qed.

(** [stream_o3_completion] awaits [session_events.put] to report an error
    and calls [session_events.append] to log a chunk.  Given a list, it
    never returns an error reply and logs no [error] event (where it would,
    it ends with the [AttributeError] of [put]; without a client it does so
    before any request).  Given a queue, it logs no [thinking] event and
    never returns streamed text: a reply that is returned has empty content.
    So neither a list nor a queue carries both kinds of event. *)
Theorem stream_o3_completion_sink (completion : nat -> text -> create_outcome)
    (client_configured : bool) (sid : string) :
  let on_list := stream_o3_completion completion client_configured AList sid st_init in
  let on_queue := stream_o3_completion completion client_configured AQueue sid st_init in
  (∀ c, fst on_list ≠ Val (ErrorReply c))
  ∧ Forall is_thinking (logged (trace (snd on_list)))
  ∧ (client_configured = false →
     on_list = (Exn (lit "'list' object has no attribute 'put'"), st_init))
  ∧ (∀ full tcs, fst on_queue = Val (Streamed full tcs) → full = [])
  ∧ Forall is_error (logged (trace (snd on_queue))).
Proof.
  intros on_list on_queue. unfold on_list, on_queue, stream_o3_completion.
  clear on_list on_queue.
  destruct client_configured; cbn [negb].
  - rewrite !io_bind_eq. unfold try_except. rewrite !io_bind_eq. unfold create.
    cbn [calls st_init trace awaits searches app].
    destruct (completion 0 (lit "o3")) as [e1|r1].
    + rewrite !io_bind_eq. cbn [calls].
      destruct (completion 1 (lit "gpt-4o")) as [e2|r2].
      * cbn [sink_put raise append emit mret io_ret trace fst snd].
        repeat split; try done; try (intros; discriminate);
          by repeat constructor.
      * cbn [mret io_ret].
        match goal with |- context [consume_utils AList _ _ _ _ _ ?s'] =>
          destruct (consume_utils_list sid (chunks r2) (breaks r2) [] [] s')
            as [Hr [t [Ht Hl]]];
          destruct (consume_utils_queue sid (chunks r2) (breaks r2) [] [] s')
            as [Hs Hq]
        end.
        split; [exact Hr|]. split; [by rewrite Ht, logged_app; apply Forall_app|].
        split; [done|]. split; [exact Hq|]. rewrite Hs. by repeat constructor.
    + cbn [mret io_ret].
      match goal with |- context [consume_utils AList _ _ _ _ _ ?s'] =>
        destruct (consume_utils_list sid (chunks r1) (breaks r1) [] [] s')
          as [Hr [t [Ht Hl]]];
        destruct (consume_utils_queue sid (chunks r1) (breaks r1) [] [] s')
          as [Hs Hq]
      end.
      split; [exact Hr|]. split; [by rewrite Ht, logged_app; apply Forall_app|].
      split; [done|]. split; [exact Hq|]. rewrite Hs. by repeat constructor.
  - rewrite !io_bind_eq. cbn [sink_put raise append emit mret io_ret trace fst snd st_init app].
    repeat split; try done; try (intros; discriminate); by repeat constructor.
Qed.

Lemma stream_o3_completion_sink_witness :
  stream_o3_completion (fun _ _ => Rejected (lit "Connection error")) false AList "s" st_init
  = (Exn (lit "'list' object has no attribute 'put'"), st_init).
Proof.
  exact (proj1 (proj2 (proj2 (stream_o3_completion_sink
                                (fun _ _ => Rejected (lit "Connection error")) false "s")))
           eq_refl).
Defined.

End CompletionFacts.
